(** * Merged timeline service (src/services/bsky.ts)

    A shallow embedding of the timeline service: [resolveHandle],
    [getMergedTimeline] and [getUserTimeline], together with the parts of the
    JavaScript runtime they rely on ([Map] objects living in a store,
    promises settled in completion order, [Array.prototype.sort]).

    The agent (the remote API client) is not part of the service; it is a
    parameter of the development, and every request it receives is recorded
    in a trace so that statements can speak about what was asked of it. *)

From Stdlib Require Import Ascii.
From stdpp Require Import gmap strings list fin_maps sorting pretty.
From Equations Require Import Equations.

Local Open Scope string_scope.
Local Open Scope list_scope.
Local Open Scope Z_scope.

(** ** Data as the service sees it *)

(** [any]-typed payloads (facets, embeds) are carried around untouched. *)
#[local] Unset Elimination Schemes.
Inductive any : Type :=
| JNull
| JBool (b : bool)
| JNum (z : Z)
| JStr (s : string)
| JArr (items : list any)
| JObj (fields : list (string * any)).
#[local] Set Elimination Schemes.

(** A label attached to a profile; only [val] is read. *)
Module Label.
Record t := mk { val : string }.
End Label.

(** An entry of [res.data.follows]. *)
Module ProfileView.
Record t := mk {
  did : string;
  handle : string;
  displayName : option string;
  avatar : option string;
  labels : option (list Label.t)
}.
End ProfileView.

(** The actor snapshot found in [post.author] and in [reason.by]. *)
Module Actor.
Record t := mk {
  did : string;
  handle : string;
  displayName : option string;
  avatar : option string
}.
End Actor.

(** [f.reason]: read through [as any], so both fields may be missing. *)
Module Reason.
Record t := mk {
  type_ : option string;      (* $type *)
  by_ : option Actor.t        (* by *)
}.
End Reason.

Module PostRecord.
Record t := mk {
  text : string;
  createdAt : string;
  facets : option (list any)
}.
End PostRecord.

Module PostView.
Record t := mk {
  uri : string;
  cid : string;
  author : Actor.t;
  record : PostRecord.t;
  embed : option any;
  indexedAt : string
}.
End PostView.

Module FeedViewPost.
Record t := mk {
  post : PostView.t;
  reason : option Reason.t
}.
End FeedViewPost.

(** [res.data] of a feed request. *)
Module FeedPage.
Record t := mk {
  feed : list FeedViewPost.t;
  cursor : option string
}.
End FeedPage.

(** The exported [Post] interface. *)
Module Author.
Record t := mk {
  did : string;
  handle : string;
  displayName : option string;
  avatar : option string
}.
End Author.

Module RepostedBy.
Record t := mk {
  did : string;
  handle : string;
  displayName : option string
}.
End RepostedBy.

Module Post.
Record t := mk {
  uri : string;
  cid : string;
  author : Author.t;
  record : PostRecord.t;
  embed : option any;
  indexedAt : string;
  repostedBy : option RepostedBy.t
}.
End Post.

(** ** Failures, requests, and the observable trace *)

Inductive exn : Type :=
| XRPCError (status : Z) (message : string)   (* thrown by the agent *)
| TypeError (message : string).              (* thrown by the runtime *)

Inductive call : Type :=
| ResolveHandle (handle : string)
| GetFollows (actor : string) (limit : Z)
| GetAuthorFeed (actor : string) (limit : Z) (cursor : option string).

(** Requests are numbered in the order in which they are issued. *)
Inductive event : Type :=
| Request (n : nat) (c : call)                (* request [n] leaves *)
| Settled (n : nat)                           (* its continuation runs *)
| ConsoleError (message : string) (e : exn).  (* console.error *)

(** The agent: what request number [n] is answered with, and when its
    promise settles relative to the others that are in flight. *)
Record Agent := {
  resolveHandle_response : nat → string → exn + string;
  getFollows_response : nat → string → Z → exn + list ProfileView.t;
  getAuthorFeed_response : nat → string → Z → option string → exn + FeedPage.t;
  latency : nat → nat
}.

(** ** The store of [Map<string, string>] objects *)

Definition loc := positive.

Record State := mkState {
  heap : gmap loc (gmap string string);
  issued : nat;
  trace : list event
}.

(** What [getMergedTimeline] resolves to; [cursorMap] is a reference. *)
Module TimelineResult.
Record t := mk {
  posts : list Post.t;
  cursorMap : loc
}.
End TimelineResult.

(** ** The monad of async functions: state, and promise rejection *)

Definition M (A : Type) : Type := State → (exn + A) * State.

Global Instance M_ret : MRet M := λ A a σ, (inr a, σ).
Global Instance M_bind : MBind M := λ A B k m σ,
  match m σ with
  | (inr a, σ') => k a σ'
  | (inl e, σ') => (inl e, σ')
  end.

Definition throw {A} (e : exn) : M A := λ σ, (inl e, σ).

Definition liftE {A} (r : exn + A) : M A :=
  match r with inl e => throw e | inr a => mret a end.

Definition emit (e : event) : M () := λ σ,
  (inr (), mkState (heap σ) (issued σ) (trace σ ++ [e])).

Definition issue (c : call) : M nat := λ σ,
  (inr (issued σ),
   mkState (heap σ) (S (issued σ)) (trace σ ++ [Request (issued σ) c])).

(** [new Map()] *)
Definition Map_new : M loc := λ σ,
  let l := fresh (dom (heap σ)) in
  (inr l, mkState (<[l := ∅]> (heap σ)) (issued σ) (trace σ)).

(** [m.set(k, v)] *)
Definition Map_set (l : loc) (k v : string) : M () := λ σ,
  (inr (), mkState (alter (insert k v) l (heap σ)) (issued σ) (trace σ)).

(** [m?.get(k)] on a store *)
Definition lookupMap (h : gmap loc (gmap string string))
    (m : option loc) (k : string) : option string :=
  l ← m; entries ← h !! l; entries !! k.

Definition Map_get (m : option loc) (k : string) : M (option string) := λ σ,
  (inr (lookupMap (heap σ) m k), σ).

(** JavaScript truthiness of an optional string. *)
Definition truthy (s : option string) : bool :=
  match s with
  | Some s => negb (String.eqb s "")
  | None => false
  end.

(** The agent as the [.catch] handler makes it look: a feed request that
    fails counts as one answered with an empty page and no cursor. *)
Definition absorbed (agent : Agent) : Agent := {|
  resolveHandle_response := resolveHandle_response agent;
  getFollows_response := getFollows_response agent;
  getAuthorFeed_response n actor limit cursor :=
    match getAuthorFeed_response agent n actor limit cursor with
    | inl _ => inr (FeedPage.mk [] None)
    | inr page => inr page
    end;
  latency := latency agent
|}.

(** A trace without what was written to the console. *)
Definition quiet (evs : list event) : list event :=
  omap (λ ev, match ev with ConsoleError _ _ => None | _ => Some ev end) evs.

(** The feed requests in flight once an event has happened, and the most
    that were in flight at any moment of a piece of trace. *)
Definition inFlightStep (out : gset nat) (ev : event) : gset nat :=
  match ev with
  | Request n (GetAuthorFeed _ _ _) => {[n]} ∪ out
  | Settled n => out ∖ {[n]}
  | _ => out
  end.

Fixpoint inFlightMax (out : gset nat) (evs : list event) : nat :=
  match evs with
  | [] => size out
  | ev :: evs' => Nat.max (size out) (inFlightMax (inFlightStep out ev) evs')
  end.

(** ** The service *)

Section Service.

(** The agent behind [agent.*], and [new Date(s).getTime()] with [None]
    standing for [NaN] (an unparsable date). *)
Variable agent : Agent.
Variable Date_getTime : string → option Z.

(** [await agent.resolveHandle({ handle })], then [res.data.did] *)
Definition agent_resolveHandle (handle : string) : M string :=
  n ← issue (ResolveHandle handle);
  _ ← emit (Settled n);
  liftE (resolveHandle_response agent n handle).

(** [await agent.app.bsky.graph.getFollows({ actor, limit })], then
    [res.data.follows] *)
Definition agent_getFollows (actor : string) (limit : Z)
    : M (list ProfileView.t) :=
  n ← issue (GetFollows actor limit);
  _ ← emit (Settled n);
  liftE (getFollows_response agent n actor limit).

(** [await agent.app.bsky.feed.getAuthorFeed({ actor, limit })] *)
Definition agent_getAuthorFeed (actor : string) (limit : Z)
    (cursor : option string) : M FeedPage.t :=
  n ← issue (GetAuthorFeed actor limit cursor);
  _ ← emit (Settled n);
  liftE (getAuthorFeed_response agent n actor limit cursor).

Definition resolveHandle (handle : string) : M string :=
  if String.prefix "did:" handle then mret handle
  else agent_resolveHandle handle.

Definition getFollows (actor : string) : M (list ProfileView.t) :=
  agent_getFollows actor 50.

Definition getAuthorFeed (actor : string) (limit : Z)
    : M (list FeedViewPost.t) :=
  res ← agent_getAuthorFeed actor limit None;
  mret (FeedPage.feed res).

(** *** Projection of a raw feed entry into a [Post] *)

Definition isRepost (reason : option Reason.t) : bool :=
  match reason with
  | Some r =>
      match Reason.type_ r with
      | Some ty => String.eqb ty "app.bsky.feed.defs#skeletonReasonRepost"
      | None => false
      end
  | None => false
  end.

(** The [repostedBy] conditional; [(f.reason as any).by.did] throws when
    [by] is missing. *)
Definition repostedByOf (reason : option Reason.t)
    : exn + option RepostedBy.t :=
  if isRepost reason then
    match reason ≫= Reason.by_ with
    | Some by_ =>
        inr (Some (RepostedBy.mk (Actor.did by_) (Actor.handle by_)
                                 (Actor.displayName by_)))
    | None =>
        inl (TypeError "Cannot read properties of undefined (reading 'did')")
    end
  else inr None.

Definition toPost (f : FeedViewPost.t) : exn + Post.t :=
  let post := FeedViewPost.post f in
  match repostedByOf (FeedViewPost.reason f) with
  | inl e => inl e
  | inr repostedBy =>
      inr (Post.mk
             (PostView.uri post)
             (PostView.cid post)
             (Author.mk (Actor.did (PostView.author post))
                        (Actor.handle (PostView.author post))
                        (Actor.displayName (PostView.author post))
                        (Actor.avatar (PostView.author post)))
             (PostView.record post)
             (PostView.embed post)
             (PostView.indexedAt post)
             repostedBy)
  end.

(** [feed.map(f => ({ ... }))]: entries are projected left to right and
    the first exception aborts the whole map. *)
Fixpoint Array_map_toPost (feed : list FeedViewPost.t) : exn + list Post.t :=
  match feed with
  | [] => inr []
  | f :: feed' =>
      match toPost f with
      | inl e => inl e
      | inr p =>
          match Array_map_toPost feed' with
          | inl e => inl e
          | inr ps => inr (p :: ps)
          end
      end
  end.

Definition getUserTimeline (actor : string) : M (list Post.t) :=
  feed ← getAuthorFeed actor 20;
  liftE (Array_map_toPost feed).

(** *** The merged timeline *)

(** The follow filter: [profile.labels == null ||
    !profile.labels.some(label => label.val === "!no-unauthenticated")] *)
Definition keepProfile (profile : ProfileView.t) : bool :=
  match ProfileView.labels profile with
  | None => true
  | Some labels =>
      negb (existsb (λ label, String.eqb (Label.val label) "!no-unauthenticated")
                    labels)
  end.

Definition batchSize : nat := 5.

(** [a.slice(i, j)] for [0 <= i] *)
Definition Array_slice {A} (i j : nat) (a : list A) : list A :=
  take (j - i) (drop i a).

(** A feed request in flight: the profile it was made for, its number,
    and what the agent will answer. *)
Record Pending := mkPending {
  p_profile : ProfileView.t;
  p_request : nat;
  p_cursor : option string;
  p_response : exn + FeedPage.t
}.

(** [batch.map(f => agent.app.bsky.feed.getAuthorFeed({...}) ...)]: the
    requests leave one after the other, none has been answered yet. *)
Fixpoint feedPromises (cursorMap : option loc) (batch : list ProfileView.t)
    : M (list Pending) :=
  match batch with
  | [] => mret []
  | f :: batch' =>
      cursor ← Map_get cursorMap (ProfileView.did f);
      n ← issue (GetAuthorFeed (ProfileView.did f) 10 cursor);
      ps ← feedPromises cursorMap batch';
      mret (mkPending f n cursor
              (getAuthorFeed_response agent n (ProfileView.did f) 10 cursor)
            :: ps)
  end.

(** The [.then] / [.catch] handlers of one request, run when it settles. *)
Definition onSettled (newCursorMap : loc) (p : Pending) : M () :=
  _ ← emit (Settled (p_request p));
  match p_response p with
  | inr res =>
      match FeedPage.cursor res with
      | Some c =>
          if truthy (Some c)
          then Map_set newCursorMap (ProfileView.did (p_profile p)) c
          else mret ()
      | None => mret ()
      end
  | inl e =>
      emit (ConsoleError
              ("Error fetching feed for " +:+
               ProfileView.handle (p_profile p) +:+ ":") e)
  end.

(** What the handled promise resolves to. *)
Definition resolvedFeed (p : Pending) : list FeedViewPost.t :=
  match p_response p with
  | inr res => FeedPage.feed res
  | inl _ => []
  end.

Fixpoint forEachM {A} (k : A → M ()) (l : list A) : M () :=
  match l with
  | [] => mret ()
  | x :: l' => _ ← k x; forEachM k l'
  end.

(** The order in which the requests of a batch settle: by latency, and
    by issue order among equals. *)
Fixpoint settleAfter (p : Pending) (queue : list Pending) : list Pending :=
  match queue with
  | [] => [p]
  | q :: queue' =>
      if (latency agent (p_request q) <? latency agent (p_request p))%nat
      then q :: settleAfter p queue'
      else p :: q :: queue'
  end.

Fixpoint completionOrder (ps : list Pending) : list Pending :=
  match ps with
  | [] => []
  | p :: ps' => settleAfter p (completionOrder ps')
  end.

(** [await Promise.all(feedPromises)]: handlers run in completion order,
    the results are collected in the order of the promises. *)
Definition Promise_all (newCursorMap : loc) (ps : list Pending)
    : M (list (list FeedViewPost.t)) :=
  _ ← forEachM (onSettled newCursorMap) (completionOrder ps);
  mret (map resolvedFeed ps).

(** The body of the loop up to [batchPosts]. *)
Definition batchPostsOf (did : string) (cursorMap : option loc)
    (newCursorMap : loc) (batch : list ProfileView.t) : M (list Post.t) :=
  ps ← feedPromises cursorMap batch;
  batchFeeds ← Promise_all newCursorMap ps;
  liftE (Array_map_toPost
           (filter (λ f, Actor.did (PostView.author (FeedViewPost.post f)) ≠ did)
                   (concat batchFeeds))).

(** [for (let i = 0; i < follows.length; i += batchSize) { ... }] *)
Equations? batchLoop (did : string) (cursorMap : option loc)
    (newCursorMap : loc) (follows : list ProfileView.t)
    (i : nat) (allPosts : list Post.t) : M (list Post.t)
    by wf (length follows - i)%nat lt :=
  batchLoop did cursorMap newCursorMap follows i allPosts with
      decide (i < length follows)%nat := {
    | left _ =>
        batchPosts ← batchPostsOf did cursorMap newCursorMap
                       (Array_slice i (i + batchSize) follows);
        batchLoop did cursorMap newCursorMap follows (i + batchSize)%nat
                  (allPosts ++ batchPosts)
    | right _ => mret allPosts
    }.
Proof. unfold batchSize. lia. Defined.

(** *** [Array.prototype.sort] *)

(** [(a, b) => new Date(b.indexedAt).getTime() -
               new Date(a.indexedAt).getTime()]; [None] is [NaN].
    Only the sign of the result is looked at, and the sign of the rounded
    difference of two time values is the sign of their exact difference. *)
Definition comparefn (a b : Post.t) : option Z :=
  match Date_getTime (Post.indexedAt b), Date_getTime (Post.indexedAt a) with
  | Some tb, Some ta => Some (tb - ta)
  | _, _ => None
  end.

(** SortCompare: a [NaN] from the comparator counts as [+0]. *)
Definition SortCompare {A} (cmp : A → A → option Z) (x y : A) : Z :=
  match cmp x y with
  | Some v => v
  | None => 0
  end.

(** A stable sort: [x] moves right past [y] only when it compares greater.
    With a comparator that orders the elements consistently this is the
    order [Array.prototype.sort] gives in every engine, the sort being
    stable. With a comparator that answers [NaN] for some pairs the
    language leaves the order to the engine, and the order below need not
    be the engine's: at such inputs only what holds of any order (the
    posts are the same posts) is meant of the code, unless the engine's
    sort has been followed step by step at the input in question. *)
Fixpoint sort_insert {A} (cmp : A → A → option Z) (x : A) (l : list A)
    : list A :=
  match l with
  | [] => [x]
  | y :: l' =>
      if 0 <? SortCompare cmp x y
      then y :: sort_insert cmp x l'
      else x :: y :: l'
  end.

Fixpoint Array_sort {A} (cmp : A → A → option Z) (l : list A) : list A :=
  match l with
  | [] => []
  | x :: l' => sort_insert cmp x (Array_sort cmp l')
  end.

Definition getMergedTimeline (handle : string) (cursorMap : option loc)
    : M TimelineResult.t :=
  did ← resolveHandle handle;
  res ← agent_getFollows did 30;
  let follows := filter (λ profile, keepProfile profile = true) res in
  newCursorMap ← Map_new;
  allPosts ← batchLoop did cursorMap newCursorMap follows 0 [];
  let sortedPosts := Array_sort comparefn allPosts in
  mret (TimelineResult.mk sortedPosts newCursorMap).

(** *** What a run amounts to

    Pure descriptions of the requests a batch makes and of the effect of
    their handlers, against which the monadic code is compared. *)

Definition pendingOf (h : gmap loc (gmap string string))
    (cursorMap : option loc) (n : nat) (f : ProfileView.t) : Pending :=
  let cursor := lookupMap h cursorMap (ProfileView.did f) in
  mkPending f n cursor
    (getAuthorFeed_response agent n (ProfileView.did f) 10 cursor).

Fixpoint pendings (h : gmap loc (gmap string string))
    (cursorMap : option loc) (n : nat) (batch : list ProfileView.t)
    : list Pending :=
  match batch with
  | [] => []
  | f :: batch' => pendingOf h cursorMap n f :: pendings h cursorMap (S n) batch'
  end.

Definition requestEvent (p : Pending) : event :=
  Request (p_request p)
    (GetAuthorFeed (ProfileView.did (p_profile p)) 10 (p_cursor p)).

Definition settleEvents (p : Pending) : list event :=
  Settled (p_request p) ::
  match p_response p with
  | inr _ => []
  | inl e => [ConsoleError ("Error fetching feed for " +:+
                            ProfileView.handle (p_profile p) +:+ ":") e]
  end.

(** The token a settled request leaves in the new cursor map, if any. *)
Definition tokenOf (p : Pending) : option string :=
  match p_response p with
  | inr res => if truthy (FeedPage.cursor res) then FeedPage.cursor res else None
  | inl _ => None
  end.

Definition settledMap (p : Pending) (m : gmap string string)
    : gmap string string :=
  match tokenOf p with
  | Some c => <[ProfileView.did (p_profile p) := c]> m
  | None => m
  end.

Definition batchEvents (ps : list Pending) : list event :=
  map requestEvent ps ++ concat (map settleEvents (completionOrder ps)).

Definition settledAll (ps : list Pending) (m : gmap string string)
    : gmap string string :=
  foldl (λ m p, settledMap p m) m ps.

(** The state a batch leaves behind, whatever becomes of its posts. *)
Definition afterBatch (cm : option loc) (ncm : loc)
    (batch : list ProfileView.t) (σ : State) : State :=
  let ps := pendings (heap σ) cm (issued σ) batch in
  mkState (alter (settledAll (completionOrder ps)) ncm (heap σ))
          (issued σ + length batch)%nat
          (trace σ ++ batchEvents ps).

Fixpoint afterBatches (cm : option loc) (ncm : loc)
    (batches : list (list ProfileView.t)) (σ : State) : State :=
  match batches with
  | [] => σ
  | batch :: batches' => afterBatches cm ncm batches' (afterBatch cm ncm batch σ)
  end.

(** The requests of consecutive batches, numbered as they leave. *)
Fixpoint pendingBatches (h : gmap loc (gmap string string))
    (cm : option loc) (n : nat) (batches : list (list ProfileView.t))
    : list (list Pending) :=
  match batches with
  | [] => []
  | batch :: batches' =>
      pendings h cm n batch
      :: pendingBatches h cm (n + length batch)%nat batches'
  end.

(** The same, read off the states the batches run in. *)
Fixpoint requestsOf (cm : option loc) (ncm : loc)
    (batches : list (list ProfileView.t)) (σ : State) : list (list Pending) :=
  match batches with
  | [] => []
  | batch :: batches' =>
      pendings (heap σ) cm (issued σ) batch
      :: requestsOf cm ncm batches' (afterBatch cm ncm batch σ)
  end.

(** The loop seen as a walk over the batches it slices off. *)
Fixpoint runBatches (did : string) (cursorMap : option loc)
    (newCursorMap : loc) (batches : list (list ProfileView.t))
    (allPosts : list Post.t) : M (list Post.t) :=
  match batches with
  | [] => mret allPosts
  | batch :: batches' =>
      batchPosts ← batchPostsOf did cursorMap newCursorMap batch;
      runBatches did cursorMap newCursorMap batches' (allPosts ++ batchPosts)
  end.

Equations? batchesFrom {A} (follows : list A) (i : nat) : list (list A)
    by wf (length follows - i)%nat lt :=
  batchesFrom follows i with decide (i < length follows)%nat := {
    | left _ => Array_slice i (i + batchSize) follows
                :: batchesFrom follows (i + batchSize)%nat
    | right _ => []
    }.
Proof. unfold batchSize. lia. Defined.

(** The follows the loop runs over, out of [res.data.follows]. *)
Definition keptFollows (res : list ProfileView.t) : list ProfileView.t :=
  filter (λ profile, keepProfile profile = true) res.

(** The state in which the loop starts: follows fetched, new map made. *)
Definition loopStart (did : string) (σ1 : State) : State :=
  mkState (<[fresh (dom (heap σ1)) := ∅]> (heap σ1)) (S (issued σ1))
          (trace σ1 ++ [Request (issued σ1) (GetFollows did 30);
                        Settled (issued σ1)]).

(** The caller's cursor map, when there is one, is a map of the store. *)
Definition cursorMapIn (σ : State) (cm : option loc) : Prop :=
  ∀ l, cm = Some l → is_Some (heap σ !! l).

(** A followed account whose labels ask for an authenticated viewer. *)
Definition requiresAuth (profile : ProfileView.t) : Prop :=
  match ProfileView.labels profile with
  | Some labels =>
      Exists (λ label, Label.val label = "!no-unauthenticated") labels
  | None => False
  end.

Global Instance requiresAuth_dec profile : Decision (requiresAuth profile).
Proof. unfold requiresAuth. destruct (ProfileView.labels profile); apply _. Defined.

(** An entry whose projection does not throw. *)
Definition projectable (f : FeedViewPost.t) : Prop :=
  isRepost (FeedViewPost.reason f) = true →
  is_Some (FeedViewPost.reason f ≫= Reason.by_).

(** The request was answered with a page that carries the token [c]. *)
Definition returnedToken (p : Pending) (c : string) : Prop :=
  ∃ page, p_response p = inr page ∧ FeedPage.cursor page = Some c ∧ c ≠ "".

(** The pages of the requests that were answered. *)
Definition succeeded (ps : list Pending) : list FeedPage.t :=
  omap (λ p, match p_response p with
             | inr page => Some page
             | inl _ => None
             end) ps.

(** The feed requests found in a piece of trace, in order. *)
Definition feedRequests (evs : list event) : list call :=
  omap (λ ev, match ev with
              | Request _ (GetAuthorFeed actor limit cursor) =>
                  Some (GetAuthorFeed actor limit cursor)
              | _ => None
              end) evs.

(** An entry that came in a page the agent answered a feed request with. *)
Definition answered (f : FeedViewPost.t) : Prop :=
  ∃ n actor cursor page,
    getAuthorFeed_response agent n actor 10 cursor = inr page ∧
    f ∈ FeedPage.feed page.

(** The feed request made for a follow, given the caller's cursor map. *)
Definition feedCall (h : gmap loc (gmap string string)) (cm : option loc)
    (f : ProfileView.t) : call :=
  GetAuthorFeed (ProfileView.did f) 10 (lookupMap h cm (ProfileView.did f)).

Definition followsEvents (did : string) (σ1 : State) : list event :=
  [Request (issued σ1) (GetFollows did 30); Settled (issued σ1)].

(** The entries that survive the self-post filter. *)
Definition notBy (did : string) (feed : list FeedViewPost.t)
    : list FeedViewPost.t :=
  filter (λ f, Actor.did (PostView.author (FeedViewPost.post f)) ≠ did) feed.

(** Newest first, on posts whose [indexedAt] is a date. *)
Definition newestFirst (p q : Post.t) : Prop :=
  ∃ tp tq, Date_getTime (Post.indexedAt p) = Some tp ∧
           Date_getTime (Post.indexedAt q) = Some tq ∧ tq ≤ tp.

Definition hasDate (p : Post.t) : Prop :=
  is_Some (Date_getTime (Post.indexedAt p)).

(** ** Properties *)

(** *** The monad *)

Lemma bind_run {A B} (m : M A) (k : A → M B) σ :
  (m ≫= k) σ =
  match m σ with
  | (inr a, σ') => k a σ'
  | (inl e, σ') => (inl e, σ')
  end.
Proof. reflexivity. Qed.

Ltac run_M :=
  repeat (rewrite bind_run;
          cbn [issue emit Map_new Map_set Map_get throw liftE mret M_ret
               heap issued trace fst snd]).

(** *** resolveHandle *)

Lemma resolveHandle_run (handle : string) (σ : State) :
  resolveHandle handle σ =
  if String.prefix "did:" handle then (inr handle, σ)
  else (resolveHandle_response agent (issued σ) handle,
        mkState (heap σ) (S (issued σ))
          (trace σ ++ [Request (issued σ) (ResolveHandle handle);
                       Settled (issued σ)])).
Proof.
  unfold resolveHandle. destruct (String.prefix _ _); [done|].
  unfold agent_resolveHandle. run_M. rewrite <- app_assoc.
  by destruct (resolveHandle_response agent (issued σ) handle).
Qed.

Lemma resolveHandle_heap handle σ :
  heap (resolveHandle handle σ).2 = heap σ.
Proof. rewrite resolveHandle_run. by destruct (String.prefix _ _). Qed.

Lemma agent_getFollows_run actor limit σ :
  agent_getFollows actor limit σ =
  (getFollows_response agent (issued σ) actor limit,
   mkState (heap σ) (S (issued σ))
     (trace σ ++ [Request (issued σ) (GetFollows actor limit);
                  Settled (issued σ)])).
Proof.
  unfold agent_getFollows. run_M. rewrite <- app_assoc.
  by destruct (getFollows_response agent (issued σ) actor limit).
Qed.

Lemma agent_getAuthorFeed_run actor limit cursor σ :
  agent_getAuthorFeed actor limit cursor σ =
  (getAuthorFeed_response agent (issued σ) actor limit cursor,
   mkState (heap σ) (S (issued σ))
     (trace σ ++ [Request (issued σ) (GetAuthorFeed actor limit cursor);
                  Settled (issued σ)])).
Proof.
  unfold agent_getAuthorFeed. run_M. rewrite <- app_assoc.
  by destruct (getAuthorFeed_response agent (issued σ) actor limit cursor).
Qed.

(** *** One batch *)

Lemma pendings_length h cm n batch :
  length (pendings h cm n batch) = length batch.
Proof. revert n. induction batch; intros; simpl; auto. Qed.

Lemma pendings_app h cm n b1 b2 :
  pendings h cm n (b1 ++ b2) =
  pendings h cm n b1 ++ pendings h cm (n + length b1)%nat b2.
Proof.
  revert n. induction b1 as [|f b1 IH]; intros n; simpl.
  - by rewrite Nat.add_0_r.
  - rewrite IH. do 3 f_equal. lia.
Qed.

Lemma feedPromises_run cm batch σ :
  feedPromises cm batch σ =
  (inr (pendings (heap σ) cm (issued σ) batch),
   mkState (heap σ) (issued σ + length batch)%nat
           (trace σ ++ map requestEvent (pendings (heap σ) cm (issued σ) batch))).
Proof.
  revert σ. induction batch as [|f batch IH]; intros σ; simpl.
  - rewrite Nat.add_0_r, app_nil_r. by destruct σ.
  - run_M. rewrite IH. simpl. rewrite <- app_assoc. simpl.
    do 3 f_equal. lia.
Qed.

Lemma onSettled_run ncm p σ :
  onSettled ncm p σ =
  (inr (), mkState (alter (settledMap p) ncm (heap σ)) (issued σ)
                   (trace σ ++ settleEvents p)).
Proof.
  unfold onSettled, settledMap, settleEvents, tokenOf. run_M.
  destruct (p_response p) as [e|res]; simpl.
  - unfold emit; simpl. rewrite alter_id by done. by rewrite <- app_assoc.
  - destruct (FeedPage.cursor res) as [c|]; simpl.
    + destruct (negb (c =? ""))%string; simpl; [done|].
      unfold mret, M_ret. by rewrite alter_id.
    + unfold mret, M_ret. by rewrite alter_id.
Qed.

Lemma forEachM_onSettled_run ncm ps σ :
  forEachM (onSettled ncm) ps σ =
  (inr (), mkState (alter (settledAll ps) ncm (heap σ)) (issued σ)
                   (trace σ ++ concat (map settleEvents ps))).
Proof.
  revert σ. induction ps as [|p ps IH]; intros σ; simpl.
  - unfold settledAll. simpl. rewrite alter_id by done.
    rewrite app_nil_r. by destruct σ.
  - run_M. rewrite onSettled_run. rewrite IH. simpl.
    rewrite alter_alter_eq, <- app_assoc. reflexivity.
Qed.

Lemma Promise_all_run ncm ps σ :
  Promise_all ncm ps σ =
  (inr (map resolvedFeed ps),
   mkState (alter (settledAll (completionOrder ps)) ncm (heap σ)) (issued σ)
           (trace σ ++ concat (map settleEvents (completionOrder ps)))).
Proof. unfold Promise_all. run_M. by rewrite forEachM_onSettled_run. Qed.

Lemma batchPostsOf_run did cm ncm batch σ :
  batchPostsOf did cm ncm batch σ =
  (Array_map_toPost
     (notBy did (concat (map resolvedFeed
                           (pendings (heap σ) cm (issued σ) batch)))),
   afterBatch cm ncm batch σ).
Proof.
  unfold batchPostsOf, afterBatch, batchEvents, notBy. run_M.
  rewrite feedPromises_run. run_M. rewrite Promise_all_run. simpl.
  rewrite <- app_assoc.
  by destruct (Array_map_toPost _).
Qed.

(** *** The loop *)

Lemma batchLoop_runBatches did cm ncm follows n :
  ∀ i allPosts σ, (length follows - i ≤ n)%nat →
    batchLoop did cm ncm follows i allPosts σ =
    runBatches did cm ncm (batchesFrom follows i) allPosts σ.
Proof.
  induction n as [|n IH]; intros i allPosts σ Hn;
    simp batchLoop batchesFrom;
    destruct (decide (i < length follows)%nat) as [Hi|Hi]; simpl;
    try done; try lia.
  rewrite !bind_run. destruct (batchPostsOf _ _ _ _ _) as [[e|batchPosts] σ'];
    [done|].
  apply IH. unfold batchSize. lia.
Qed.

Lemma batchLoop_batches did cm ncm follows allPosts σ :
  batchLoop did cm ncm follows 0 allPosts σ =
  runBatches did cm ncm (batchesFrom follows 0) allPosts σ.
Proof. by apply (batchLoop_runBatches _ _ _ _ (length follows)); lia. Qed.

Lemma lookupMap_alter f ncm h cm k :
  cm ≠ Some ncm → lookupMap (alter f ncm h) cm k = lookupMap h cm k.
Proof.
  intros Hne. destruct cm as [l|]; [|done]. simpl.
  rewrite lookup_alter_ne; [done|congruence].
Qed.

Lemma pendings_frame h h' cm n batch :
  (∀ k, lookupMap h' cm k = lookupMap h cm k) →
  pendings h' cm n batch = pendings h cm n batch.
Proof.
  intros Hh. revert n. induction batch as [|f batch IH]; intros n; simpl;
    [done|]. unfold pendingOf. by rewrite Hh, IH.
Qed.

Lemma pendingBatches_frame h h' cm n bs :
  (∀ k, lookupMap h' cm k = lookupMap h cm k) →
  pendingBatches h' cm n bs = pendingBatches h cm n bs.
Proof.
  intros Hh. revert n. induction bs as [|b bs IH]; intros n; simpl; [done|].
  by rewrite IH, (pendings_frame h h').
Qed.

Lemma settledAll_app ps1 ps2 m :
  settledAll (ps1 ++ ps2) m = settledAll ps2 (settledAll ps1 m).
Proof. unfold settledAll. by rewrite foldl_app. Qed.

Lemma requestsOf_frame cm ncm bs : ∀ σ, cm ≠ Some ncm →
  requestsOf cm ncm bs σ = pendingBatches (heap σ) cm (issued σ) bs.
Proof.
  induction bs as [|b bs IH]; intros σ Hne; simpl; [done|].
  rewrite IH by done. simpl. f_equal.
  apply pendingBatches_frame. intros. by apply lookupMap_alter.
Qed.

Lemma requestsOf_take cm ncm bs : ∀ σ k,
  requestsOf cm ncm (take k bs) σ = take k (requestsOf cm ncm bs σ).
Proof.
  induction bs as [|b bs IH]; intros σ [|k]; simpl; try done.
  by rewrite IH.
Qed.

Lemma afterBatches_state cm ncm bs : ∀ σ,
  afterBatches cm ncm bs σ =
  let pbs := requestsOf cm ncm bs σ in
  mkState (alter (settledAll (concat (map completionOrder pbs))) ncm (heap σ))
          (issued σ + length (concat bs))%nat
          (trace σ ++ concat (map batchEvents pbs)).
Proof.
  induction bs as [|b bs IH]; intros σ; simpl.
  - unfold settledAll; simpl. rewrite alter_id by done.
    rewrite Nat.add_0_r, app_nil_r. by destruct σ.
  - rewrite IH. unfold afterBatch at 1 2 4. simpl.
    rewrite alter_alter_eq, length_app, <- app_assoc. f_equal; [|lia].
    apply alter_ext. intros m _. simpl. by rewrite settledAll_app.
Qed.

Lemma Array_map_toPost_app feed1 feed2 posts1 posts2 :
  Array_map_toPost feed1 = inr posts1 →
  Array_map_toPost feed2 = inr posts2 →
  Array_map_toPost (feed1 ++ feed2) = inr (posts1 ++ posts2).
Proof.
  revert posts1. induction feed1 as [|f feed1 IH]; intros posts1; simpl.
  - by intros [= <-].
  - destruct (toPost f) as [e|p]; [done|].
    destruct (Array_map_toPost feed1) as [e|ps] eqn:E; [done|].
    intros [= <-] H2. by rewrite (IH ps eq_refl H2).
Qed.

Lemma notBy_app did feed1 feed2 :
  notBy did (feed1 ++ feed2) = notBy did feed1 ++ notBy did feed2.
Proof. unfold notBy. by rewrite filter_app. Qed.

(** The walk either goes through every batch and gathers the projected
    entries in order, or stops after the batch whose projection threw. *)
Lemma runBatches_spec did cm ncm bs : ∀ allPosts σ,
  let pbs := requestsOf cm ncm bs σ in
  match runBatches did cm ncm bs allPosts σ with
  | (inr posts, σ') =>
      σ' = afterBatches cm ncm bs σ ∧
      ∃ posts',
        Array_map_toPost
          (notBy did (concat (map resolvedFeed (concat pbs)))) = inr posts' ∧
        posts = allPosts ++ posts'
  | (inl e, σ') =>
      (∃ k, σ' = afterBatches cm ncm (take k bs) σ) ∧
      ∃ pb, pb ∈ pbs ∧
        Array_map_toPost (notBy did (concat (map resolvedFeed pb))) = inl e
  end.
Proof.
  induction bs as [|b bs IH]; intros allPosts σ; simpl.
  - split; [done|]. exists []. by rewrite app_nil_r.
  - rewrite bind_run, batchPostsOf_run.
    destruct (Array_map_toPost _) as [e|batchPosts] eqn:Eb.
    + split; [by exists 1%nat|]. eexists. split; [by left|done].
    + specialize (IH (allPosts ++ batchPosts) (afterBatch cm ncm b σ)).
      simpl in IH.
      destruct (runBatches _ _ _ _ _ _) as [[e|posts] σ'].
      * destruct IH as [[k ->] (pb & Hpb & He)]. split.
        -- by exists (S k).
        -- exists pb. split; [by right|done].
      * destruct IH as [-> (posts' & Hp & ->)]. split; [done|].
        exists (batchPosts ++ posts'). split; [|by rewrite app_assoc].
        rewrite map_app, concat_app, notBy_app.
        by apply Array_map_toPost_app.
Qed.

(** *** The batches *)

Lemma batchesFrom_step {A} (follows : list A) i :
  batchesFrom follows i =
  if decide (i < length follows)%nat
  then Array_slice i (i + batchSize) follows
       :: batchesFrom follows (i + batchSize)%nat
  else [].
Proof.
  simp batchesFrom.
  destruct (decide (i < length follows)%nat); simpl; [|done].
  f_equal. by simp batchesFrom.
Qed.

Lemma batchesFrom_concat {A} (follows : list A) n :
  ∀ i, (length follows - i ≤ n)%nat →
    concat (batchesFrom follows i) = drop i follows.
Proof.
  induction n as [|n IH]; intros i Hn; rewrite batchesFrom_step;
    destruct (decide _) as [Hi|Hi]; simpl; try lia;
    try (by rewrite drop_ge by lia).
  rewrite IH by (unfold batchSize; lia). unfold Array_slice.
  replace (i + batchSize - i)%nat with batchSize by lia.
  rewrite <- drop_drop. apply take_drop.
Qed.

Lemma batchesFrom_partition {A} (follows : list A) :
  concat (batchesFrom follows 0) = follows.
Proof. by rewrite (batchesFrom_concat follows (length follows)) by lia. Qed.

Lemma batchesFrom_lookup {A} (follows : list A) n :
  ∀ i k, (length follows - i ≤ n)%nat →
    batchesFrom follows i !! k =
    if decide (i + batchSize * k < length follows)%nat
    then Some (Array_slice (i + batchSize * k) (i + batchSize * k + batchSize)
                           follows)
    else None.
Proof.
  induction n as [|n IH]; intros i k Hn; rewrite batchesFrom_step;
    destruct (decide (i < _)%nat) as [Hi|Hi]; try lia;
    try (by rewrite decide_False by lia).
  destruct k as [|k].
  - replace (i + batchSize * 0)%nat with i by lia.
    by rewrite decide_True by done.
  - replace (i + batchSize * S k)%nat
      with (i + batchSize + batchSize * k)%nat by lia.
    rewrite <- IH by (unfold batchSize; lia). done.
Qed.

(** *** getMergedTimeline, step by step *)

Lemma getMergedTimeline_run handle cm σ :
  getMergedTimeline handle cm σ =
  match resolveHandle handle σ with
  | (inl e, σ1) => (inl e, σ1)
  | (inr did, σ1) =>
      match getFollows_response agent (issued σ1) did 30 with
      | inl e =>
          (inl e,
           mkState (heap σ1) (S (issued σ1))
             (trace σ1 ++ [Request (issued σ1) (GetFollows did 30);
                           Settled (issued σ1)]))
      | inr res =>
          let ncm := fresh (dom (heap σ1)) in
          match runBatches did cm ncm (batchesFrom (keptFollows res) 0) []
                           (loopStart did σ1) with
          | (inl e, σ') => (inl e, σ')
          | (inr allPosts, σ') =>
              (inr (TimelineResult.mk (Array_sort comparefn allPosts) ncm), σ')
          end
      end
  end.
Proof.
  unfold getMergedTimeline. rewrite bind_run.
  destruct (resolveHandle handle σ) as [[e|did] σ1]; [done|].
  rewrite bind_run, agent_getFollows_run.
  destruct (getFollows_response _ _ _ _) as [e|res]; [done|].
  run_M. rewrite batchLoop_batches. unfold loopStart, keptFollows.
  by destruct (runBatches _ _ _ _ _ _) as [[e|allPosts] σ'].
Qed.

(** *** Sorting and completion order *)

Lemma sort_insert_Permutation {A} (cmp : A → A → option Z) x l :
  sort_insert cmp x l ≡ₚ x :: l.
Proof.
  induction l as [|y l IH]; simpl; [done|].
  destruct (0 <? SortCompare cmp x y); [|done].
  rewrite IH. apply perm_swap.
Qed.

Lemma Array_sort_Permutation {A} (cmp : A → A → option Z) l :
  Array_sort cmp l ≡ₚ l.
Proof.
  induction l as [|x l IH]; simpl; [done|].
  by rewrite sort_insert_Permutation, IH.
Qed.

Lemma newestFirst_trans p q r :
  newestFirst p q → newestFirst q r → newestFirst p r.
Proof.
  intros (tp & tq & Hp & Hq & Hpq) (tq' & tr & Hq' & Hr & Hqr).
  exists tp, tr. repeat split; try done.
  rewrite Hq in Hq'. injection Hq' as <-. lia.
Qed.

Lemma sort_insert_sorted x l :
  hasDate x → Forall hasDate l →
  StronglySorted newestFirst l →
  StronglySorted newestFirst (sort_insert comparefn x l).
Proof.
  intros [tx Hx] Hl Hs. induction Hs as [|y l Hs IH Hy]; simpl.
  - repeat constructor.
  - apply Forall_cons in Hl as [[ty Hty] Hl].
    unfold SortCompare, comparefn. rewrite Hx, Hty.
    destruct (0 <? ty - tx) eqn:Hc.
    + apply Z.ltb_lt in Hc. constructor; [by apply IH|].
      rewrite sort_insert_Permutation. constructor; [|done].
      exists ty, tx. repeat split; try done. lia.
    + apply Z.ltb_ge in Hc.
      assert (newestFirst x y) as Hxy.
      { exists tx, ty. repeat split; try done. lia. }
      constructor; [by constructor|]. constructor; [done|].
      eapply Forall_impl; [exact Hy|]. intros z Hz.
      by apply newestFirst_trans with y.
Qed.

Lemma Array_sort_sorted l :
  Forall hasDate l → StronglySorted newestFirst (Array_sort comparefn l).
Proof.
  induction l as [|x l IH]; simpl; intros Hl; [constructor|].
  apply Forall_cons in Hl as [Hx Hl].
  apply sort_insert_sorted; [done| |by apply IH].
  by rewrite Array_sort_Permutation.
Qed.

Lemma settleAfter_Permutation p queue : settleAfter p queue ≡ₚ p :: queue.
Proof.
  induction queue as [|q queue IH]; simpl; [done|].
  destruct (_ <? _)%nat; [|done]. rewrite IH. apply perm_swap.
Qed.

Lemma completionOrder_Permutation ps : completionOrder ps ≡ₚ ps.
Proof.
  induction ps as [|p ps IH]; simpl; [done|].
  by rewrite settleAfter_Permutation, IH.
Qed.

Lemma concat_completionOrder_Permutation pbs :
  concat (map completionOrder pbs) ≡ₚ concat pbs.
Proof.
  induction pbs as [|pb pbs IH]; simpl; [done|].
  by rewrite completionOrder_Permutation, IH.
Qed.

(** *** What ends up in the new cursor map *)

Lemma settledAll_lookup ps : ∀ m d c,
  settledAll ps m !! d = Some c →
  m !! d = Some c ∨
  ∃ p, p ∈ ps ∧ ProfileView.did (p_profile p) = d ∧ tokenOf p = Some c.
Proof.
  induction ps as [|p ps IH]; intros m d c; simpl; [by left|].
  intros H. apply IH in H as [H|(q & Hq & Hd & Ht)].
  - unfold settledMap in H. destruct (tokenOf p) as [c'|] eqn:Ht; [|by left].
    destruct (decide (ProfileView.did (p_profile p) = d)) as [<-|Hne].
    + rewrite lookup_insert_eq in H. injection H as ->.
      right. exists p. split; [by left|done].
    + rewrite lookup_insert_ne in H by done. by left.
  - right. exists q. split; [by right|done].
Qed.

Lemma settledMap_is_Some p m d :
  is_Some (m !! d) → is_Some (settledMap p m !! d).
Proof.
  unfold settledMap. destruct (tokenOf p); [|done]. intros H.
  destruct (decide (ProfileView.did (p_profile p) = d)) as [<-|Hne].
  - by rewrite lookup_insert_eq.
  - by rewrite lookup_insert_ne.
Qed.

Lemma settledAll_is_Some ps : ∀ m d,
  is_Some (m !! d) ∨
  (∃ p, p ∈ ps ∧ ProfileView.did (p_profile p) = d ∧ is_Some (tokenOf p)) →
  is_Some (settledAll ps m !! d).
Proof.
  induction ps as [|p ps IH]; intros m d; simpl.
  - intros [H|(p & Hp & _)]; [done|]. by apply elem_of_nil in Hp.
  - intros [H|(q & Hq & Hd & Ht)]; apply IH.
    + left. by apply settledMap_is_Some.
    + apply elem_of_cons in Hq as [->|Hq].
      * left. unfold settledMap. destruct Ht as [c ->]. rewrite Hd.
        by rewrite lookup_insert_eq.
      * right. by exists q.
Qed.

(** *** Requests of the batches as slices of the requests of the follows *)

Lemma pendings_take h cm n k follows :
  pendings h cm n (take k follows) = take k (pendings h cm n follows).
Proof.
  revert n k. induction follows as [|f follows IH]; intros n [|k]; simpl;
    try done. by rewrite IH.
Qed.

Lemma pendings_drop h cm n k follows :
  pendings h cm (n + k) (drop k follows) = drop k (pendings h cm n follows).
Proof.
  revert n k. induction follows as [|f follows IH]; intros n [|k]; simpl;
    try done.
  - by rewrite Nat.add_0_r.
  - rewrite <- IH. f_equal. lia.
Qed.

Lemma pendings_slice h cm n i j follows :
  pendings h cm (n + i) (Array_slice i j follows) =
  Array_slice i j (pendings h cm n follows).
Proof. unfold Array_slice. by rewrite pendings_take, pendings_drop. Qed.

Lemma pendingBatches_batchesFrom h cm n follows m :
  ∀ i, (length follows - i ≤ m)%nat →
    pendingBatches h cm (n + i) (batchesFrom follows i) =
    batchesFrom (pendings h cm n follows) i.
Proof.
  induction m as [|m IH]; intros i Hm;
    rewrite (batchesFrom_step follows), (batchesFrom_step (pendings _ _ _ _));
    rewrite pendings_length;
    destruct (decide (i < length follows)%nat) as [Hi|Hi]; try done; try lia.
  simpl. rewrite pendings_slice. f_equal.
  destruct (decide (i + batchSize < length follows)%nat) as [Hj|Hj].
  - replace (n + i + length (Array_slice i (i + batchSize) follows))%nat
      with (n + (i + batchSize))%nat.
    + apply IH. unfold batchSize. lia.
    + unfold Array_slice. rewrite length_take, length_drop. lia.
  - rewrite (batchesFrom_step follows), (batchesFrom_step (pendings _ _ _ _)).
    rewrite pendings_length. by rewrite !decide_False by lia.
Qed.

Lemma fresh_not_cursorMap σ cm :
  cursorMapIn σ cm → cm ≠ Some (fresh (dom (heap σ))).
Proof.
  intros Hin Heq. apply Hin in Heq. apply elem_of_dom in Heq.
  by apply is_fresh in Heq.
Qed.

Lemma lookupMap_insert_fresh σ cm k :
  cursorMapIn σ cm →
  lookupMap (<[fresh (dom (heap σ)) := ∅]> (heap σ)) cm k =
  lookupMap (heap σ) cm k.
Proof.
  intros Hin. destruct cm as [l|]; [|done]. simpl.
  rewrite lookup_insert_ne; [done|].
  intros Heq. by apply (fresh_not_cursorMap σ (Some l)); [|rewrite Heq].
Qed.

(** The requests of the run, batch by batch, are the slices of the
    requests made for the kept follows, numbered from [S (issued σ1)]. *)
Lemma requestsOf_loopStart did cm σ σ1 follows :
  cursorMapIn σ cm → heap σ1 = heap σ →
  requestsOf cm (fresh (dom (heap σ1))) (batchesFrom follows 0)
             (loopStart did σ1) =
  batchesFrom (pendings (heap σ) cm (S (issued σ1)) follows) 0.
Proof.
  intros Hin Hh. rewrite Hh.
  rewrite requestsOf_frame by by apply fresh_not_cursorMap.
  unfold loopStart. simpl. rewrite Hh.
  rewrite (pendingBatches_frame (heap σ))
    by (intros; by apply lookupMap_insert_fresh).
  rewrite <- (Nat.add_0_r (S (issued σ1))) at 1.
  by apply (pendingBatches_batchesFrom _ _ _ _ (length follows)); lia.
Qed.

(** *** Every outcome of getMergedTimeline

    Once the handle is resolved and the follows are in, the call went
    through the first [k] batches of requests; it resolves when it went
    through all of them and every entry could be projected, and rejects
    when the projection of a batch threw. *)
Lemma getMergedTimeline_cases handle cm σ :
  cursorMapIn σ cm →
  match resolveHandle handle σ with
  | (inl e, σ1) => getMergedTimeline handle cm σ = (inl e, σ1)
  | (inr did, σ1) =>
      match getFollows_response agent (issued σ1) did 30 with
      | inl e =>
          getMergedTimeline handle cm σ =
          (inl e, mkState (heap σ) (S (issued σ1))
                          (trace σ1 ++ followsEvents did σ1))
      | inr res =>
          let ncm := fresh (dom (heap σ)) in
          let ps := pendings (heap σ) cm (S (issued σ1)) (keptFollows res) in
          let pbs := batchesFrom ps 0 in
          ∃ k out σ',
            getMergedTimeline handle cm σ = (out, σ') ∧
            heap σ' =
              <[ncm := settledAll (concat (map completionOrder (take k pbs))) ∅]>
                (heap σ) ∧
            trace σ' =
              trace σ1 ++ followsEvents did σ1 ++
              concat (map batchEvents (take k pbs)) ∧
            match out with
            | inr r =>
                take k pbs = pbs ∧
                TimelineResult.cursorMap r = ncm ∧
                ∃ allPosts,
                  Array_map_toPost
                    (notBy did (concat (map resolvedFeed ps))) = inr allPosts ∧
                  TimelineResult.posts r = Array_sort comparefn allPosts
            | inl e =>
                ∃ pb, pb ∈ pbs ∧
                  Array_map_toPost
                    (notBy did (concat (map resolvedFeed pb))) = inl e
            end
      end
  end.
Proof.
  intros Hin. rewrite getMergedTimeline_run.
  pose proof (resolveHandle_heap handle σ) as Hh.
  destruct (resolveHandle handle σ) as [[e|did] σ1]; [done|]. simpl in Hh.
  destruct (getFollows_response _ _ _ _) as [e|res]; [by rewrite Hh|].
  cbv zeta.
  pose proof (runBatches_spec did cm (fresh (dom (heap σ1)))
                (batchesFrom (keptFollows res) 0) [] (loopStart did σ1)) as Hrun.
  cbv zeta in Hrun. rewrite (requestsOf_loopStart did cm σ) in Hrun by done.
  set (ps := pendings (heap σ) cm (S (issued σ1)) (keptFollows res)) in *.
  assert (concat (batchesFrom ps 0) = ps) as Hcat.
  { by rewrite (batchesFrom_concat ps (length ps)) by lia. }
  destruct (runBatches _ _ _ _ _ _) as [[e|allPosts] σ'].
  - destruct Hrun as [[k ->] (pb & Hpb & He)].
    exists k, (inl e), (afterBatches cm (fresh (dom (heap σ1)))
                          (take k (batchesFrom (keptFollows res) 0))
                          (loopStart did σ1)).
    rewrite afterBatches_state. cbv zeta.
    rewrite requestsOf_take, (requestsOf_loopStart did cm σ) by done.
    fold ps. simpl. rewrite Hh, alter_insert_eq, <- app_assoc.
    repeat split; try done. by exists pb.
  - destruct Hrun as [-> (posts' & Hp & ->)]. rewrite Hcat in Hp.
    exists (length (batchesFrom ps 0)), (inr (TimelineResult.mk
             (Array_sort comparefn ([] ++ posts')) (fresh (dom (heap σ1))))).
    eexists. split; [reflexivity|].
    rewrite afterBatches_state. cbv zeta.
    rewrite (requestsOf_loopStart did cm σ) by done. fold ps.
    rewrite firstn_all. simpl. rewrite Hh, alter_insert_eq, <- app_assoc.
    repeat split; try done. by exists posts'.
Qed.

(** *** Requests and the entries they bring *)

Lemma elem_of_concat {A} (x : A) (ls : list (list A)) :
  x ∈ concat ls ↔ ∃ l, l ∈ ls ∧ x ∈ l.
Proof.
  induction ls as [|l ls IH]; simpl.
  - split; [by intros ?%elem_of_nil|]. by intros (l & ?%elem_of_nil & _).
  - rewrite elem_of_app, IH. split.
    + intros [H|(l' & ? & ?)]; [exists l|exists l']; split; try done;
        [by left|by right].
    + intros (l' & [->|?]%elem_of_cons & ?); [by left|right; by exists l'].
Qed.

Lemma elem_of_map {A B} (f : A → B) (l : list A) (y : B) :
  y ∈ map f l ↔ ∃ x, y = f x ∧ x ∈ l.
Proof.
  induction l as [|a l IH]; simpl.
  - split; [by intros ?%elem_of_nil|]. by intros (x & _ & ?%elem_of_nil).
  - rewrite elem_of_cons, IH. split.
    + intros [->|(x & ? & ?)]; [exists a|exists x]; split; try done;
        [by left|by right].
    + intros (x & -> & [->|?]%elem_of_cons); [by left|right; by exists x].
Qed.

Lemma elem_of_pendings h cm n follows p :
  p ∈ pendings h cm n follows →
  p_profile p ∈ follows ∧
  p_cursor p = lookupMap h cm (ProfileView.did (p_profile p)) ∧
  p_response p =
    getAuthorFeed_response agent (p_request p)
      (ProfileView.did (p_profile p)) 10 (p_cursor p).
Proof.
  revert n. induction follows as [|f follows IH]; intros n; simpl.
  - by intros ?%elem_of_nil.
  - intros [->|Hp]%elem_of_cons.
    + split; [by left|done].
    + apply IH in Hp as (? & ? & ?). split; [by right|done].
Qed.

Lemma pendings_profiles h cm n follows :
  map p_profile (pendings h cm n follows) = follows.
Proof. revert n. induction follows; intros; simpl; [done|]. by f_equal. Qed.

Lemma elem_of_resolvedFeed p f :
  f ∈ resolvedFeed p →
  ∃ page, p_response p = inr page ∧ f ∈ FeedPage.feed page.
Proof.
  unfold resolvedFeed. destruct (p_response p) as [e|page].
  - by intros ?%elem_of_nil.
  - intros. by exists page.
Qed.

Lemma elem_of_requestsOf cm ncm bs : ∀ σ pb p,
  pb ∈ requestsOf cm ncm bs σ → p ∈ pb →
  p_response p =
    getAuthorFeed_response agent (p_request p)
      (ProfileView.did (p_profile p)) 10 (p_cursor p).
Proof.
  induction bs as [|b bs IH]; intros σ pb p; simpl.
  - by intros ?%elem_of_nil.
  - intros [->|Hpb]%elem_of_cons Hp.
    + by apply elem_of_pendings in Hp as (_ & _ & ?).
    + by eapply IH.
Qed.

Lemma answered_requestsOf cm ncm bs σ f :
  f ∈ concat (map resolvedFeed (concat (requestsOf cm ncm bs σ))) →
  answered f.
Proof.
  intros (feed & (p & -> & Hp)%elem_of_map & Hf)%elem_of_concat.
  apply elem_of_concat in Hp as (pb & Hpb & Hp).
  apply elem_of_resolvedFeed in Hf as (page & Hpage & Hf).
  exists (p_request p), (ProfileView.did (p_profile p)), (p_cursor p), page.
  split; [|done]. by rewrite <- (elem_of_requestsOf _ _ _ _ _ _ Hpb Hp).
Qed.

Lemma Array_map_toPost_Forall2 feed posts :
  Array_map_toPost feed = inr posts →
  Forall2 (λ f p, toPost f = inr p) feed posts.
Proof.
  revert posts. induction feed as [|f feed IH]; intros posts; simpl.
  - intros [= <-]. constructor.
  - destruct (toPost f) as [e|p] eqn:Ef; [done|].
    destruct (Array_map_toPost feed) as [e|ps]; [done|].
    intros [= <-]. constructor; [done|]. by apply IH.
Qed.

Lemma Array_map_toPost_elem feed posts p :
  Array_map_toPost feed = inr posts → p ∈ posts →
  ∃ f, f ∈ feed ∧ toPost f = inr p.
Proof.
  intros H%Array_map_toPost_Forall2 Hp.
  induction H as [|f q feed posts Hfq H IH].
  - by apply elem_of_nil in Hp.
  - apply elem_of_cons in Hp as [->|Hp].
    + exists f. split; [by left|done].
    + destruct (IH Hp) as (g & Hg & Hgp). exists g. split; [by right|done].
Qed.

Lemma Array_map_toPost_kept feed posts f :
  Array_map_toPost feed = inr posts → f ∈ feed →
  ∃ p, toPost f = inr p ∧ p ∈ posts.
Proof.
  intros H%Array_map_toPost_Forall2 Hf.
  induction H as [|g q feed posts Hgq H IH].
  - by apply elem_of_nil in Hf.
  - apply elem_of_cons in Hf as [->|Hf].
    + exists q. split; [done|by left].
    + destruct (IH Hf) as (p & Hp & Hin). exists p. split; [done|by right].
Qed.

Lemma Array_map_toPost_projectable feed :
  Forall projectable feed → ∃ posts, Array_map_toPost feed = inr posts.
Proof.
  induction 1 as [|f feed Hf _ [posts IH]]; simpl; [by eexists|].
  rewrite IH. unfold toPost, repostedByOf. unfold projectable in Hf.
  destruct (isRepost (FeedViewPost.reason f)); [|by eexists].
  destruct Hf as [by_ ->]; [done|]. by eexists.
Qed.

Lemma toPost_author f p :
  toPost f = inr p →
  Author.did (Post.author p) =
  Actor.did (PostView.author (FeedViewPost.post f)).
Proof.
  unfold toPost. destruct (repostedByOf _); [done|]. by intros [= <-].
Qed.

Lemma toPost_repostedBy f p :
  toPost f = inr p →
  if isRepost (FeedViewPost.reason f)
  then ∃ by_, FeedViewPost.reason f ≫= Reason.by_ = Some by_ ∧
              Post.repostedBy p =
                Some (RepostedBy.mk (Actor.did by_) (Actor.handle by_)
                                    (Actor.displayName by_))
  else Post.repostedBy p = None.
Proof.
  unfold toPost, repostedByOf.
  destruct (isRepost (FeedViewPost.reason f)).
  - destruct (FeedViewPost.reason f ≫= Reason.by_) as [by_|]; [|done].
    intros [= <-]. by exists by_.
  - by intros [= <-].
Qed.

Lemma elem_of_notBy did feed f :
  f ∈ notBy did feed ↔
  f ∈ feed ∧ Actor.did (PostView.author (FeedViewPost.post f)) ≠ did.
Proof. unfold notBy. rewrite list_elem_of_filter. tauto. Qed.

(** What a resolved call returns, without assuming anything of the
    caller's cursor map. *)
Lemma getMergedTimeline_posts handle cm σ r σ' :
  getMergedTimeline handle cm σ = (inr r, σ') →
  ∃ did σ1 feed allPosts,
    resolveHandle handle σ = (inr did, σ1) ∧
    Forall answered feed ∧
    Array_map_toPost (notBy did feed) = inr allPosts ∧
    TimelineResult.posts r = Array_sort comparefn allPosts.
Proof.
  rewrite getMergedTimeline_run.
  destruct (resolveHandle handle σ) as [[e|did] σ1]; [done|].
  destruct (getFollows_response _ _ _ _) as [e|res]; [done|]. cbv zeta.
  pose proof (runBatches_spec did cm (fresh (dom (heap σ1)))
                (batchesFrom (keptFollows res) 0) [] (loopStart did σ1)) as Hrun.
  cbv zeta in Hrun.
  destruct (runBatches _ _ _ _ _ _) as [[e|allPosts] σ2]; [done|].
  intros [= <- <-]. destruct Hrun as [_ (posts' & Hp & ->)].
  eexists did, σ1, _, posts'. split; [done|]. split; [|by split].
  apply Forall_forall. intros f Hf. by eapply answered_requestsOf.
Qed.

(** *** The trace of a call *)

Lemma resolveHandle_trace handle σ :
  ∃ evs, trace (resolveHandle handle σ).2 = trace σ ++ evs ∧
         feedRequests evs = [].
Proof.
  rewrite resolveHandle_run. destruct (String.prefix _ _); simpl.
  - exists []. by rewrite app_nil_r.
  - by eexists.
Qed.

Lemma feedRequests_app evs1 evs2 :
  feedRequests (evs1 ++ evs2) = feedRequests evs1 ++ feedRequests evs2.
Proof. apply omap_app. Qed.

Lemma feedRequests_settleEvents ps :
  feedRequests (concat (map settleEvents ps)) = [].
Proof.
  induction ps as [|p ps IH]; simpl; [done|].
  rewrite feedRequests_app, IH, app_nil_r. unfold settleEvents.
  by destruct (p_response p).
Qed.

Lemma feedRequests_pendings h cm n follows :
  feedRequests (map requestEvent (pendings h cm n follows)) =
  map (feedCall h cm) follows.
Proof.
  revert n. induction follows as [|f follows IH]; intros n; [done|].
  simpl. unfold feedRequests in *. simpl. by rewrite IH.
Qed.

Lemma feedRequests_batchEvents pbs :
  feedRequests (concat (map batchEvents pbs)) =
  feedRequests (map requestEvent (concat pbs)).
Proof.
  induction pbs as [|pb pbs IH]; simpl; [done|].
  unfold batchEvents at 1.
  rewrite map_app, !feedRequests_app, feedRequests_settleEvents, IH.
  by rewrite app_nil_r.
Qed.

Lemma elem_of_feedRequests evs n actor limit cursor :
  Request n (GetAuthorFeed actor limit cursor) ∈ evs →
  GetAuthorFeed actor limit cursor ∈ feedRequests evs.
Proof.
  intros H. unfold feedRequests. apply list_elem_of_omap.
  by exists (Request n (GetAuthorFeed actor limit cursor)).
Qed.

Lemma take_batchesFrom_prefix {A} (ps : list A) k :
  ∃ rest, ps = concat (take k (batchesFrom ps 0)) ++ rest.
Proof.
  exists (concat (drop k (batchesFrom ps 0))).
  rewrite <- concat_app, take_drop.
  by rewrite (batchesFrom_concat ps (length ps)) by lia.
Qed.

(** The feed requests of a call, whatever its outcome: they are made for
    kept follows, in their order, each with the cursor the caller's map
    holds for that follow; a resolved call made all of them. *)
Lemma getMergedTimeline_requests handle cm σ :
  cursorMapIn σ cm →
  ∃ evs,
    trace (getMergedTimeline handle cm σ).2 = trace σ ++ evs ∧
    ((feedRequests evs = [] ∧ ∃ e, (getMergedTimeline handle cm σ).1 = inl e) ∨
     ∃ did σ1 res,
       resolveHandle handle σ = (inr did, σ1) ∧
       getFollows_response agent (issued σ1) did 30 = inr res ∧
       ∃ later,
         map (feedCall (heap σ) cm) (keptFollows res) =
           feedRequests evs ++ later ∧
         (∀ r, (getMergedTimeline handle cm σ).1 = inr r → later = [])).
Proof.
  intros Hin. pose proof (getMergedTimeline_cases handle cm σ Hin) as H.
  destruct (resolveHandle_trace handle σ) as (evs1 & Htr1 & Hfr1).
  destruct (resolveHandle handle σ) as [[e|did] σ1] eqn:Hres; simpl in Htr1.
  { rewrite H. exists evs1. split; [done|]. left. split; [done|by exists e]. }
  destruct (getFollows_response _ _ _ _) as [e|res] eqn:Hfol.
  { rewrite H. simpl. exists (evs1 ++ followsEvents did σ1).
    rewrite Htr1, <- app_assoc. split; [done|]. left.
    split; [by rewrite feedRequests_app, Hfr1|by exists e]. }
  cbv zeta in H. destruct H as (k & out & σ' & -> & _ & Htr & Hout).
  set (ps := pendings (heap σ) cm (S (issued σ1)) (keptFollows res)) in *.
  exists (evs1 ++ followsEvents did σ1 ++
          concat (map batchEvents (take k (batchesFrom ps 0)))).
  cbn [snd fst]. rewrite Htr, Htr1, <- !app_assoc. split; [done|]. right.
  exists did, σ1, res. split; [done|]. split; [done|].
  rewrite !feedRequests_app, Hfr1, feedRequests_batchEvents.
  change (feedRequests (followsEvents did σ1)) with (@nil call).
  cbn [app].
  destruct (take_batchesFrom_prefix ps k) as [rest Hrest].
  exists (feedRequests (map requestEvent rest)). split.
  - rewrite <- feedRequests_app, <- map_app, <- Hrest.
    symmetry. apply feedRequests_pendings.
  - intros r' Hok. destruct out as [e|r]; [done|].
    destruct Hout as (Hall & _). rewrite Hall in Hrest.
    rewrite (batchesFrom_concat ps (length ps)) in Hrest by lia.
    rewrite <- (app_nil_r ps) in Hrest at 1.
    apply app_inv_head in Hrest. by rewrite <- Hrest.
Qed.

(** *** A resolved call *)

Lemma getMergedTimeline_resolved handle cm σ r σ' :
  cursorMapIn σ cm →
  getMergedTimeline handle cm σ = (inr r, σ') →
  ∃ did σ1 res allPosts,
    resolveHandle handle σ = (inr did, σ1) ∧
    getFollows_response agent (issued σ1) did 30 = inr res ∧
    let ps := pendings (heap σ) cm (S (issued σ1)) (keptFollows res) in
    let pbs := batchesFrom ps 0 in
    TimelineResult.cursorMap r = fresh (dom (heap σ)) ∧
    heap σ' =
      <[TimelineResult.cursorMap r :=
          settledAll (concat (map completionOrder pbs)) ∅]> (heap σ) ∧
    trace σ' =
      trace σ1 ++ followsEvents did σ1 ++ concat (map batchEvents pbs) ∧
    Array_map_toPost (notBy did (concat (map resolvedFeed ps))) = inr allPosts ∧
    TimelineResult.posts r = Array_sort comparefn allPosts.
Proof.
  intros Hin Hrun. pose proof (getMergedTimeline_cases handle cm σ Hin) as H.
  destruct (resolveHandle handle σ) as [[e|did] σ1]; [congruence|].
  destruct (getFollows_response _ _ _ _) as [e|res] eqn:Hfol; [congruence|].
  cbv zeta in H. destruct H as (k & out & σ2 & Hrun' & Hheap & Htr & Hout).
  rewrite Hrun in Hrun'. injection Hrun' as <- <-.
  destruct Hout as (Hall & Hncm & allPosts & Hposts & Hsorted).
  rewrite Hall in Hheap, Htr. exists did, σ1, res, allPosts.
  cbv zeta. by rewrite Hncm.
Qed.

Lemma tokenOf_spec p c : tokenOf p = Some c ↔ returnedToken p c.
Proof.
  unfold tokenOf, returnedToken, truthy.
  destruct (p_response p) as [e|page].
  - split; [done|]. by intros (page & [=] & _).
  - destruct (FeedPage.cursor page) as [c'|] eqn:Hc.
    + destruct (String.eqb_spec c' "") as [->|Hne]; simpl.
      * split; [done|]. intros (page' & [= <-] & Hc' & Hne). congruence.
      * split.
        -- intros [= ->]. by exists page.
        -- intros (page' & [= <-] & Hc' & _). congruence.
    + split; [done|]. intros (page' & [= <-] & Hc' & _). congruence.
Qed.

Lemma resolvedFeed_succeeded ps :
  concat (map resolvedFeed ps) = concat (map FeedPage.feed (succeeded ps)).
Proof.
  induction ps as [|p ps IH]; [done|]. unfold succeeded in *. simpl.
  unfold resolvedFeed at 1. destruct (p_response p); simpl; by rewrite IH.
Qed.

Lemma elem_of_batchesFrom {A} (l : list A) b x :
  b ∈ batchesFrom l 0 → x ∈ b → x ∈ l.
Proof.
  intros Hb Hx. rewrite <- (batchesFrom_partition l).
  apply elem_of_concat. by exists b.
Qed.

(** The new cursor map of a resolved call holds, under an identifier, a
    token that a request for that identifier returned; and it holds one
    as soon as some request for it returned one. *)
Lemma settled_cursorMap_lookup ps d c :
  settledAll (concat (map completionOrder (batchesFrom ps 0))) ∅ !! d = Some c →
  ∃ p, p ∈ ps ∧ ProfileView.did (p_profile p) = d ∧ returnedToken p c.
Proof.
  intros [H|(p & Hp & Hd & Ht)]%settledAll_lookup; [done|].
  exists p. rewrite concat_completionOrder_Permutation in Hp.
  rewrite batchesFrom_partition in Hp.
  split; [done|]. split; [done|]. by apply tokenOf_spec.
Qed.

Lemma settled_cursorMap_is_Some ps d p c :
  p ∈ ps → ProfileView.did (p_profile p) = d → returnedToken p c →
  is_Some (settledAll (concat (map completionOrder (batchesFrom ps 0))) ∅ !! d).
Proof.
  intros Hp Hd Ht. apply settledAll_is_Some. right. exists p.
  rewrite concat_completionOrder_Permutation, batchesFrom_partition.
  split; [done|]. split; [done|]. exists c. by apply tokenOf_spec.
Qed.

(** Once the handle is resolved and the follows are in, only the
    projection of an entry can make the call reject. *)
Lemma getMergedTimeline_total handle cm σ did σ1 res :
  cursorMapIn σ cm →
  resolveHandle handle σ = (inr did, σ1) →
  getFollows_response agent (issued σ1) did 30 = inr res →
  Forall projectable
    (concat (map resolvedFeed
               (pendings (heap σ) cm (S (issued σ1)) (keptFollows res)))) →
  ∃ r σ', getMergedTimeline handle cm σ = (inr r, σ').
Proof.
  intros Hin Hres Hfol Hproj.
  pose proof (getMergedTimeline_cases handle cm σ Hin) as H.
  rewrite Hres, Hfol in H. cbv zeta in H.
  destruct H as (k & [e|r] & σ' & Hrun & _ & _ & Hout); [|by exists r, σ'].
  destruct Hout as (pb & Hpb & He).
  destruct (Array_map_toPost_projectable
              (notBy did (concat (map resolvedFeed pb)))) as [posts Hposts];
    [|congruence].
  apply Forall_forall. intros f [Hf _]%elem_of_notBy.
  apply (proj1 (Forall_forall _ _) Hproj).
  apply elem_of_concat in Hf as (feed & (q & -> & Hq)%elem_of_map & Hf).
  apply elem_of_concat. exists (resolvedFeed q). split; [|done].
  apply elem_of_map. exists q. split; [done|].
  by apply (elem_of_batchesFrom _ pb).
Qed.

Lemma succeeded_nil ps :
  Forall (λ p, ∃ e, p_response p = inl e) ps → succeeded ps = [].
Proof.
  induction 1 as [|p ps [e He] _ IH]; [done|].
  unfold succeeded in *. simpl. by rewrite He.
Qed.

(** *** Batches, again *)

Lemma Array_slice_map {A B} (f : A → B) i j (l : list A) :
  Array_slice i j (map f l) = map f (Array_slice i j l).
Proof. unfold Array_slice. by rewrite skipn_map, firstn_map. Qed.

Lemma batchesFrom_map {A B} (f : A → B) (l : list A) n :
  ∀ i, (length l - i ≤ n)%nat →
    batchesFrom (map f l) i = map (map f) (batchesFrom l i).
Proof.
  induction n as [|n IH]; intros i Hn;
    rewrite (batchesFrom_step l), (batchesFrom_step (map f l));
    rewrite length_map;
    destruct (decide (i < length l)%nat) as [Hi|Hi]; try done; try lia.
  simpl. rewrite Array_slice_map. f_equal. apply IH. unfold batchSize. lia.
Qed.

Lemma batchesFrom_profiles h cm n follows :
  map (map p_profile) (batchesFrom (pendings h cm n follows) 0) =
  batchesFrom follows 0.
Proof.
  rewrite <- (batchesFrom_map _ _ (length (pendings h cm n follows))) by lia.
  by rewrite pendings_profiles.
Qed.

Lemma batchesFrom_sizes {A B} (l : list A) (l' : list B) n :
  length l = length l' →
  ∀ i, (length l - i ≤ n)%nat →
    map length (batchesFrom l i) = map length (batchesFrom l' i).
Proof.
  intros Hlen. induction n as [|n IH]; intros i Hn;
    rewrite (batchesFrom_step l), (batchesFrom_step l'), <- Hlen;
    destruct (decide (i < length l)%nat) as [Hi|Hi]; try done; try lia.
  simpl. rewrite IH by (unfold batchSize; lia). f_equal.
  unfold Array_slice, batchSize. rewrite !length_take, !length_drop. lia.
Qed.

Lemma batchesFrom_length_le {A} (l : list A) b :
  b ∈ batchesFrom l 0 → (1 ≤ length b ≤ batchSize)%nat.
Proof.
  intros (k & Hk)%list_elem_of_lookup.
  rewrite (batchesFrom_lookup l (length l)) in Hk by lia.
  destruct (decide _) as [Hlt|]; [|done]. injection Hk as <-.
  unfold Array_slice, batchSize in *. rewrite length_take, length_drop. lia.
Qed.

Lemma Array_map_toPost_app_inv feed1 feed2 posts :
  Array_map_toPost (feed1 ++ feed2) = inr posts →
  ∃ posts1 posts2,
    Array_map_toPost feed1 = inr posts1 ∧
    Array_map_toPost feed2 = inr posts2 ∧ posts = posts1 ++ posts2.
Proof.
  revert posts. induction feed1 as [|f feed1 IH]; intros posts; simpl.
  - intros H. by exists [], posts.
  - destruct (toPost f) as [e|p]; [done|].
    destruct (Array_map_toPost (feed1 ++ feed2)) as [e|ps] eqn:E; [done|].
    intros [= <-]. destruct (IH ps eq_refl) as (ps1 & ps2 & -> & H2 & ->).
    by exists (p :: ps1), ps2.
Qed.

Lemma Array_map_toPost_batches did (pbs : list (list Pending)) posts :
  Array_map_toPost (notBy did (concat (map resolvedFeed (concat pbs))))
    = inr posts →
  ∃ batchPosts,
    Forall2 (λ pb ps,
               Array_map_toPost (notBy did (concat (map resolvedFeed pb)))
               = inr ps) pbs batchPosts ∧
    posts = concat batchPosts.
Proof.
  revert posts. induction pbs as [|pb pbs IH]; intros posts; simpl.
  - intros [= <-]. exists []. split; [constructor|done].
  - rewrite map_app, concat_app, notBy_app.
    intros (ps1 & ps2 & H1 & H2 & ->)%Array_map_toPost_app_inv.
    destruct (IH ps2 H2) as (bps & Hbps & ->).
    exists (ps1 :: bps). split; [by constructor|done].
Qed.

(** *** Requests in flight *)

Lemma inFlightMax_ge out evs : (size out ≤ inFlightMax out evs)%nat.
Proof. destruct evs; simpl; lia. Qed.

Lemma inFlightMax_app out evs1 evs2 :
  inFlightMax out (evs1 ++ evs2) =
  Nat.max (inFlightMax out evs1)
          (inFlightMax (foldl inFlightStep out evs1) evs2).
Proof.
  revert out. induction evs1 as [|ev evs1 IH]; intros out; simpl.
  - pose proof (inFlightMax_ge out evs2). lia.
  - rewrite IH. lia.
Qed.

Lemma size_insert_le (n : nat) (out : gset nat) :
  (size ({[n]} ∪ out) ≤ S (size out))%nat.
Proof.
  rewrite size_union_alt, size_singleton.
  assert (size (out ∖ {[n]}) ≤ size out)%nat; [|lia].
  by apply subseteq_size, subseteq_difference_l.
Qed.

Lemma inFlight_requests ps : ∀ out,
  foldl inFlightStep out (map requestEvent ps) ⊆
    out ∪ list_to_set (map p_request ps) ∧
  (inFlightMax out (map requestEvent ps) ≤ size out + length ps)%nat.
Proof.
  induction ps as [|p ps IH]; intros out; simpl.
  - split; [apply union_subseteq_l|lia].
  - destruct (IH ({[p_request p]} ∪ out)) as [Hsub Hmax]. split.
    + etrans; [exact Hsub|]. intros n. rewrite !elem_of_union. tauto.
    + pose proof (size_insert_le (p_request p) out). lia.
Qed.

Lemma inFlight_settled p out :
  foldl inFlightStep out (settleEvents p) = out ∖ {[p_request p]} ∧
  (inFlightMax out (settleEvents p) ≤ size out)%nat.
Proof.
  assert (size (out ∖ {[p_request p]}) ≤ size out)%nat as Hle
    by (apply subseteq_size, subseteq_difference_l; done).
  unfold settleEvents. destruct (p_response p); simpl; (split; [done|lia]).
Qed.

Lemma inFlight_settleEvents ps : ∀ out,
  foldl inFlightStep out (concat (map settleEvents ps)) =
    out ∖ list_to_set (map p_request ps) ∧
  (inFlightMax out (concat (map settleEvents ps)) ≤ size out)%nat.
Proof.
  induction ps as [|p ps IH]; intros out; cbn [map concat].
  - simpl. split; [|lia]. by rewrite difference_empty_L.
  - destruct (inFlight_settled p out) as [Hout Hmax].
    destruct (IH (out ∖ {[p_request p]})) as [Hout' Hmax'].
    assert (size (out ∖ {[p_request p]}) ≤ size out)%nat as Hle
      by (apply subseteq_size, subseteq_difference_l; done).
    rewrite foldl_app, inFlightMax_app, Hout, Hout'. split; [|lia].
    cbn [list_to_set]. by rewrite difference_difference_l_L.
Qed.

Lemma inFlight_batchEvents pb :
  foldl inFlightStep ∅ (batchEvents pb) = ∅ ∧
  (inFlightMax ∅ (batchEvents pb) ≤ length pb)%nat.
Proof.
  unfold batchEvents. rewrite foldl_app, inFlightMax_app.
  destruct (inFlight_requests pb ∅) as [Hsub Hmax].
  destruct (inFlight_settleEvents (completionOrder pb)
              (foldl inFlightStep ∅ (map requestEvent pb))) as [Hout Hmax'].
  rewrite size_empty in Hmax. split.
  - rewrite Hout. apply set_eq. intros n.
    split; [|by intros ?%elem_of_empty].
    intros [Hn Hnot]%elem_of_difference. exfalso. apply Hnot.
    apply Hsub in Hn.
    apply elem_of_union in Hn as [Hn|Hn]; [by apply elem_of_empty in Hn|].
    apply elem_of_list_to_set. apply elem_of_list_to_set in Hn.
    apply elem_of_map in Hn as (q & -> & Hq). apply elem_of_map.
    exists q. split; [done|]. by rewrite completionOrder_Permutation.
  - pose proof (inFlightMax_ge ∅ (map requestEvent pb)).
    assert (size (foldl inFlightStep ∅ (map requestEvent pb))
              ≤ inFlightMax ∅ (map requestEvent pb))%nat; [|lia].
    clear. generalize (∅ : gset nat).
    induction (map requestEvent pb) as [|ev evs IH]; intros out; simpl;
      [done|]. specialize (IH (inFlightStep out ev)). lia.
Qed.

Lemma inFlight_batches pbs :
  Forall (λ pb, length pb ≤ batchSize)%nat pbs →
  foldl inFlightStep ∅ (concat (map batchEvents pbs)) = ∅ ∧
  (inFlightMax ∅ (concat (map batchEvents pbs)) ≤ batchSize)%nat.
Proof.
  induction 1 as [|pb pbs Hpb _ [IHout IHmax]]; cbn [map concat].
  - split; [done|]. cbn [inFlightMax]. rewrite size_empty. lia.
  - destruct (inFlight_batchEvents pb) as [Hout Hmax].
    rewrite foldl_app, inFlightMax_app, Hout. split; [done|lia].
Qed.

(** ** The properties the specification states *)

(** C1: whatever the handle and the cursor map, the posts a resolved call
    returns are in newest-first order of [indexedAt]: every post is at
    least as recent as every post after it. The order is that of the
    dates the [indexedAt] strings denote, so they are assumed to denote
    dates. *)
Theorem getMergedTimeline_sorted handle cm σ r σ' :
  getMergedTimeline handle cm σ = (inr r, σ') →
  Forall hasDate (TimelineResult.posts r) →
  StronglySorted newestFirst (TimelineResult.posts r).
Proof.
  intros (did & σ1 & feed & allPosts & _ & _ & _ & ->)%getMergedTimeline_posts.
  intros Hdates. rewrite Array_sort_Permutation in Hdates.
  by apply Array_sort_sorted.
Qed.

(** C2: no post of a resolved call is authored by the account the handle
    resolved to. *)
Theorem getMergedTimeline_excludes_root handle cm σ r σ' :
  getMergedTimeline handle cm σ = (inr r, σ') →
  ∃ did σ1,
    resolveHandle handle σ = (inr did, σ1) ∧
    Forall (λ p, Author.did (Post.author p) ≠ did) (TimelineResult.posts r).
Proof.
  intros (did & σ1 & feed & allPosts & Hres & _ & Hall & ->)
    %getMergedTimeline_posts.
  exists did, σ1. split; [done|].
  rewrite Array_sort_Permutation. apply Forall_forall. intros p Hp.
  destruct (Array_map_toPost_elem _ _ _ Hall Hp) as (f & Hf & Hfp).
  rewrite (toPost_author _ _ Hfp). by apply elem_of_notBy in Hf as [_ ?].
Qed.

(** C6: a handle that already starts with "did:" is returned as it is and
    nothing is asked of the agent (the state, trace included, is
    untouched); any other handle is sent to the agent once, and the call
    resolves to the identifier the agent answers, or rejects with exactly
    the agent's error. *)
Theorem resolveHandle_spec (handle : string) (σ : State) :
  (String.prefix "did:" handle = true →
     resolveHandle handle σ = (inr handle, σ)) ∧
  (String.prefix "did:" handle = false →
     resolveHandle handle σ =
       (resolveHandle_response agent (issued σ) handle,
        mkState (heap σ) (S (issued σ))
          (trace σ ++ [Request (issued σ) (ResolveHandle handle);
                       Settled (issued σ)]))).
Proof.
  unfold resolveHandle. split; intros ->; [done|].
  unfold agent_resolveHandle. rewrite !bind_run. cbn [issue fst snd].
  rewrite bind_run. cbn [emit heap issued trace]. rewrite <- app_assoc.
  by destruct (resolveHandle_response agent (issued σ) handle).
Qed.

(** The projection as the code has it: in both timelines every returned
    post is the projection of an entry the agent answered with, and the
    projection of an entry carries [repostedBy], made of the [did],
    [handle] and [displayName] of the reason's actor, exactly when the
    reason's tag is the literal the code tests, and no [repostedBy]
    otherwise. An entry is projected unless it carries that tag and has no
    actor to read. Which reasons are reposts is another matter, taken up
    under "Reposts" below. *)
Lemma repostedBy_spec :
  (∀ f, projectable f → ∃ p, toPost f = inr p) ∧
  (∀ f p, toPost f = inr p →
     if isRepost (FeedViewPost.reason f)
     then ∃ by_, FeedViewPost.reason f ≫= Reason.by_ = Some by_ ∧
                 Post.repostedBy p =
                   Some (RepostedBy.mk (Actor.did by_) (Actor.handle by_)
                                       (Actor.displayName by_))
     else Post.repostedBy p = None) ∧
  (∀ actor σ posts σ',
     getUserTimeline actor σ = (inr posts, σ') →
     ∃ page,
       getAuthorFeed_response agent (issued σ) actor 20 None = inr page ∧
       Forall2 (λ f p, toPost f = inr p) (FeedPage.feed page) posts) ∧
  (∀ handle cm σ r σ',
     getMergedTimeline handle cm σ = (inr r, σ') →
     ∀ p, p ∈ TimelineResult.posts r →
       ∃ f, answered f ∧ toPost f = inr p).
Proof.
  split; [|split; [|split]].
  - intros f Hf.
    destruct (Array_map_toPost_projectable [f]) as [posts H];
      [by repeat constructor|].
    simpl in H. destruct (toPost f) as [e|p]; [done|]. by exists p.
  - apply toPost_repostedBy.
  - intros actor σ posts σ'. unfold getUserTimeline, getAuthorFeed.
    rewrite !bind_run, agent_getAuthorFeed_run.
    destruct (getAuthorFeed_response _ _ _ _ _) as [e|page]; [done|].
    simpl. destruct (Array_map_toPost (FeedPage.feed page)) as [e|ps] eqn:E;
      [done|].
    intros [= <- <-]. exists page. split; [done|].
    by apply Array_map_toPost_Forall2.
  - intros handle cm σ r σ'
      (did & σ1 & feed & allPosts & _ & Hans & Hall & ->)
      %getMergedTimeline_posts p Hp.
    rewrite Array_sort_Permutation in Hp.
    destruct (Array_map_toPost_elem _ _ _ Hall Hp) as (f & Hf & Hfp).
    exists f. split; [|done]. apply elem_of_notBy in Hf as [Hf _].
    by apply (proj1 (Forall_forall _ _) Hans).
Qed.

Lemma keepProfile_spec profile :
  keepProfile profile = true ↔ ¬ requiresAuth profile.
Proof.
  unfold keepProfile, requiresAuth.
  destruct (ProfileView.labels profile) as [labels|]; [|naive_solver].
  rewrite negb_true_iff, <- not_true_iff_false, existsb_exists, Exists_exists.
  split; intros H (label & Hin & Hval); apply H; exists label.
  - rewrite list_elem_of_In in Hin. split; [done|]. by apply String.eqb_eq.
  - rewrite list_elem_of_In. split; [done|]. by apply String.eqb_eq.
Qed.

Lemma keptFollows_spec res :
  keptFollows res = filter (λ profile, ¬ requiresAuth profile) res.
Proof.
  unfold keptFollows. apply list_filter_iff. intros f.
  apply keepProfile_spec.
Qed.

(** The cursor of every feed request of a call is what the caller's map
    holds for the account the request is made for. *)
Lemma feed_request_cursors handle cm σ :
  cursorMapIn σ cm →
  ∃ evs,
    trace (getMergedTimeline handle cm σ).2 = trace σ ++ evs ∧
    (∀ n actor limit cursor,
       Request n (GetAuthorFeed actor limit cursor) ∈ evs →
       cursor = lookupMap (heap σ) cm actor) ∧
    (∀ r, (getMergedTimeline handle cm σ).1 = inr r →
       ∃ did σ1 res,
         resolveHandle handle σ = (inr did, σ1) ∧
         getFollows_response agent (issued σ1) did 30 = inr res ∧
         feedRequests evs = map (feedCall (heap σ) cm) (keptFollows res)).
Proof.
  intros Hin.
  destruct (getMergedTimeline_requests handle cm σ Hin)
    as (evs & Htr & [[Hnone [e He]]|(did & σ1 & res & Hres & Hfol & later & Hreq & Hok)]);
    exists evs; (split; [done|]); split.
  - intros n actor limit cursor Hev%elem_of_feedRequests.
    rewrite Hnone in Hev. by apply elem_of_nil in Hev.
  - intros r Hr. congruence.
  - intros n actor limit cursor Hev%elem_of_feedRequests.
    assert (GetAuthorFeed actor limit cursor
              ∈ map (feedCall (heap σ) cm) (keptFollows res)) as Hin'.
    { rewrite Hreq. apply elem_of_app. by left. }
    apply elem_of_map in Hin' as (f & Hf & _). unfold feedCall in Hf.
    by injection Hf as -> -> ->.
  - intros r Hr. exists did, σ1, res. split; [done|]. split; [done|].
    rewrite (Hok r Hr), app_nil_r in Hreq. by rewrite <- Hreq.
Qed.

(** C4: the feed requests of a call carry, for each followed account, the
    token the caller's cursor map holds under that account's own
    identifier, and no cursor when the map has no entry for it (or when
    there is no map): every feed request found in the trace of the call
    does, and a resolved call made exactly one such request per kept
    follow, in their order. When the map a resolved call returned is handed
    to a next call, a token that next call sends for an account is one that
    a request of the first call for that same account returned. *)
Theorem feed_requests_carry_own_cursor handle cm σ :
  cursorMapIn σ cm →
  ∃ evs,
    trace (getMergedTimeline handle cm σ).2 = trace σ ++ evs ∧
    (∀ n actor limit cursor,
       Request n (GetAuthorFeed actor limit cursor) ∈ evs →
       cursor = lookupMap (heap σ) cm actor) ∧
    (∀ r, (getMergedTimeline handle cm σ).1 = inr r →
       ∃ did σ1 res,
         resolveHandle handle σ = (inr did, σ1) ∧
         getFollows_response agent (issued σ1) did 30 = inr res ∧
         feedRequests evs =
           map (λ f, GetAuthorFeed (ProfileView.did f) 10
                       (lookupMap (heap σ) cm (ProfileView.did f)))
               (keptFollows res) ∧
         let σ' := (getMergedTimeline handle cm σ).2 in
         ∀ handle', ∃ evs',
           trace (getMergedTimeline handle'
                    (Some (TimelineResult.cursorMap r)) σ').2
             = trace σ' ++ evs' ∧
           ∀ n actor limit cursor c,
             Request n (GetAuthorFeed actor limit cursor) ∈ evs' →
             cursor = Some c →
             ∃ p, p ∈ pendings (heap σ) cm (S (issued σ1)) (keptFollows res) ∧
                  ProfileView.did (p_profile p) = actor ∧
                  returnedToken p c).
Proof.
  intros Hin.
  destruct (feed_request_cursors handle cm σ Hin) as (evs & Htr & Hcur & Hok).
  exists evs. split; [done|]. split; [done|]. intros r Hr.
  destruct (Hok r Hr) as (did & σ1 & res & Hres & Hfol & Hreq).
  exists did, σ1, res. split; [done|]. split; [done|]. split; [done|].
  destruct (getMergedTimeline handle cm σ) as [out σ'] eqn:Hrun.
  simpl in Hr. subst out. simpl. intros handle'.
  destruct (getMergedTimeline_resolved _ _ _ _ _ Hin Hrun)
    as (did' & σ1' & res' & allPosts & Hres' & Hfol' & _ & Hheap & _).
  rewrite Hres in Hres'. injection Hres' as <- <-.
  rewrite Hfol in Hfol'. injection Hfol' as <-.
  assert (cursorMapIn σ' (Some (TimelineResult.cursorMap r))) as Hin'.
  { intros l [= <-]. by rewrite Hheap, lookup_insert_eq. }
  destruct (feed_request_cursors handle' _ σ' Hin') as (evs' & Htr' & Hcur' & _).
  exists evs'. split; [done|]. intros n actor limit cursor c Hev ->.
  apply Hcur' in Hev. symmetry in Hev. simpl in Hev.
  rewrite Hheap, lookup_insert_eq in Hev. simpl in Hev.
  by apply settled_cursorMap_lookup in Hev.
Qed.

(** C8: the call leaves every map that was in the store as it was, the
    caller's cursor map among them; the map a resolved call returns is a
    new one, and it has an entry under an identifier exactly when a
    request made for that identifier returned a token (a non-empty
    [cursor], as the code tests it), the entry being such a token. *)
Theorem cursorMap_fresh_and_input_untouched handle cm σ :
  cursorMapIn σ cm →
  (∀ l, is_Some (heap σ !! l) →
     heap (getMergedTimeline handle cm σ).2 !! l = heap σ !! l) ∧
  (∀ r, (getMergedTimeline handle cm σ).1 = inr r →
     heap σ !! TimelineResult.cursorMap r = None ∧
     ∃ did σ1 res m,
       resolveHandle handle σ = (inr did, σ1) ∧
       getFollows_response agent (issued σ1) did 30 = inr res ∧
       heap (getMergedTimeline handle cm σ).2 !! TimelineResult.cursorMap r
         = Some m ∧
       let ps := pendings (heap σ) cm (S (issued σ1)) (keptFollows res) in
       ∀ d,
         (is_Some (m !! d) ↔
            ∃ p c, p ∈ ps ∧ ProfileView.did (p_profile p) = d ∧
                   returnedToken p c) ∧
         (∀ c, m !! d = Some c →
            ∃ p, p ∈ ps ∧ ProfileView.did (p_profile p) = d ∧
                 returnedToken p c)).
Proof.
  intros Hin. split.
  - intros l Hl.
    pose proof (getMergedTimeline_cases handle cm σ Hin) as H.
    pose proof (resolveHandle_heap handle σ) as Hh.
    destruct (resolveHandle handle σ) as [[e|did] σ1]; simpl in Hh.
    { rewrite H. simpl. by rewrite Hh. }
    destruct (getFollows_response _ _ _ _) as [e|res]; [by rewrite H|].
    cbv zeta in H. destruct H as (k & out & σ' & Hrun & Hheap & _).
    rewrite Hrun. simpl. rewrite Hheap. apply lookup_insert_ne. intros <-.
    apply elem_of_dom in Hl. by apply is_fresh in Hl.
  - intros r Hr.
    destruct (getMergedTimeline handle cm σ) as [out σ'] eqn:Hrun.
    simpl in Hr. subst out.
    destruct (getMergedTimeline_resolved _ _ _ _ _ Hin Hrun)
      as (did & σ1 & res & allPosts & Hres & Hfol & Hncm & Hheap & _).
    split.
    { rewrite Hncm. apply not_elem_of_dom. apply is_fresh. }
    eexists did, σ1, res, _. split; [done|]. split; [done|]. simpl.
    split; [by rewrite Hheap, lookup_insert_eq|].
    intros d. split; [split|].
    + intros [c (p & Hp & Hd & Ht)%settled_cursorMap_lookup].
      by exists p, c.
    + intros (p & c & Hp & Hd & Ht). by eapply settled_cursorMap_is_Some.
    + apply settled_cursorMap_lookup.
Qed.

(** C10: the self-post filter looks at the author of the underlying post
    and at nothing else. Of the entries fetched from the kept follows, one
    whose post is authored by the root account leaves no post in the
    result, whatever its reason says (a repost by a followed account
    included); one whose post has another author is projected and is in
    the result (the repost of a third party's post included). *)
Theorem self_post_filter_keys_on_author handle cm σ r σ' :
  cursorMapIn σ cm →
  getMergedTimeline handle cm σ = (inr r, σ') →
  ∃ did σ1 res,
    resolveHandle handle σ = (inr did, σ1) ∧
    getFollows_response agent (issued σ1) did 30 = inr res ∧
    let ps := pendings (heap σ) cm (S (issued σ1)) (keptFollows res) in
    ∀ q f, q ∈ ps → f ∈ resolvedFeed q →
      (Actor.did (PostView.author (FeedViewPost.post f)) = did →
         ∀ p, toPost f = inr p → p ∉ TimelineResult.posts r) ∧
      (Actor.did (PostView.author (FeedViewPost.post f)) ≠ did →
         ∃ p, toPost f = inr p ∧ p ∈ TimelineResult.posts r).
Proof.
  intros Hin Hrun.
  destruct (getMergedTimeline_resolved _ _ _ _ _ Hin Hrun)
    as (did & σ1 & res & allPosts & Hres & Hfol & _ & _ & _ & Hall & Hposts).
  exists did, σ1, res. split; [done|]. split; [done|].
  intros ps q f Hq Hf. rewrite Hposts. split.
  - intros Hauthor p Hp Hin'. rewrite Array_sort_Permutation in Hin'.
    destruct (Array_map_toPost_elem _ _ _ Hall Hin') as (g & Hg & Hgp).
    apply elem_of_notBy in Hg as [_ Hne]. apply Hne.
    by rewrite <- (toPost_author _ _ Hgp), (toPost_author _ _ Hp).
  - intros Hauthor.
    destruct (Array_map_toPost_kept _ _ f Hall) as (p & Hp & Hin').
    + apply elem_of_notBy. split; [|done]. apply elem_of_concat.
      exists (resolvedFeed q). split; [|done]. apply elem_of_map. by exists q.
    + exists p. split; [done|]. by rewrite Array_sort_Permutation.
Qed.

(** Once the handle is resolved and the follows are in: as long as the
    entries that came back can be projected the call resolves, to the posts
    of the pages of the requests that succeeded alone, and a token of the
    new cursor map was returned by a request that succeeded; when every
    feed request fails, the call resolves to no post and to an empty
    cursor map. *)
Lemma failed_fetches_leave_nothing handle cm σ did σ1 res :
  cursorMapIn σ cm →
  resolveHandle handle σ = (inr did, σ1) →
  getFollows_response agent (issued σ1) did 30 = inr res →
  let ps := pendings (heap σ) cm (S (issued σ1)) (keptFollows res) in
  (Forall projectable (concat (map FeedPage.feed (succeeded ps))) →
     ∃ r σ' allPosts m,
       getMergedTimeline handle cm σ = (inr r, σ') ∧
       Array_map_toPost
         (notBy did (concat (map FeedPage.feed (succeeded ps))))
         = inr allPosts ∧
       TimelineResult.posts r = Array_sort comparefn allPosts ∧
       heap σ' !! TimelineResult.cursorMap r = Some m ∧
       ∀ d c, m !! d = Some c →
         ∃ p page, p ∈ ps ∧ ProfileView.did (p_profile p) = d ∧
                   p_response p = inr page ∧
                   FeedPage.cursor page = Some c) ∧
  (Forall (λ p, ∃ e, p_response p = inl e) ps →
     ∃ r σ',
       getMergedTimeline handle cm σ = (inr r, σ') ∧
       TimelineResult.posts r = [] ∧
       heap σ' !! TimelineResult.cursorMap r = Some ∅).
Proof.
  intros Hin Hres Hfol ps.
  assert (Forall projectable (concat (map FeedPage.feed (succeeded ps))) →
     ∃ r σ' allPosts m,
       getMergedTimeline handle cm σ = (inr r, σ') ∧
       Array_map_toPost
         (notBy did (concat (map FeedPage.feed (succeeded ps))))
         = inr allPosts ∧
       TimelineResult.posts r = Array_sort comparefn allPosts ∧
       heap σ' !! TimelineResult.cursorMap r = Some m ∧
       ∀ d c, m !! d = Some c →
         ∃ p, p ∈ ps ∧ ProfileView.did (p_profile p) = d ∧
              returnedToken p c) as Hmain.
  { intros Hproj. rewrite <- resolvedFeed_succeeded in *.
    destruct (getMergedTimeline_total _ _ _ _ _ _ Hin Hres Hfol Hproj)
      as (r & σ' & Hrun).
    destruct (getMergedTimeline_resolved _ _ _ _ _ Hin Hrun)
      as (did' & σ1' & res' & allPosts & Hres' & Hfol' & _ & Hheap & _ & Hall
          & Hposts).
    rewrite Hres in Hres'. injection Hres' as <- <-.
    rewrite Hfol in Hfol'. injection Hfol' as <-.
    eexists r, σ', allPosts, _. split; [done|]. split; [done|].
    split; [done|]. split; [by rewrite Hheap, lookup_insert_eq|].
    intros d c. apply settled_cursorMap_lookup. }
  split.
  - intros Hproj.
    destruct (Hmain Hproj) as (r & σ' & allPosts & m & ? & ? & ? & ? & Hm).
    exists r, σ', allPosts, m. repeat (split; [done|]).
    intros d c (p & Hp & Hd & page & Hpage & Hc & _)%Hm. by exists p, page.
  - intros Hfail. pose proof (succeeded_nil _ Hfail) as Hnil.
    destruct Hmain as (r & σ' & allPosts & m & Hrun & Hall & Hposts & Hm & Hentries).
    { rewrite Hnil. constructor. }
    exists r, σ'. split; [done|]. rewrite Hnil in Hall. simpl in Hall.
    injection Hall as <-. split; [done|]. rewrite Hm. f_equal.
    apply map_empty. intros d. destruct (m !! d) as [c|] eqn:Hd; [|done].
    destruct (Hentries d c Hd) as (p & Hp & _ & page & Hpage & _).
    destruct (proj1 (Forall_forall _ _) Hfail p Hp) as [e He]. congruence.
Qed.

(** C7: the follows the call works with are the agent's follows without
    those whose labels include "!no-unauthenticated", in the agent's
    order. Every feed request of the call is made for one of them, so a
    dropped account is never asked for; and in a resolved call every kept
    follow was asked for, every post comes from the feed of a kept follow,
    and the returned cursor map has entries for kept follows only. *)
Theorem unauthenticated_follows_are_dropped handle cm σ did σ1 res :
  cursorMapIn σ cm →
  resolveHandle handle σ = (inr did, σ1) →
  getFollows_response agent (issued σ1) did 30 = inr res →
  let kept := filter (λ profile, ¬ requiresAuth profile) res in
  ∃ evs,
    trace (getMergedTimeline handle cm σ).2 = trace σ ++ evs ∧
    (∀ n actor limit cursor,
       Request n (GetAuthorFeed actor limit cursor) ∈ evs →
       ∃ f, f ∈ kept ∧ ProfileView.did f = actor) ∧
    (∀ r, (getMergedTimeline handle cm σ).1 = inr r →
       feedRequests evs = map (feedCall (heap σ) cm) kept ∧
       (∀ p, p ∈ TimelineResult.posts r →
          ∃ q entry,
            q ∈ pendings (heap σ) cm (S (issued σ1)) kept ∧
            p_profile q ∈ kept ∧
            entry ∈ resolvedFeed q ∧ toPost entry = inr p) ∧
       ∃ m,
         heap (getMergedTimeline handle cm σ).2 !! TimelineResult.cursorMap r
           = Some m ∧
         ∀ d, is_Some (m !! d) → ∃ f, f ∈ kept ∧ ProfileView.did f = d).
Proof.
  intros Hin Hres Hfol kept. unfold kept. rewrite <- keptFollows_spec.
  destruct (getMergedTimeline_requests handle cm σ Hin)
    as (evs & Htr & [[Hnone [e He]]|(did' & σ1' & res' & Hres' & Hfol' & later
                                    & Hreq & Hok)]);
    exists evs; (split; [done|]).
  { split.
    - intros n actor limit cursor Hev%elem_of_feedRequests.
      rewrite Hnone in Hev. by apply elem_of_nil in Hev.
    - intros r Hr. congruence. }
  rewrite Hres in Hres'. injection Hres' as <- <-.
  rewrite Hfol in Hfol'. injection Hfol' as <-. split.
  - intros n actor limit cursor Hev%elem_of_feedRequests.
    assert (GetAuthorFeed actor limit cursor
              ∈ map (feedCall (heap σ) cm) (keptFollows res)) as Hin'.
    { rewrite Hreq. apply elem_of_app. by left. }
    apply elem_of_map in Hin' as (f & Hf & Hkept). exists f.
    split; [done|]. unfold feedCall in Hf. by injection Hf as -> _ _.
  - intros r Hr. split.
    { rewrite (Hok r Hr), app_nil_r in Hreq. by rewrite <- Hreq. }
    destruct (getMergedTimeline handle cm σ) as [out σ'] eqn:Hrun.
    simpl in Hr. subst out.
    destruct (getMergedTimeline_resolved _ _ _ _ _ Hin Hrun)
      as (did' & σ1' & res' & allPosts & Hres' & Hfol' & Hncm & Hheap & _
          & Hall & Hposts).
    rewrite Hres in Hres'. injection Hres' as <- <-.
    rewrite Hfol in Hfol'. injection Hfol' as <-. split.
    + intros p Hp. rewrite Hposts, Array_sort_Permutation in Hp.
      destruct (Array_map_toPost_elem _ _ _ Hall Hp) as (f & Hf & Hfp).
      apply elem_of_notBy in Hf as [Hf _].
      apply elem_of_concat in Hf as (feed & (q & -> & Hq)%elem_of_map & Hf).
      exists q, f. split; [done|]. split; [|done].
      by apply elem_of_pendings in Hq as (? & _).
    + eexists. simpl. split; [by rewrite Hheap, lookup_insert_eq|].
      intros d [c (p & Hp & Hd & _)%settled_cursorMap_lookup].
      exists (p_profile p). split; [|done].
      by apply elem_of_pendings in Hp as (? & _).
Qed.

(** C5: the kept follows are cut into consecutive batches of five, the
    last one holding what is left (23 follows make batches of 5, 5, 5, 5
    and 3). The batches are worked through one after the other: the trace
    of a resolved call is, batch after batch, the requests of the batch
    followed by the settling of those same requests, in whatever order
    they complete, so that at no moment more than five feed requests are
    in flight. The posts are those of the batches in batch order, each
    batch giving the entries of its accounts in the order of the batch,
    before the final sort. *)
Theorem batches_of_five handle cm σ r σ' :
  cursorMapIn σ cm →
  getMergedTimeline handle cm σ = (inr r, σ') →
  ∃ did σ1 res,
    resolveHandle handle σ = (inr did, σ1) ∧
    getFollows_response agent (issued σ1) did 30 = inr res ∧
    let follows := keptFollows res in
    let batches := batchesFrom follows 0 in
    let pbs := batchesFrom (pendings (heap σ) cm (S (issued σ1)) follows) 0 in
    concat batches = follows ∧
    (∀ k, batches !! k =
          if decide (5 * k < length follows)%nat
          then Some (take 5 (drop (5 * k) follows)) else None) ∧
    (∀ batch, batch ∈ batches → (1 ≤ length batch ≤ 5)%nat) ∧
    (length follows = 23%nat → map length batches = [5; 5; 5; 5; 3]%nat) ∧
    map (map p_profile) pbs = batches ∧
    let loopEvents :=
      concat (map (λ pb, map requestEvent pb ++
                         concat (map settleEvents (completionOrder pb))) pbs) in
    trace σ' = trace σ1 ++ followsEvents did σ1 ++ loopEvents ∧
    (inFlightMax ∅ loopEvents ≤ 5)%nat ∧
    ∃ batchPosts,
      Forall2 (λ pb posts,
                 Array_map_toPost
                   (notBy did (concat (map resolvedFeed pb))) = inr posts)
              pbs batchPosts ∧
      TimelineResult.posts r = Array_sort comparefn (concat batchPosts).
Proof.
  intros Hin Hrun.
  destruct (getMergedTimeline_resolved _ _ _ _ _ Hin Hrun)
    as (did & σ1 & res & allPosts & Hres & Hfol & _ & _ & Htr & Hall & Hposts).
  exists did, σ1, res. split; [done|]. split; [done|].
  intros follows batches pbs. split; [apply batchesFrom_partition|].
  split.
  { intros k. unfold batches.
    rewrite (batchesFrom_lookup follows (length follows)) by lia.
    unfold Array_slice, batchSize. cbn [Nat.add].
    by replace (5 * k + 5 - 5 * k)%nat with 5%nat by lia. }
  split; [apply batchesFrom_length_le|]. split.
  { intros Hlen. unfold batches.
    by rewrite (batchesFrom_sizes follows (replicate 23 ()) 23)
      by (rewrite ?Hlen, ?length_replicate; lia). }
  split; [apply batchesFrom_profiles|]. intros loopEvents.
  split; [done|]. split.
  { apply (inFlight_batches pbs). apply Forall_forall. intros pb Hpb.
    by apply batchesFrom_length_le in Hpb as [_ ?]. }
  rewrite <- (batchesFrom_partition
                (pendings (heap σ) cm (S (issued σ1)) (keptFollows res)))
    in Hall.
  destruct (Array_map_toPost_batches _ _ _ Hall) as (batchPosts & Hb & ->).
  by exists batchPosts.
Qed.

End Service.

(** ** A failed feed request counts for an empty page

    The call is run against the agent and against [absorbed agent]; the two
    runs are compared step by step. *)

Section Absorption.

Variable agent : Agent.
Variable Date_getTime : string → option Z.

(** The request, had its failure been an empty page. *)
Definition emptied (p : Pending) : Pending :=
  mkPending (p_profile p) (p_request p) (p_cursor p)
    match p_response p with
    | inl _ => inr (FeedPage.mk [] None)
    | inr page => inr page
    end.

(** Two states that differ by console output only. *)
Definition alike (σ σ' : State) : Prop :=
  heap σ = heap σ' ∧ issued σ = issued σ' ∧
  quiet (trace σ) = quiet (trace σ').

Lemma alike_refl σ : alike σ σ.
Proof. by repeat split. Qed.

Lemma quiet_app evs1 evs2 : quiet (evs1 ++ evs2) = quiet evs1 ++ quiet evs2.
Proof. apply omap_app. Qed.

Lemma pendings_absorbed h cm n batch :
  pendings (absorbed agent) h cm n batch = map emptied (pendings agent h cm n batch).
Proof. revert n. induction batch as [|f batch IH]; intros n; simpl; [done|].
  by rewrite IH. Qed.

Lemma resolvedFeed_emptied p : resolvedFeed (emptied p) = resolvedFeed p.
Proof. unfold resolvedFeed, emptied. simpl. by destruct (p_response p). Qed.

Lemma tokenOf_emptied p : tokenOf (emptied p) = tokenOf p.
Proof. unfold tokenOf, emptied. simpl. by destruct (p_response p). Qed.

Lemma settledMap_emptied p m : settledMap (emptied p) m = settledMap p m.
Proof. unfold settledMap. by rewrite tokenOf_emptied. Qed.

Lemma settledAll_emptied ps : ∀ m,
  settledAll (map emptied ps) m = settledAll ps m.
Proof.
  induction ps as [|p ps IH]; intros m; [done|].
  unfold settledAll in *. simpl. by rewrite settledMap_emptied, IH.
Qed.

Lemma settleAfter_absorbed p queue :
  settleAfter (absorbed agent) (emptied p) (map emptied queue) =
  map emptied (settleAfter agent p queue).
Proof.
  induction queue as [|q queue IH]; simpl; [done|].
  destruct (_ <? _)%nat; simpl; [by rewrite IH|done].
Qed.

Lemma completionOrder_absorbed ps :
  completionOrder (absorbed agent) (map emptied ps) =
  map emptied (completionOrder agent ps).
Proof.
  induction ps as [|p ps IH]; simpl; [done|].
  by rewrite IH, settleAfter_absorbed.
Qed.

Lemma quiet_requestEvents ps :
  quiet (map requestEvent (map emptied ps)) = quiet (map requestEvent ps).
Proof. f_equal. rewrite map_map. by apply map_ext. Qed.

Lemma quiet_settleEvents ps :
  quiet (concat (map settleEvents (map emptied ps))) =
  quiet (concat (map settleEvents ps)).
Proof.
  induction ps as [|p ps IH]; [done|]. simpl. rewrite !quiet_app, IH.
  f_equal. unfold settleEvents, emptied. simpl.
  by destruct (p_response p).
Qed.

Lemma quiet_batchEvents ps :
  quiet (batchEvents (absorbed agent) (map emptied ps)) =
  quiet (batchEvents agent ps).
Proof.
  unfold batchEvents.
  by rewrite !quiet_app, completionOrder_absorbed, quiet_requestEvents,
    quiet_settleEvents.
Qed.

Lemma afterBatch_alike cm ncm batch σ σ' :
  alike σ σ' →
  alike (afterBatch agent cm ncm batch σ)
        (afterBatch (absorbed agent) cm ncm batch σ').
Proof.
  intros (Hh & Hi & Ht). unfold afterBatch, alike. simpl.
  rewrite <- Hh, <- Hi, pendings_absorbed, completionOrder_absorbed.
  rewrite !quiet_app, quiet_batchEvents, Ht. split; [|done].
  apply alter_ext. intros m _. symmetry. apply settledAll_emptied.
Qed.

Lemma concat_resolvedFeed_emptied ps :
  concat (map resolvedFeed (map emptied ps)) = concat (map resolvedFeed ps).
Proof.
  induction ps as [|p ps IH]; [done|]. simpl.
  by rewrite resolvedFeed_emptied, IH.
Qed.

Lemma runBatches_alike did cm ncm bs : ∀ allPosts σ σ',
  alike σ σ' →
  (runBatches agent did cm ncm bs allPosts σ).1 =
  (runBatches (absorbed agent) did cm ncm bs allPosts σ').1 ∧
  alike (runBatches agent did cm ncm bs allPosts σ).2
        (runBatches (absorbed agent) did cm ncm bs allPosts σ').2.
Proof.
  induction bs as [|b bs IH]; intros allPosts σ σ' Hσ; simpl; [done|].
  rewrite !bind_run, !batchPostsOf_run.
  pose proof (afterBatch_alike cm ncm b σ σ' Hσ) as Hafter.
  destruct Hσ as (Hh & Hi & _).
  rewrite <- Hh, <- Hi, pendings_absorbed, concat_resolvedFeed_emptied.
  destruct (Array_map_toPost _) as [e|batchPosts]; [done|].
  by apply IH.
Qed.

Lemma resolveHandle_absorbed handle σ :
  resolveHandle (absorbed agent) handle σ = resolveHandle agent handle σ.
Proof. by rewrite !resolveHandle_run. Qed.

(** The call against the agent and the call against [absorbed agent] have
    the same outcome, posts or rejection, and leave the same store and the
    same trace, console output apart. *)
Lemma getMergedTimeline_absorbed handle cm σ :
  (getMergedTimeline agent Date_getTime handle cm σ).1 =
  (getMergedTimeline (absorbed agent) Date_getTime handle cm σ).1 ∧
  alike (getMergedTimeline agent Date_getTime handle cm σ).2
        (getMergedTimeline (absorbed agent) Date_getTime handle cm σ).2.
Proof.
  rewrite !getMergedTimeline_run, resolveHandle_absorbed.
  destruct (resolveHandle agent handle σ) as [[e|did] σ1];
    [split; [done|apply alike_refl]|].
  simpl. destruct (getFollows_response agent _ _ _) as [e|res];
    [split; [done|apply alike_refl]|].
  destruct (runBatches_alike did cm (fresh (dom (heap σ1)))
              (batchesFrom (keptFollows res) 0) []
              (loopStart did σ1) (loopStart did σ1) (alike_refl _))
    as [Hout Hst].
  destruct (runBatches agent _ _ _ _ _ _) as [[e|allPosts] σ2],
           (runBatches (absorbed agent) _ _ _ _ _ _) as [[e'|allPosts'] σ2'];
    simpl in *; try done.
  - by injection Hout as ->.
  - by injection Hout as ->.
Qed.

(** C3: a feed request that fails is taken for an empty page without a
    cursor, and does not make the call reject: run against the agent or
    against the agent whose failed feed requests are answered with such a
    page, the call has the same outcome and leaves the same store (and the
    same trace, but for what it wrote to the console). Once the handle is
    resolved and the follows are in, the call resolves as long as the
    entries that did come back can be projected, to the posts of the pages
    of the requests that succeeded alone, and a token of the new cursor map
    was returned by a request that succeeded; when every feed request
    fails, the call resolves to no post and to an empty cursor map. *)
Theorem fetch_failures_are_absorbed handle cm σ :
  let run := getMergedTimeline agent Date_getTime handle cm σ in
  let run' := getMergedTimeline (absorbed agent) Date_getTime handle cm σ in
  (run.1 = run'.1 ∧ heap run.2 = heap run'.2 ∧
   quiet (trace run.2) = quiet (trace run'.2)) ∧
  ∀ did σ1 res,
    cursorMapIn σ cm →
    resolveHandle agent handle σ = (inr did, σ1) →
    getFollows_response agent (issued σ1) did 30 = inr res →
    let ps := pendings agent (heap σ) cm (S (issued σ1)) (keptFollows res) in
    (Forall projectable (concat (map FeedPage.feed (succeeded ps))) →
       ∃ r σ' allPosts m,
         run = (inr r, σ') ∧
         Array_map_toPost
           (notBy did (concat (map FeedPage.feed (succeeded ps))))
           = inr allPosts ∧
         TimelineResult.posts r = Array_sort (comparefn Date_getTime) allPosts ∧
         heap σ' !! TimelineResult.cursorMap r = Some m ∧
         ∀ d c, m !! d = Some c →
           ∃ p page, p ∈ ps ∧ ProfileView.did (p_profile p) = d ∧
                     p_response p = inr page ∧
                     FeedPage.cursor page = Some c) ∧
    (Forall (λ p, ∃ e, p_response p = inl e) ps →
       ∃ r σ',
         run = (inr r, σ') ∧
         TimelineResult.posts r = [] ∧
         heap σ' !! TimelineResult.cursorMap r = Some ∅).
Proof.
  intros run run'. split.
  - destruct (getMergedTimeline_absorbed handle cm σ) as (Hout & Hh & _ & Ht).
    by repeat split.
  - intros did σ1 res Hin Hres Hfol.
    apply (failed_fetches_leave_nothing agent Date_getTime _ _ _ _ _ _
             Hin Hres Hfol).
Qed.

End Absorption.

(** ** A worked example

    The root account follows four accounts: [a] and [b] answer, [c] is
    labelled "!no-unauthenticated", and the feed of [d] cannot be fetched.
    The caller passes a cursor map that holds a token for [a]. *)

Module Demo.

Definition entry (uri author indexedAt : string) (reason : option Reason.t)
    : FeedViewPost.t :=
  FeedViewPost.mk
    (PostView.mk uri "bafy" (Actor.mk author "someone.test" None None)
       (PostRecord.mk "hello" indexedAt None) None indexedAt)
    reason.

Definition repostBy (did handle : string) : option Reason.t :=
  Some (Reason.mk (Some "app.bsky.feed.defs#skeletonReasonRepost")
          (Some (Actor.mk did handle (Some "B") None))).

(** [new Date(s).getTime()] on the five dates of the example; anything else
    is not a date. *)
Definition getTime (s : string) : option Z :=
  if String.eqb s "2024-01-01T00:00:00.000Z" then Some 1704067200000
  else if String.eqb s "2024-01-02T00:00:00.000Z" then Some 1704153600000
  else if String.eqb s "2024-01-03T00:00:00.000Z" then Some 1704240000000
  else if String.eqb s "2024-01-04T00:00:00.000Z" then Some 1704326400000
  else if String.eqb s "2024-01-05T00:00:00.000Z" then Some 1704412800000
  else None.

Definition follows : list ProfileView.t :=
  [ ProfileView.mk "did:plc:a" "a.test" None None None;
    ProfileView.mk "did:plc:b" "b.test" None None (Some []);
    ProfileView.mk "did:plc:c" "c.test" None None
      (Some [Label.mk "porn"; Label.mk "!no-unauthenticated"]);
    ProfileView.mk "did:plc:d" "d.test" None None None ].

Definition feedOf (actor : string) : exn + FeedPage.t :=
  if String.eqb actor "did:plc:a" then
    inr (FeedPage.mk
           [ entry "at://a/1" "did:plc:a" "2024-01-04T00:00:00.000Z" None;
             entry "at://a/2" "did:plc:a" "2024-01-02T00:00:00.000Z" None ]
           (Some "cursor-a-2"))
  else if String.eqb actor "did:plc:b" then
    inr (FeedPage.mk
           [ entry "at://b/1" "did:plc:b" "2024-01-03T00:00:00.000Z" None;
             entry "at://root/1" "did:plc:root" "2024-01-05T00:00:00.000Z"
               (repostBy "did:plc:b" "b.test");
             entry "at://x/1" "did:plc:x" "2024-01-01T00:00:00.000Z"
               (repostBy "did:plc:b" "b.test") ]
           (Some ""))
  else if String.eqb actor "did:plc:c" then
    inr (FeedPage.mk
           [ entry "at://c/1" "did:plc:c" "2024-01-05T00:00:00.000Z" None ]
           (Some "cursor-c"))
  else inl (XRPCError 502 "Upstream Failure").

Definition agent : Agent := {|
  resolveHandle_response _ handle :=
    if String.eqb handle "root.test" then inr "did:plc:root"
    else inl (XRPCError 400 "Unable to resolve handle");
  getFollows_response _ _ _ := inr follows;
  getAuthorFeed_response _ actor _ _ := feedOf actor;
  latency n := (10 - n)%nat
|}.

(** The same account on a day when no feed can be fetched. *)
Definition agentDown : Agent := {|
  resolveHandle_response := resolveHandle_response agent;
  getFollows_response := getFollows_response agent;
  getAuthorFeed_response _ _ _ _ := inl (XRPCError 502 "Upstream Failure");
  latency := latency agent
|}.

(** An account with seven follows whose feeds are empty; requests settle
    in the order they were made. *)
Definition sevenFollows : list ProfileView.t :=
  map (λ name, ProfileView.mk ("did:plc:" +:+ name) (name +:+ ".test")
                 None None None)
      ["f1"; "f2"; "f3"; "f4"; "f5"; "f6"; "f7"].

Definition agentSeven : Agent := {|
  resolveHandle_response := resolveHandle_response agent;
  getFollows_response _ _ _ := inr sevenFollows;
  getAuthorFeed_response _ _ _ _ := inr (FeedPage.mk [] None);
  latency n := n
|}.

(** The store holds the caller's cursor map at location 1. *)
Definition state : State :=
  mkState {[ 1%positive := {[ "did:plc:a" := "cursor-a-1" ]} ]} 0 [].

Definition run : (exn + TimelineResult.t) * State :=
  getMergedTimeline agent getTime "root.test" (Some 1%positive) state.

Definition result : TimelineResult.t :=
  match run.1 with
  | inr r => r
  | inl _ => TimelineResult.mk [] 1%positive
  end.

(** The state once the handle is resolved. *)
Definition resolved : State :=
  mkState (heap state) 1 [Request 0 (ResolveHandle "root.test"); Settled 0].

End Demo.

(** The call resolves; its posts come newest first, the cursor map is the
    new map at location 2, and [c] was never asked for. *)
Example demo_run :
  Demo.run.1 = inr Demo.result ∧
  map Post.uri (TimelineResult.posts Demo.result)
    = ["at://a/1"; "at://b/1"; "at://a/2"; "at://x/1"] ∧
  TimelineResult.cursorMap Demo.result = 2%positive ∧
  heap Demo.run.2 !! 2%positive = Some {[ "did:plc:a" := "cursor-a-2" ]} ∧
  heap Demo.run.2 !! 1%positive = Some {[ "did:plc:a" := "cursor-a-1" ]} ∧
  trace Demo.run.2 =
    [ Request 0 (ResolveHandle "root.test"); Settled 0;
      Request 1 (GetFollows "did:plc:root" 30); Settled 1;
      Request 2 (GetAuthorFeed "did:plc:a" 10 (Some "cursor-a-1"));
      Request 3 (GetAuthorFeed "did:plc:b" 10 None);
      Request 4 (GetAuthorFeed "did:plc:d" 10 None);
      Settled 4;
      ConsoleError "Error fetching feed for d.test:"
        (XRPCError 502 "Upstream Failure");
      Settled 3; Settled 2 ].
Proof. repeat split; by vm_compute. Qed.

(** Handing the returned map to a next call sends [a]'s new token to [a],
    and no cursor to the others. *)
Example demo_load_more :
  feedRequests
    (trace (getMergedTimeline Demo.agent Demo.getTime "root.test"
              (Some (TimelineResult.cursorMap Demo.result)) Demo.run.2).2)
  = [ GetAuthorFeed "did:plc:a" 10 (Some "cursor-a-1");
      GetAuthorFeed "did:plc:b" 10 None;
      GetAuthorFeed "did:plc:d" 10 None;
      GetAuthorFeed "did:plc:a" 10 (Some "cursor-a-2");
      GetAuthorFeed "did:plc:b" 10 None;
      GetAuthorFeed "did:plc:d" 10 None ].
Proof. by vm_compute. Qed.

(** Seven follows make a batch of five and a batch of two; the second
    batch leaves once the first has settled. *)
Example demo_seven_follows :
  trace (getMergedTimeline Demo.agentSeven Demo.getTime "did:plc:root" None
           (mkState ∅ 0 [])).2
  = [ Request 0 (GetFollows "did:plc:root" 30); Settled 0;
      Request 1 (GetAuthorFeed "did:plc:f1" 10 None);
      Request 2 (GetAuthorFeed "did:plc:f2" 10 None);
      Request 3 (GetAuthorFeed "did:plc:f3" 10 None);
      Request 4 (GetAuthorFeed "did:plc:f4" 10 None);
      Request 5 (GetAuthorFeed "did:plc:f5" 10 None);
      Settled 1; Settled 2; Settled 3; Settled 4; Settled 5;
      Request 6 (GetAuthorFeed "did:plc:f6" 10 None);
      Request 7 (GetAuthorFeed "did:plc:f7" 10 None);
      Settled 6; Settled 7 ].
Proof. by vm_compute. Qed.

(** When no feed can be fetched the call still resolves, to nothing. *)
Example demo_down :
  let run := getMergedTimeline Demo.agentDown Demo.getTime "root.test" None
               (mkState ∅ 0 []) in
  (∃ r, run.1 = inr r ∧ TimelineResult.posts r = [] ∧
        heap run.2 !! TimelineResult.cursorMap r = Some ∅) ∧
  quiet (trace run.2)
  = [ Request 0 (ResolveHandle "root.test"); Settled 0;
      Request 1 (GetFollows "did:plc:root" 30); Settled 1;
      Request 2 (GetAuthorFeed "did:plc:a" 10 None);
      Request 3 (GetAuthorFeed "did:plc:b" 10 None);
      Request 4 (GetAuthorFeed "did:plc:d" 10 None);
      Settled 4; Settled 3; Settled 2 ].
Proof. split; [|by vm_compute]. eexists. by vm_compute. Qed.

(** The projection reads the reason's [$type] against one literal: a
    reason tagged with it gives [repostedBy], a reason tagged otherwise
    (here "app.bsky.feed.defs#reasonRepost") gives none. *)
Example demo_repost_tags :
  let by_b := Actor.mk "did:plc:b" "b.test" (Some "B") None in
  let tagged ty :=
    Demo.entry "at://x/1" "did:plc:x" "2024-01-01T00:00:00.000Z"
      (Some (Reason.mk (Some ty) (Some by_b))) in
  (∃ p, toPost (tagged "app.bsky.feed.defs#skeletonReasonRepost") = inr p ∧
        Post.repostedBy p
          = Some (RepostedBy.mk "did:plc:b" "b.test" (Some "B"))) ∧
  (∃ p, toPost (tagged "app.bsky.feed.defs#reasonRepost") = inr p ∧
        Post.repostedBy p = None).
Proof. split; by eexists. Qed.

Lemma demo_returns :
  getMergedTimeline Demo.agent Demo.getTime "root.test" (Some 1%positive)
    Demo.state = (inr Demo.result, Demo.run.2).
Proof. by vm_compute. Defined.

Lemma demo_cursorMapIn : cursorMapIn Demo.state (Some 1%positive).
Proof. intros l [= <-]. vm_compute. by eexists. Defined.

Lemma demo_resolved :
  resolveHandle Demo.agent "root.test" Demo.state
    = (inr "did:plc:root", Demo.resolved).
Proof. by vm_compute. Defined.

Lemma demo_follows :
  getFollows_response Demo.agent (issued Demo.resolved) "did:plc:root" 30
    = inr Demo.follows.
Proof. reflexivity. Defined.

Lemma demo_dates :
  Forall (hasDate Demo.getTime) (TimelineResult.posts Demo.result).
Proof. vm_compute. repeat (constructor; [by eexists|]). constructor. Defined.

Lemma getMergedTimeline_sorted_witness :
  getMergedTimeline Demo.agent Demo.getTime "root.test" (Some 1%positive)
    Demo.state = (inr Demo.result, Demo.run.2) ∧
  Forall (hasDate Demo.getTime) (TimelineResult.posts Demo.result) ∧
  StronglySorted (newestFirst Demo.getTime) (TimelineResult.posts Demo.result).
Proof.
  exact (conj demo_returns (conj demo_dates
           (getMergedTimeline_sorted Demo.agent Demo.getTime _ _ _ _ _
              demo_returns demo_dates))).
Defined.

(** *** A date that does not parse

    The root account follows [a], whose feed holds three posts: one of
    January 1st, one whose [indexedAt] is no date, one of January 2nd. The
    comparator answers [NaN] whenever the second post is one of the two it is
    given, and a [NaN] counts as "leave them as they are". *)

Module Undated.

Definition feed : list FeedViewPost.t :=
  [ Demo.entry "at://a/1" "did:plc:a" "2024-01-01T00:00:00.000Z" None;
    Demo.entry "at://a/2" "did:plc:a" "not a date" None;
    Demo.entry "at://a/3" "did:plc:a" "2024-01-02T00:00:00.000Z" None ].

Definition agent : Agent := {|
  resolveHandle_response := resolveHandle_response Demo.agent;
  getFollows_response _ _ _ :=
    inr [ProfileView.mk "did:plc:a" "a.test" None None None];
  getAuthorFeed_response _ _ _ _ := inr (FeedPage.mk feed None);
  latency n := n
|}.

End Undated.

(** [p] may stand before [q] in a newest-first sequence: when both dates
    parse, [q] is not the more recent. A post without a date is in nobody's
    way. *)
Definition notOlder (Date_getTime : string → option Z) (p q : Post.t) : Prop :=
  ∀ tp tq,
    Date_getTime (Post.indexedAt p) = Some tp →
    Date_getTime (Post.indexedAt q) = Some tq →
    tq ≤ tp.

(** C1, as stated, fails: the call resolves and returns the three posts
    in the order they were fetched, the post of January 1st before the post
    of January 2nd. (V8 starts its sort by looking for a run: it compares
    the second element with the first and the third with the second; both
    comparisons are [NaN], which counts as zero, so the three elements are
    one run and the array is left as it is. The sort of this file gives the
    same order.) The posts are not in newest-first order even when a post
    without a date is allowed to stand anywhere. *)
Lemma getMergedTimeline_sorted_counterexample :
  ∃ r σ',
    getMergedTimeline Undated.agent Demo.getTime "did:plc:root" None
      (mkState ∅ 0 []) = (inr r, σ') ∧
    map Post.indexedAt (TimelineResult.posts r)
      = ["2024-01-01T00:00:00.000Z"; "not a date"; "2024-01-02T00:00:00.000Z"] ∧
    ¬ StronglySorted (notOlder Demo.getTime) (TimelineResult.posts r) ∧
    ¬ StronglySorted (newestFirst Demo.getTime) (TimelineResult.posts r).
Proof.
  eexists _, _. split; [by vm_compute|]. split; [by vm_compute|].
  assert (¬ StronglySorted (notOlder Demo.getTime)
            (map (λ f, match toPost f with
                       | inr p => p
                       | inl _ => Post.mk "" "" (Author.mk "" "" None None)
                                    (PostRecord.mk "" "" None) None "" None
                       end) Undated.feed)) as Hnot.
  { intros [_ Hfirst%Forall_cons_1]%StronglySorted_inv.
    destruct Hfirst as [_ [Hthird _]%Forall_cons_1].
    specialize (Hthird 1704067200000 1704153600000 eq_refl eq_refl). lia. }
  split; [exact Hnot|].
  intros Hsorted. apply Hnot. clear Hnot.
  change (StronglySorted (newestFirst Demo.getTime)
            (map (λ f, match toPost f with
                       | inr p => p
                       | inl _ => Post.mk "" "" (Author.mk "" "" None None)
                                    (PostRecord.mk "" "" None) None "" None
                       end) Undated.feed)) in Hsorted.
  induction Hsorted as [|p l _ IH Hp]; constructor; [done|].
  eapply Forall_impl; [exact Hp|].
  intros q (tp & tq & Hp' & Hq' & Hle) tp' tq' Hp'' Hq''.
  rewrite Hp' in Hp''. rewrite Hq' in Hq''.
  injection Hp'' as <-. injection Hq'' as <-. exact Hle.
Qed.

Lemma getMergedTimeline_excludes_root_witness :
  getMergedTimeline Demo.agent Demo.getTime "root.test" (Some 1%positive)
    Demo.state = (inr Demo.result, Demo.run.2) ∧
  ∃ did σ1,
    resolveHandle Demo.agent "root.test" Demo.state = (inr did, σ1) ∧
    Forall (λ p, Author.did (Post.author p) ≠ did)
           (TimelineResult.posts Demo.result).
Proof.
  exact (conj demo_returns
           (getMergedTimeline_excludes_root Demo.agent Demo.getTime _ _ _ _ _
              demo_returns)).
Defined.

Lemma demo_down_resolved :
  resolveHandle Demo.agentDown "root.test" Demo.state
    = (inr "did:plc:root", Demo.resolved).
Proof. by vm_compute. Defined.

Lemma demo_down_failed :
  Forall (λ p, ∃ e, p_response p = inl e)
    (pendings Demo.agentDown (heap Demo.state) (Some 1%positive)
       (S (issued Demo.resolved)) (keptFollows Demo.follows)).
Proof. vm_compute. repeat (constructor; [by eexists|]). constructor. Defined.

Lemma fetch_failures_are_absorbed_witness :
  cursorMapIn Demo.state (Some 1%positive) ∧
  resolveHandle Demo.agentDown "root.test" Demo.state
    = (inr "did:plc:root", Demo.resolved) ∧
  getFollows_response Demo.agentDown (issued Demo.resolved) "did:plc:root" 30
    = inr Demo.follows ∧
  Forall (λ p, ∃ e, p_response p = inl e)
    (pendings Demo.agentDown (heap Demo.state) (Some 1%positive)
       (S (issued Demo.resolved)) (keptFollows Demo.follows)) ∧
  ∃ r σ',
    getMergedTimeline Demo.agentDown Demo.getTime "root.test"
      (Some 1%positive) Demo.state = (inr r, σ') ∧
    TimelineResult.posts r = [] ∧
    heap σ' !! TimelineResult.cursorMap r = Some ∅.
Proof.
  exact (conj demo_cursorMapIn (conj demo_down_resolved (conj eq_refl
          (conj demo_down_failed
            (proj2 (proj2 (fetch_failures_are_absorbed Demo.agentDown
                             Demo.getTime "root.test" (Some 1%positive)
                             Demo.state)
                      _ _ _ demo_cursorMapIn demo_down_resolved eq_refl)
               demo_down_failed))))).
Defined.

Lemma feed_requests_carry_own_cursor_witness :
  cursorMapIn Demo.state (Some 1%positive) ∧
  ∃ evs,
    trace (getMergedTimeline Demo.agent Demo.getTime "root.test"
             (Some 1%positive) Demo.state).2 = trace Demo.state ++ evs ∧
    (∀ n actor limit cursor,
       Request n (GetAuthorFeed actor limit cursor) ∈ evs →
       cursor = lookupMap (heap Demo.state) (Some 1%positive) actor) ∧
    (∀ r, (getMergedTimeline Demo.agent Demo.getTime "root.test"
             (Some 1%positive) Demo.state).1 = inr r →
       ∃ did σ1 res,
         resolveHandle Demo.agent "root.test" Demo.state = (inr did, σ1) ∧
         getFollows_response Demo.agent (issued σ1) did 30 = inr res ∧
         feedRequests evs =
           map (λ f, GetAuthorFeed (ProfileView.did f) 10
                       (lookupMap (heap Demo.state) (Some 1%positive)
                                  (ProfileView.did f)))
               (keptFollows res) ∧
         let σ' := (getMergedTimeline Demo.agent Demo.getTime "root.test"
                      (Some 1%positive) Demo.state).2 in
         ∀ handle', ∃ evs',
           trace (getMergedTimeline Demo.agent Demo.getTime handle'
                    (Some (TimelineResult.cursorMap r)) σ').2
             = trace σ' ++ evs' ∧
           ∀ n actor limit cursor c,
             Request n (GetAuthorFeed actor limit cursor) ∈ evs' →
             cursor = Some c →
             ∃ p, p ∈ pendings Demo.agent (heap Demo.state) (Some 1%positive)
                        (S (issued σ1)) (keptFollows res) ∧
                  ProfileView.did (p_profile p) = actor ∧
                  returnedToken p c).
Proof.
  exact (conj demo_cursorMapIn
           (feed_requests_carry_own_cursor Demo.agent Demo.getTime _ _ _
              demo_cursorMapIn)).
Defined.

Lemma batches_of_five_witness :
  cursorMapIn Demo.state (Some 1%positive) ∧
  getMergedTimeline Demo.agent Demo.getTime "root.test" (Some 1%positive)
    Demo.state = (inr Demo.result, Demo.run.2) ∧
  ∃ did σ1 res,
    resolveHandle Demo.agent "root.test" Demo.state = (inr did, σ1) ∧
    getFollows_response Demo.agent (issued σ1) did 30 = inr res ∧
    let follows := keptFollows res in
    let batches := batchesFrom follows 0 in
    let pbs := batchesFrom (pendings Demo.agent (heap Demo.state)
                              (Some 1%positive) (S (issued σ1)) follows) 0 in
    concat batches = follows ∧
    (∀ k, batches !! k =
          if decide (5 * k < length follows)%nat
          then Some (take 5 (drop (5 * k) follows)) else None) ∧
    (∀ batch, batch ∈ batches → (1 ≤ length batch ≤ 5)%nat) ∧
    (length follows = 23%nat → map length batches = [5; 5; 5; 5; 3]%nat) ∧
    map (map p_profile) pbs = batches ∧
    let loopEvents :=
      concat (map (λ pb, map requestEvent pb ++
                         concat (map settleEvents
                                   (completionOrder Demo.agent pb))) pbs) in
    trace Demo.run.2 = trace σ1 ++ followsEvents did σ1 ++ loopEvents ∧
    (inFlightMax ∅ loopEvents ≤ 5)%nat ∧
    ∃ batchPosts,
      Forall2 (λ pb posts,
                 Array_map_toPost
                   (notBy did (concat (map resolvedFeed pb))) = inr posts)
              pbs batchPosts ∧
      TimelineResult.posts Demo.result
        = Array_sort (comparefn Demo.getTime) (concat batchPosts).
Proof.
  exact (conj demo_cursorMapIn (conj demo_returns
           (batches_of_five Demo.agent Demo.getTime _ _ _ _ _
              demo_cursorMapIn demo_returns))).
Defined.

Lemma unauthenticated_follows_are_dropped_witness :
  cursorMapIn Demo.state (Some 1%positive) ∧
  resolveHandle Demo.agent "root.test" Demo.state
    = (inr "did:plc:root", Demo.resolved) ∧
  getFollows_response Demo.agent (issued Demo.resolved) "did:plc:root" 30
    = inr Demo.follows ∧
  let kept := filter (λ profile, ¬ requiresAuth profile) Demo.follows in
  ∃ evs,
    trace (getMergedTimeline Demo.agent Demo.getTime "root.test"
             (Some 1%positive) Demo.state).2 = trace Demo.state ++ evs ∧
    (∀ n actor limit cursor,
       Request n (GetAuthorFeed actor limit cursor) ∈ evs →
       ∃ f, f ∈ kept ∧ ProfileView.did f = actor) ∧
    (∀ r, (getMergedTimeline Demo.agent Demo.getTime "root.test"
             (Some 1%positive) Demo.state).1 = inr r →
       feedRequests evs
         = map (feedCall (heap Demo.state) (Some 1%positive)) kept ∧
       (∀ p, p ∈ TimelineResult.posts r →
          ∃ q entry,
            q ∈ pendings Demo.agent (heap Demo.state) (Some 1%positive)
                  (S (issued Demo.resolved)) kept ∧
            p_profile q ∈ kept ∧
            entry ∈ resolvedFeed q ∧ toPost entry = inr p) ∧
       ∃ m,
         heap (getMergedTimeline Demo.agent Demo.getTime "root.test"
                 (Some 1%positive) Demo.state).2 !! TimelineResult.cursorMap r
           = Some m ∧
         ∀ d, is_Some (m !! d) → ∃ f, f ∈ kept ∧ ProfileView.did f = d).
Proof.
  exact (conj demo_cursorMapIn (conj demo_resolved (conj demo_follows
           (unauthenticated_follows_are_dropped Demo.agent Demo.getTime
              _ _ _ _ _ _ demo_cursorMapIn demo_resolved demo_follows)))).
Defined.

Lemma cursorMap_fresh_and_input_untouched_witness :
  cursorMapIn Demo.state (Some 1%positive) ∧
  (∀ l, is_Some (heap Demo.state !! l) →
     heap (getMergedTimeline Demo.agent Demo.getTime "root.test"
             (Some 1%positive) Demo.state).2 !! l = heap Demo.state !! l) ∧
  (∀ r, (getMergedTimeline Demo.agent Demo.getTime "root.test"
           (Some 1%positive) Demo.state).1 = inr r →
     heap Demo.state !! TimelineResult.cursorMap r = None ∧
     ∃ did σ1 res m,
       resolveHandle Demo.agent "root.test" Demo.state = (inr did, σ1) ∧
       getFollows_response Demo.agent (issued σ1) did 30 = inr res ∧
       heap (getMergedTimeline Demo.agent Demo.getTime "root.test"
               (Some 1%positive) Demo.state).2 !! TimelineResult.cursorMap r
         = Some m ∧
       let ps := pendings Demo.agent (heap Demo.state) (Some 1%positive)
                   (S (issued σ1)) (keptFollows res) in
       ∀ d,
         (is_Some (m !! d) ↔
            ∃ p c, p ∈ ps ∧ ProfileView.did (p_profile p) = d ∧
                   returnedToken p c) ∧
         (∀ c, m !! d = Some c →
            ∃ p, p ∈ ps ∧ ProfileView.did (p_profile p) = d ∧
                 returnedToken p c)).
Proof.
  exact (conj demo_cursorMapIn
           (cursorMap_fresh_and_input_untouched Demo.agent Demo.getTime _ _ _
              demo_cursorMapIn)).
Defined.

Lemma self_post_filter_keys_on_author_witness :
  cursorMapIn Demo.state (Some 1%positive) ∧
  getMergedTimeline Demo.agent Demo.getTime "root.test" (Some 1%positive)
    Demo.state = (inr Demo.result, Demo.run.2) ∧
  ∃ did σ1 res,
    resolveHandle Demo.agent "root.test" Demo.state = (inr did, σ1) ∧
    getFollows_response Demo.agent (issued σ1) did 30 = inr res ∧
    let ps := pendings Demo.agent (heap Demo.state) (Some 1%positive)
                (S (issued σ1)) (keptFollows res) in
    ∀ q f, q ∈ ps → f ∈ resolvedFeed q →
      (Actor.did (PostView.author (FeedViewPost.post f)) = did →
         ∀ p, toPost f = inr p → p ∉ TimelineResult.posts Demo.result) ∧
      (Actor.did (PostView.author (FeedViewPost.post f)) ≠ did →
         ∃ p, toPost f = inr p ∧ p ∈ TimelineResult.posts Demo.result).
Proof.
  exact (conj demo_cursorMapIn (conj demo_returns
           (self_post_filter_keys_on_author Demo.agent Demo.getTime _ _ _ _ _
              demo_cursorMapIn demo_returns))).
Defined.

(** ** More of the service

    Properties of [getMergedTimeline] and [getUserTimeline] beyond the ones
    above: how they fail, what they do at the edges, and how two calls
    compose. *)

Section MoreOfTheService.

Variable agent : Agent.
Variable Date_getTime : string → option Z.

Lemma Array_map_toPost_failure feed e :
  Array_map_toPost feed = inl e → ∃ f, f ∈ feed ∧ toPost f = inl e.
Proof.
  induction feed as [|f feed IH]; simpl; [done|].
  destruct (toPost f) as [e'|p] eqn:Ef.
  - intros [= ->]. exists f. split; [by left|done].
  - destruct (Array_map_toPost feed) as [e'|ps]; [|done].
    intros [= ->]. destruct (IH eq_refl) as (g & Hg & Hge).
    exists g. split; [by right|done].
Qed.

Lemma toPost_failure f e :
  toPost f = inl e → ∃ message, e = TypeError message.
Proof.
  unfold toPost, repostedByOf.
  destruct (isRepost (FeedViewPost.reason f)); [|done].
  destruct (FeedViewPost.reason f ≫= Reason.by_); [done|].
  intros [= <-]. by eexists.
Qed.

(** X1: the three ways [getMergedTimeline] rejects. The error is the one
    the agent answered the handle resolution with, and then nothing else
    was asked; or the one it answered the follows request with, and then no
    feed was asked for and the store is as it was; or it is the [TypeError]
    of projecting an entry that came back. The error of a feed request is
    never what the call rejects with. *)
Theorem getMergedTimeline_rejections handle cm σ e :
  (getMergedTimeline agent Date_getTime handle cm σ).1 = inl e →
  let σ' := (getMergedTimeline agent Date_getTime handle cm σ).2 in
  (String.prefix "did:" handle = false ∧
   resolveHandle_response agent (issued σ) handle = inl e ∧
   heap σ' = heap σ ∧
   trace σ' = trace σ ++ [Request (issued σ) (ResolveHandle handle);
                          Settled (issued σ)]) ∨
  (∃ did σ1,
     resolveHandle agent handle σ = (inr did, σ1) ∧
     getFollows_response agent (issued σ1) did 30 = inl e ∧
     heap σ' = heap σ ∧
     trace σ' = trace σ1 ++ [Request (issued σ1) (GetFollows did 30);
                             Settled (issued σ1)]) ∨
  (∃ message entry,
     e = TypeError message ∧ answered agent entry ∧ toPost entry = inl e).
Proof.
  rewrite getMergedTimeline_run.
  pose proof (resolveHandle_heap agent handle σ) as Hh.
  pose proof (resolveHandle_run agent handle σ) as Hrun.
  destruct (resolveHandle agent handle σ) as [[e'|did] σ1]; simpl in Hh.
  - simpl. intros [= ->]. left.
    destruct (String.prefix "did:" handle); [done|].
    by injection Hrun as <- ->.
  - destruct (getFollows_response agent (issued σ1) did 30) as [e'|res] eqn:Hfol.
    + simpl. intros [= ->]. right; left. by exists did, σ1.
    + cbv zeta.
      pose proof (runBatches_spec agent did cm (fresh (dom (heap σ1)))
                    (batchesFrom (keptFollows res) 0) [] (loopStart did σ1))
        as Hspec. cbv zeta in Hspec.
      destruct (runBatches _ _ _ _ _ _ _) as [[e'|allPosts] σ2]; [|done].
      simpl. intros [= ->]. right; right.
      destruct Hspec as [_ (pb & Hpb & He)].
      apply Array_map_toPost_failure in He as (f & Hf & Hfe).
      destruct (toPost_failure _ _ Hfe) as [message ->].
      exists message, f. split; [done|]. split; [|done].
      unfold notBy in Hf. apply list_elem_of_filter in Hf as [_ Hf].
      apply elem_of_concat in Hf as (feed & (p & -> & Hp)%elem_of_map & Hf).
      apply elem_of_resolvedFeed in Hf as (page & Hpage & Hf).
      exists (p_request p), (ProfileView.did (p_profile p)), (p_cursor p), page.
      split; [|done].
      by rewrite <- (elem_of_requestsOf agent _ _ _ _ _ _ Hpb Hp).
Qed.

(** *** getUserTimeline *)

Lemma Forall2_toPost_Array_map feed posts :
  Forall2 (λ f p, toPost f = inr p) feed posts →
  Array_map_toPost feed = inr posts.
Proof.
  induction 1 as [|f p feed posts Hf _ IH]; simpl; [done|].
  by rewrite Hf, IH.
Qed.

Lemma getUserTimeline_run actor σ :
  getUserTimeline agent actor σ =
    (match getAuthorFeed_response agent (issued σ) actor 20 None with
     | inl e => inl e
     | inr page => Array_map_toPost (FeedPage.feed page)
     end,
     mkState (heap σ) (S (issued σ))
             (trace σ ++ [Request (issued σ) (GetAuthorFeed actor 20 None);
                          Settled (issued σ)])).
Proof.
  unfold getUserTimeline, getAuthorFeed.
  rewrite !bind_run, agent_getAuthorFeed_run.
  destruct (getAuthorFeed_response agent (issued σ) actor 20 None)
    as [e|page]; [done|].
  cbn [mret M_ret]. unfold liftE.
  by destruct (Array_map_toPost (FeedPage.feed page)).
Qed.

(** X2: [getUserTimeline] asks once, for the first 20 entries of the
    actor's feed and never with a cursor, and leaves the store alone. A
    failure of that request is what the call rejects with: nothing is caught
    here. Otherwise the posts are the projections of the entries of the
    page, one for one and in the page's order, whoever their author is; the
    only other rejection is the [TypeError] of projecting one of them. *)
Theorem getUserTimeline_spec actor σ :
  let run := getUserTimeline agent actor σ in
  heap run.2 = heap σ ∧
  trace run.2 = trace σ ++ [Request (issued σ) (GetAuthorFeed actor 20 None);
                            Settled (issued σ)] ∧
  match getAuthorFeed_response agent (issued σ) actor 20 None with
  | inl e => run.1 = inl e
  | inr page =>
      (∀ posts, run.1 = inr posts ↔
                Forall2 (λ f p, toPost f = inr p) (FeedPage.feed page) posts) ∧
      (∀ e, run.1 = inl e →
            ∃ f message,
              f ∈ FeedPage.feed page ∧ toPost f = inl e ∧ e = TypeError message) ∧
      (Forall projectable (FeedPage.feed page) → ∃ posts, run.1 = inr posts)
  end.
Proof.
  rewrite getUserTimeline_run. cbv zeta. cbn [fst snd heap trace].
  destruct (getAuthorFeed_response agent (issued σ) actor 20 None)
    as [e|page]; [done|].
  destruct (Array_map_toPost (FeedPage.feed page)) as [e|posts] eqn:Hmap;
    (split; [done|]; split; [done|]).
  - split; [|split].
    + intros posts. split; [done|].
      intros H%Forall2_toPost_Array_map. congruence.
    + intros e' [= <-].
      apply Array_map_toPost_failure in Hmap as (f & Hf & Hfe).
      destruct (toPost_failure _ _ Hfe) as [message ->]. by exists f, message.
    + intros [posts Hposts]%Array_map_toPost_projectable. congruence.
  - split; [|split].
    + intros posts'. split.
      * intros [= <-]. by apply Array_map_toPost_Forall2.
      * intros H%Forall2_toPost_Array_map. congruence.
    + done.
    + intros _. by exists posts.
Qed.

(** *** The edges of getMergedTimeline *)

Lemma keptFollows_none res :
  Forall requiresAuth res → keptFollows res = [].
Proof.
  rewrite keptFollows_spec.
  induction 1 as [|profile res Hp _ IH]; [done|].
  rewrite filter_cons. by destruct (decide (¬ requiresAuth profile)).
Qed.

(** X3: when the root account follows nobody, or only accounts that ask
    for an authenticated viewer, the call resolves with no post and a new,
    empty cursor map, and no feed is asked for: the follows request is the
    last one made. *)
Theorem getMergedTimeline_no_follows handle cm σ did σ1 res :
  resolveHandle agent handle σ = (inr did, σ1) →
  getFollows_response agent (issued σ1) did 30 = inr res →
  Forall requiresAuth res →
  getMergedTimeline agent Date_getTime handle cm σ =
    (inr (TimelineResult.mk [] (fresh (dom (heap σ)))),
     mkState (<[fresh (dom (heap σ)) := ∅]> (heap σ)) (S (issued σ1))
             (trace σ1 ++ [Request (issued σ1) (GetFollows did 30);
                           Settled (issued σ1)])).
Proof.
  intros Hres Hfol Hall.
  pose proof (resolveHandle_heap agent handle σ) as Hh.
  rewrite Hres in Hh. simpl in Hh.
  rewrite getMergedTimeline_run, Hres, Hfol. cbv zeta.
  rewrite (keptFollows_none _ Hall), batchesFrom_step. simpl.
  unfold loopStart. by rewrite Hh.
Qed.

(** *** The merge *)

Lemma sort_insert_filter_time (t : option Z) x l :
  filter (λ p, Date_getTime (Post.indexedAt p) = t)
         (sort_insert (comparefn Date_getTime) x l)
  = filter (λ p, Date_getTime (Post.indexedAt p) = t) (x :: l).
Proof.
  induction l as [|y l IH]; [done|].
  cbn [sort_insert]. unfold SortCompare, comparefn at 1.
  destruct (Date_getTime (Post.indexedAt y)) as [ty|] eqn:Hy;
    [destruct (Date_getTime (Post.indexedAt x)) as [tx|] eqn:Hx|]; [|done..].
  destruct (Z.ltb_spec 0 (ty - tx)) as [Hlt|]; [|done].
  rewrite (filter_cons _ y), IH, !filter_cons.
  destruct (decide (Date_getTime (Post.indexedAt x) = t)) as [Hxt|];
    destruct (decide (Date_getTime (Post.indexedAt y) = t)) as [Hyt|];
    try done.
  rewrite Hx in Hxt. rewrite Hy in Hyt. subst t. injection Hyt as ->. lia.
Qed.

Lemma Array_sort_filter_time (t : option Z) l :
  filter (λ p, Date_getTime (Post.indexedAt p) = t)
         (Array_sort (comparefn Date_getTime) l)
  = filter (λ p, Date_getTime (Post.indexedAt p) = t) l.
Proof.
  induction l as [|x l IH]; [done|].
  cbn [Array_sort]. rewrite sort_insert_filter_time, !filter_cons, IH. done.
Qed.

(** X4: the sort neither loses nor duplicates a post, and with dates that
    parse it is stable. The posts of a resolved call are, up to order, the
    projections of the fetched entries whose author is not the root account,
    one for each. When the [indexedAt] of every returned post is a date, the
    posts that have one and the same time value come in the order in which
    they were fetched: follow after follow, and within a follow in feed
    order. (With a date that does not parse the comparator is not
    consistent, and the order is the engine's business.) *)
Theorem getMergedTimeline_merge_is_stable handle cm σ r σ' :
  cursorMapIn σ cm →
  getMergedTimeline agent Date_getTime handle cm σ = (inr r, σ') →
  ∃ did σ1 res allPosts,
    resolveHandle agent handle σ = (inr did, σ1) ∧
    getFollows_response agent (issued σ1) did 30 = inr res ∧
    Forall2 (λ f p, toPost f = inr p)
      (notBy did (concat (map resolvedFeed
         (pendings agent (heap σ) cm (S (issued σ1)) (keptFollows res)))))
      allPosts ∧
    TimelineResult.posts r ≡ₚ allPosts ∧
    (Forall (hasDate Date_getTime) (TimelineResult.posts r) →
     ∀ t : Z,
       filter (λ p, Date_getTime (Post.indexedAt p) = Some t)
              (TimelineResult.posts r)
       = filter (λ p, Date_getTime (Post.indexedAt p) = Some t) allPosts).
Proof.
  intros Hcm Hrun.
  destruct (getMergedTimeline_resolved agent Date_getTime _ _ _ _ _ Hcm Hrun)
    as (did & σ1 & res & allPosts & Hres & Hfol & _ & _ & _ & Hmap & Hposts).
  exists did, σ1, res, allPosts. rewrite Hposts.
  split; [done|]. split; [done|].
  split; [by apply Array_map_toPost_Forall2|].
  split; [apply Array_sort_Permutation|].
  intros _ t. apply Array_sort_filter_time.
Qed.

(** *** The order in which the answers arrive *)

(** The same agent with other response times. *)
Definition withLatency (lat : nat → nat) : Agent := {|
  resolveHandle_response := resolveHandle_response agent;
  getFollows_response := getFollows_response agent;
  getAuthorFeed_response := getAuthorFeed_response agent;
  latency := lat
|}.

Lemma settledMap_comm p q m :
  ProfileView.did (p_profile p) ≠ ProfileView.did (p_profile q) →
  settledMap p (settledMap q m) = settledMap q (settledMap p m).
Proof.
  intros Hne. unfold settledMap.
  destruct (tokenOf p), (tokenOf q); try done.
  by apply insert_insert_ne.
Qed.

Lemma settledAll_Permutation ps ps' m :
  ps ≡ₚ ps' →
  NoDup (map (λ p, ProfileView.did (p_profile p)) ps) →
  settledAll ps m = settledAll ps' m.
Proof.
  intros Hp. revert m.
  induction Hp as [|p ps ps' _ IH|p q ps|ps ps' ps'' Hp1 IH1 Hp2 IH2];
    intros m Hnd.
  - done.
  - apply NoDup_cons in Hnd as [_ Hnd]. apply (IH _ Hnd).
  - apply NoDup_cons in Hnd as [Hq _].
    unfold settledAll. cbn [foldl]. rewrite settledMap_comm; [done|].
    intros Heq. apply Hq. rewrite <- Heq. by left.
  - rewrite (IH1 _ Hnd). apply IH2.
    by rewrite <- (Permutation_map (λ p, ProfileView.did (p_profile p)) Hp1).
Qed.

(** X5: the answers of a batch may arrive in any order without the result
    changing. If the call resolves, it resolves to the same posts and to the
    same map reference whatever the response times are, after the same feed
    requests; and when no two of the follows used share a [did], the store,
    and with it the content of the new cursor map, is the same too. *)
Theorem getMergedTimeline_latency_independent lat handle cm σ r σ' :
  cursorMapIn σ cm →
  getMergedTimeline agent Date_getTime handle cm σ = (inr r, σ') →
  ∃ σ'',
    getMergedTimeline (withLatency lat) Date_getTime handle cm σ
      = (inr r, σ'') ∧
    feedRequests (trace σ'') = feedRequests (trace σ') ∧
    ∀ did σ1 res,
      resolveHandle agent handle σ = (inr did, σ1) →
      getFollows_response agent (issued σ1) did 30 = inr res →
      NoDup (map ProfileView.did (keptFollows res)) →
      heap σ'' = heap σ'.
Proof.
  intros Hcm Hrun.
  destruct (getMergedTimeline_resolved agent Date_getTime _ _ _ _ _ Hcm Hrun)
    as (did & σ1 & res & allPosts & Hres & Hfol & Hncm & Hheap & Htrace
        & Hmap & Hposts).
  pose proof (getMergedTimeline_cases (withLatency lat) Date_getTime
                handle cm σ Hcm) as Hc.
  change (resolveHandle (withLatency lat) handle σ)
    with (resolveHandle agent handle σ) in Hc.
  rewrite Hres in Hc.
  change (getFollows_response (withLatency lat) (issued σ1) did 30)
    with (getFollows_response agent (issued σ1) did 30) in Hc.
  rewrite Hfol in Hc. cbv zeta in Hc.
  change (pendings (withLatency lat)) with (pendings agent) in Hc.
  set (ps := pendings agent (heap σ) cm (S (issued σ1)) (keptFollows res)) in *.
  destruct Hc as (k & out & σ'' & Hrun' & Hheap' & Htrace' & Hout).
  destruct out as [e|r'].
  { destruct Hout as (pb & Hpb & He).
    rewrite <- (batchesFrom_partition ps) in Hmap.
    apply Array_map_toPost_batches in Hmap as (batchPosts & Hall & _).
    apply list_elem_of_lookup in Hpb as [i Hi].
    destruct (Forall2_lookup_l _ _ _ _ _ Hall Hi) as (posts & _ & Hok).
    congruence. }
  destruct Hout as (Htake & Hncm' & allPosts' & Hmap' & Hposts').
  rewrite Htake in Hheap', Htrace'.
  assert (r' = r) as ->.
  { destruct r, r'. simpl in *. congruence. }
  exists σ''. split; [done|]. split.
  - rewrite Htrace, Htrace', !feedRequests_app, !feedRequests_batchEvents. done.
  - intros did' σ1' res' Hres' Hfol' Hnd.
    rewrite Hres in Hres'. injection Hres' as <- <-.
    rewrite Hfol in Hfol'. injection Hfol' as <-.
    rewrite Hheap, Hheap', Hncm. f_equal.
    assert (NoDup (map (λ p, ProfileView.did (p_profile p)) ps)) as Hnd'.
    { rewrite <- (pendings_profiles agent (heap σ) cm (S (issued σ1))
                    (keptFollows res)), map_map in Hnd. exact Hnd. }
    transitivity (settledAll ps ∅).
    + symmetry. apply settledAll_Permutation; [|done].
      symmetry. rewrite concat_completionOrder_Permutation.
      by rewrite batchesFrom_partition.
    + apply settledAll_Permutation; [|done].
      symmetry. rewrite concat_completionOrder_Permutation.
      by rewrite batchesFrom_partition.
Qed.

End MoreOfTheService.

(** ** Reposts

    What a feed entry may carry as its [reason] is declared by the lexicon
    app.bsky.feed.defs, which the service has from @atproto/api. The
    [reason] of an entry of an author feed (a [feedViewPost]) is a
    [#reasonRepost], which names the reposting actor in [by], or a
    [#reasonPin]. The tag [#skeletonReasonRepost] is that of the entries of
    a feed skeleton: such a reason holds the uri of the repost record, and no
    [by]. *)

Definition reasonRepost (by_ : Actor.t) : Reason.t :=
  Reason.mk (Some "app.bsky.feed.defs#reasonRepost") (Some by_).

Definition reasonPin : Reason.t :=
  Reason.mk (Some "app.bsky.feed.defs#reasonPin") None.

Definition skeletonReasonRepost : Reason.t :=
  Reason.mk (Some "app.bsky.feed.defs#skeletonReasonRepost") None.

(** The [reason] of an entry of an author feed. *)
Definition feedReason (reason : option Reason.t) : Prop :=
  reason = None ∨ reason = Some reasonPin ∨
  ∃ by_, reason = Some (reasonRepost by_).

(** The account [b] has reposted a post of [x]; its feed shows the repost
    the way author feeds do. *)
Module Reposts.

Definition by_b : Actor.t := Actor.mk "did:plc:b" "b.test" (Some "B") None.

Definition repost : FeedViewPost.t :=
  Demo.entry "at://x/1" "did:plc:x" "2024-01-01T00:00:00.000Z"
    (Some (reasonRepost by_b)).

Definition agent : Agent := {|
  resolveHandle_response := resolveHandle_response Demo.agent;
  getFollows_response _ _ _ :=
    inr [ProfileView.mk "did:plc:b" "b.test" (Some "B") None None];
  getAuthorFeed_response _ _ _ _ := inr (FeedPage.mk [repost] None);
  latency n := n
|}.

End Reposts.

Lemma toPost_feedReason f p :
  toPost f = inr p → feedReason (FeedViewPost.reason f) →
  Post.repostedBy p = None.
Proof.
  intros Hp Hreason. pose proof (toPost_repostedBy f p Hp) as H.
  by destruct Hreason as [Hr|[Hr|[by_ Hr]]]; rewrite Hr in H.
Qed.

(** C9: a repost is not marked. The projection reads the reason's tag
    against the skeleton tag and then reads the reason's [by]: an entry
    whose reason is a [#reasonRepost], the reason by which an author feed
    marks a repost, is projected without [repostedBy]; a reason of the shape
    that goes with the tag tested has no [by], and projecting it throws;
    [repostedBy] is populated only for a reason that has the skeleton tag
    and a [by] at once. So on entries as author feeds give them, neither
    [getUserTimeline] nor [getMergedTimeline] returns a post with
    [repostedBy], and the repost of the example comes back unmarked from
    both. *)
Theorem reposts_are_not_marked :
  (∀ post by_,
     ∃ p, toPost (FeedViewPost.mk post (Some (reasonRepost by_))) = inr p ∧
          Post.repostedBy p = None) ∧
  (∀ post,
     ∃ message,
       toPost (FeedViewPost.mk post (Some skeletonReasonRepost))
         = inl (TypeError message)) ∧
  (∀ f p repostedBy,
     toPost f = inr p → Post.repostedBy p = Some repostedBy →
     ∃ reason by_,
       FeedViewPost.reason f = Some reason ∧
       Reason.type_ reason = Some "app.bsky.feed.defs#skeletonReasonRepost" ∧
       Reason.by_ reason = Some by_ ∧
       repostedBy = RepostedBy.mk (Actor.did by_) (Actor.handle by_)
                                  (Actor.displayName by_)) ∧
  (∀ agent actor σ page posts,
     getAuthorFeed_response agent (issued σ) actor 20 None = inr page →
     Forall (λ f, feedReason (FeedViewPost.reason f)) (FeedPage.feed page) →
     (getUserTimeline agent actor σ).1 = inr posts →
     Forall (λ p, Post.repostedBy p = None) posts) ∧
  (∀ agent Date_getTime handle cm σ r,
     (∀ f, answered agent f → feedReason (FeedViewPost.reason f)) →
     (getMergedTimeline agent Date_getTime handle cm σ).1 = inr r →
     Forall (λ p, Post.repostedBy p = None) (TimelineResult.posts r)) ∧
  (∃ posts,
     (getUserTimeline Reposts.agent "did:plc:b" (mkState ∅ 0 [])).1
       = inr posts ∧
     map Post.uri posts = ["at://x/1"] ∧
     map Post.repostedBy posts = [None]) ∧
  (∃ r,
     (getMergedTimeline Reposts.agent Demo.getTime "did:plc:root" None
        (mkState ∅ 0 [])).1 = inr r ∧
     map Post.uri (TimelineResult.posts r) = ["at://x/1"] ∧
     map Post.repostedBy (TimelineResult.posts r) = [None]).
Proof.
  split; [|split; [|split; [|split; [|split; [|split]]]]].
  - intros post by_. by eexists.
  - intros post. by eexists.
  - intros f p repostedBy Hp Hby.
    pose proof (toPost_repostedBy f p Hp) as H.
    unfold isRepost in H.
    destruct (FeedViewPost.reason f) as [reason|]; [|congruence].
    destruct (Reason.type_ reason) as [ty|] eqn:Hty; [|congruence].
    destruct (String.eqb_spec ty "app.bsky.feed.defs#skeletonReasonRepost")
      as [->|]; [|congruence].
    destruct H as (by_ & Hr & Hrb). exists reason, by_.
    split; [done|]. split; [done|]. split; [done|]. congruence.
  - intros agent actor σ page posts Hpage Hall.
    rewrite getUserTimeline_run, Hpage. cbn [fst]. intros Hposts.
    apply Array_map_toPost_Forall2 in Hposts.
    induction Hposts as [|f p feed posts Hf _ IH]; [constructor|].
    apply Forall_cons in Hall as [Hreason Hall].
    constructor; [by apply (toPost_feedReason f)|by apply IH].
  - intros agent Date_getTime handle cm σ r Hall Hrun.
    destruct (getMergedTimeline agent Date_getTime handle cm σ)
      as [out σ'] eqn:Hrun'. simpl in Hrun. subst out.
    apply getMergedTimeline_posts in Hrun'
      as (did & σ1 & feed & allPosts & _ & Hans & Hmap & ->).
    rewrite Array_sort_Permutation. apply Forall_forall. intros p Hp.
    destruct (Array_map_toPost_elem _ _ _ Hmap Hp) as (f & Hf & Hfp).
    apply (toPost_feedReason f); [done|]. apply Hall.
    apply elem_of_notBy in Hf as [Hf _]; [|exact Date_getTime].
    by apply (proj1 (Forall_forall _ _) Hans).
  - eexists. by vm_compute.
  - eexists. by vm_compute.
Qed.

(** * The pages ([App] and [TimelinePage])

    ** RichText

    The component that renders the text of a post with its facets. Facets
    reach it as [any[]]; they are taken here in the shape the lexicon
    app.bsky.richtext.facet gives them: a byte range into the UTF-8 text and
    a list of features, of which a link carries a [uri]. *)

Module ByteSlice.
Record t := mk {
  byteStart : Z;
  byteEnd : Z
}.
End ByteSlice.

Module Feature.
Record t := mk {
  type_ : option string;      (* $type *)
  uri : option string
}.
End Feature.

Module Facet.
Record t := mk {
  index : ByteSlice.t;
  features : list Feature.t
}.
End Facet.

(** What ends up between [<Text style={styles.postText}>] and [</Text>]: a
    string, or [<Text key={i} style={styles.link} onPress={() =>
    Linking.openURL(feature.uri)}>{facetText}</Text>]. *)
Inductive ReactNode : Type :=
| TextString (s : string)
| TextLink (key : nat) (uri : option string) (facetText : string).

(** [start] or [end] of [buf.slice], brought into [0 .. buf.length]: a
    negative index counts from the end. *)
Definition relativeIndex (len i : Z) : Z :=
  if i <? 0 then Z.max (len + i) 0 else Z.min i len.

(** [buf.slice(start, end)] *)
Definition Buffer_slice (buf : list Byte.byte) (start end_ : Z)
    : list Byte.byte :=
  let len := Z.of_nat (length buf) in
  let first := relativeIndex len start in
  let final := relativeIndex len end_ in
  take (Z.to_nat (final - first)) (drop (Z.to_nat first) buf).

(** [(a, b) => a.index.byteStart - b.index.byteStart] *)
Definition byByteStart (a b : Facet.t) : option Z :=
  Some (ByteSlice.byteStart (Facet.index a) - ByteSlice.byteStart (Facet.index b)).

Definition isLink (feature : Feature.t) : bool :=
  match Feature.type_ feature with
  | Some ty => String.eqb ty "app.bsky.richtext.facet#link"
  | None => false
  end.

Section RichText.

(** [Buffer.from(text, 'utf8')] and [buf.toString('utf8')] *)
Variable Buffer_from : string → list Byte.byte.
Variable Buffer_toString : list Byte.byte → string.

(** The callback of [forEach], on [lastIndex] and [elements];
    [facet.features[0]] is [undefined] when there is no feature, and
    reading [$type] off it throws. *)
Definition renderFacet (utf8Text : list Byte.byte) (facet : Facet.t) (i : nat)
    (lastIndex : Z) (elements : list ReactNode)
    : exn + (Z * list ReactNode) :=
  let byteStart := ByteSlice.byteStart (Facet.index facet) in
  let byteEnd := ByteSlice.byteEnd (Facet.index facet) in
  let elements :=
    if lastIndex <? byteStart
    then elements ++
         [TextString (Buffer_toString (Buffer_slice utf8Text lastIndex byteStart))]
    else elements in
  let facetText := Buffer_toString (Buffer_slice utf8Text byteStart byteEnd) in
  match head (Facet.features facet) with
  | None =>
      inl (TypeError "Cannot read properties of undefined (reading '$type')")
  | Some feature =>
      inr (byteEnd,
           elements ++
           [if isLink feature
            then TextLink i (Feature.uri feature) facetText
            else TextString facetText])
  end.

(** [sorted.forEach((facet, i) => { ... })] from index [i] on *)
Fixpoint Array_forEach_renderFacet (utf8Text : list Byte.byte)
    (facets : list Facet.t) (i : nat) (lastIndex : Z)
    (elements : list ReactNode) : exn + (Z * list ReactNode) :=
  match facets with
  | [] => inr (lastIndex, elements)
  | facet :: facets' =>
      match renderFacet utf8Text facet i lastIndex elements with
      | inl e => inl e
      | inr (lastIndex', elements') =>
          Array_forEach_renderFacet utf8Text facets' (S i) lastIndex' elements'
      end
  end.

(** The component. [facets.sort] sorts the array it is given in place, so
    the call returns, next to the children of the [<Text>] it renders (or
    the exception it throws), what the caller's array holds afterwards. *)
Definition RichText (text : string) (facets : option (list Facet.t))
    : option (list Facet.t) * (exn + list ReactNode) :=
  match facets with
  | Some (facet :: rest) =>
      let utf8Text := Buffer_from text in
      let sorted := Array_sort byByteStart (facet :: rest) in
      (Some sorted,
       match Array_forEach_renderFacet utf8Text sorted 0 0 [] with
       | inl e => inl e
       | inr (lastIndex, elements) =>
           inr (if lastIndex <? Z.of_nat (length utf8Text)
                then elements ++
                     [TextString
                        (Buffer_toString
                           (Buffer_slice utf8Text lastIndex
                              (Z.of_nat (length utf8Text))))]
                else elements)
       end)
  | _ => (facets, inr [TextString text])
  end.

(** The string a child shows. *)
Definition shown (node : ReactNode) : string :=
  match node with
  | TextString s => s
  | TextLink _ _ facetText => facetText
  end.

(** A facet that lies in a text of [len] bytes and is not empty. *)
Definition inText (len : Z) (facet : Facet.t) : Prop :=
  0 ≤ ByteSlice.byteStart (Facet.index facet)
  ∧ ByteSlice.byteStart (Facet.index facet) < ByteSlice.byteEnd (Facet.index facet)
  ∧ ByteSlice.byteEnd (Facet.index facet) ≤ len.

(** Two facets that do not overlap. *)
Definition apart (a b : Facet.t) : Prop :=
  ByteSlice.byteEnd (Facet.index a) ≤ ByteSlice.byteStart (Facet.index b)
  ∨ ByteSlice.byteEnd (Facet.index b) ≤ ByteSlice.byteStart (Facet.index a).

Definition before (a b : Facet.t) : Prop :=
  ByteSlice.byteEnd (Facet.index a) ≤ ByteSlice.byteStart (Facet.index b).

Definition startsNoLater (a b : Facet.t) : Prop :=
  ByteSlice.byteStart (Facet.index a) ≤ ByteSlice.byteStart (Facet.index b).

(** *** The sort *)

Lemma sort_insert_StronglySorted {A} (cmp : A → A → option Z)
    (R : relation A) `{!Transitive R} x l :
  Forall (λ y, if 0 <? SortCompare cmp x y then R y x else R x y) l →
  StronglySorted R l →
  StronglySorted R (sort_insert cmp x l).
Proof.
  induction l as [|y l IH]; intros Hx Hl.
  - repeat constructor.
  - apply Forall_cons in Hx as [Hxy Hx].
    apply StronglySorted_inv in Hl as [Hl Hy].
    cbn [sort_insert]. destruct (0 <? SortCompare cmp x y).
    + constructor; [by apply IH|].
      rewrite sort_insert_Permutation. by constructor.
    + constructor; [by constructor|].
      constructor; [done|].
      eapply Forall_impl; [exact Hy|]. intros z Hyz. by transitivity y.
Qed.

Global Instance startsNoLater_trans : Transitive startsNoLater.
Proof. unfold startsNoLater. intros a b c. lia. Qed.

Lemma Array_sort_byByteStart facets :
  StronglySorted startsNoLater (Array_sort byByteStart facets).
Proof.
  induction facets as [|x l IH]; [constructor|].
  cbn [Array_sort]. apply sort_insert_StronglySorted; [apply _| |done].
  apply Forall_forall. intros y _.
  unfold SortCompare, byByteStart, startsNoLater.
  destruct (Z.ltb_spec 0 (ByteSlice.byteStart (Facet.index x)
                          - ByteSlice.byteStart (Facet.index y))); lia.
Qed.

Lemma Array_sort_sorted_fixed facets :
  StronglySorted startsNoLater facets → Array_sort byByteStart facets = facets.
Proof.
  induction 1 as [|x l Hl IH Hx]; [done|].
  cbn [Array_sort]. rewrite IH.
  destruct Hx as [|y l Hxy _]; [done|].
  cbn [sort_insert]. unfold SortCompare, byByteStart.
  unfold startsNoLater in Hxy.
  destruct (Z.ltb_spec 0 (ByteSlice.byteStart (Facet.index x)
                          - ByteSlice.byteStart (Facet.index y))); [lia|done].
Qed.

(** Facets that are not empty and do not overlap come out of the sort one
    after the other. *)
Lemma sort_insert_before len x l :
  inText len x → Forall (inText len) l → Forall (apart x) l →
  StronglySorted before l →
  StronglySorted before (sort_insert byByteStart x l).
Proof.
  intros Hx. induction l as [|y l IH]; intros Hin Hap Hl.
  - repeat constructor.
  - apply Forall_cons in Hin as [Hy Hin].
    apply Forall_cons in Hap as [Hxy Hap].
    apply StronglySorted_inv in Hl as [Hl Hyl].
    cbn [sort_insert]. unfold SortCompare, byByteStart.
    unfold inText in Hx, Hy. unfold apart in Hxy.
    destruct (Z.ltb_spec 0 (ByteSlice.byteStart (Facet.index x)
                            - ByteSlice.byteStart (Facet.index y))).
    + constructor; [by apply IH|].
      rewrite sort_insert_Permutation. constructor; [|done].
      unfold before. lia.
    + constructor; [by constructor|].
      assert (before x y) as Hb by (unfold before; lia).
      constructor; [done|].
      eapply Forall_impl; [exact Hyl|]. unfold before in *. intros z. lia.
Qed.

Lemma Array_sort_before len facets :
  Forall (inText len) facets → ForallOrdPairs apart facets →
  StronglySorted before (Array_sort byByteStart facets).
Proof.
  intros Hin Hap. induction Hap as [|x l Hx Hap IH]; [constructor|].
  apply Forall_cons in Hin as [Hxin Hin].
  cbn [Array_sort]. apply (sort_insert_before len); [done| | |by apply IH].
  - by rewrite Array_sort_Permutation.
  - by rewrite Array_sort_Permutation.
Qed.

(** *** Slices *)

Lemma relativeIndex_inside len i : 0 ≤ i ≤ len → relativeIndex len i = i.
Proof. unfold relativeIndex. intros. destruct (Z.ltb_spec i 0); lia. Qed.

Lemma Buffer_slice_next buf a b :
  0 ≤ a ≤ b → b ≤ Z.of_nat (length buf) →
  take (Z.to_nat a) buf ++ Buffer_slice buf a b = take (Z.to_nat b) buf.
Proof.
  intros Hab Hb. unfold Buffer_slice. cbv zeta.
  rewrite !relativeIndex_inside by lia.
  rewrite take_take_drop. f_equal. lia.
Qed.

(** *** The text is covered *)

Lemma Array_forEach_renderFacet_covers utf8Text facets :
  ∀ i lastIndex elements segments,
    StronglySorted before facets →
    Forall (inText (Z.of_nat (length utf8Text))) facets →
    Forall (λ facet, Facet.features facet ≠ []) facets →
    Forall (λ facet, lastIndex ≤ ByteSlice.byteStart (Facet.index facet)) facets →
    0 ≤ lastIndex ≤ Z.of_nat (length utf8Text) →
    map shown elements = map Buffer_toString segments →
    concat segments = take (Z.to_nat lastIndex) utf8Text →
    ∃ lastIndex' elements' segments',
      Array_forEach_renderFacet utf8Text facets i lastIndex elements
        = inr (lastIndex', elements') ∧
      0 ≤ lastIndex' ≤ Z.of_nat (length utf8Text) ∧
      map shown elements' = map Buffer_toString segments' ∧
      concat segments' = take (Z.to_nat lastIndex') utf8Text.
Proof.
  induction facets as [|facet facets IH];
    intros i lastIndex elements segments Hsorted Hin Hfeat Hlast Hrange Hshown Hcat.
  - by exists lastIndex, elements, segments.
  - apply StronglySorted_inv in Hsorted as [Hsorted Hbefore].
    apply Forall_cons in Hin as [(H0 & Hlt & Hlen) Hin].
    apply Forall_cons in Hfeat as [Hf Hfeat].
    apply Forall_cons in Hlast as [Hle _].
    cbn [Array_forEach_renderFacet]. unfold renderFacet. cbv zeta.
    destruct (Facet.features facet) as [|feature others]; [done|].
    cbn [head].
    set (byteStart := ByteSlice.byteStart (Facet.index facet)) in *.
    set (byteEnd := ByteSlice.byteEnd (Facet.index facet)) in *.
    set (gap := Buffer_slice utf8Text lastIndex byteStart).
    set (range := Buffer_slice utf8Text byteStart byteEnd).
    assert (∃ segments1,
              map shown (if lastIndex <? byteStart
                         then elements ++ [TextString (Buffer_toString gap)]
                         else elements) = map Buffer_toString segments1 ∧
              concat segments1 = take (Z.to_nat byteStart) utf8Text)
      as (segments1 & Hshown1 & Hcat1).
    { destruct (Z.ltb_spec lastIndex byteStart).
      - exists (segments ++ [gap]). rewrite !map_app, Hshown. split; [done|].
        rewrite concat_app, Hcat. simpl. rewrite app_nil_r.
        apply Buffer_slice_next; lia.
      - exists segments. split; [done|].
        rewrite Hcat. f_equal. lia. }
    eapply (IH _ _ _ (segments1 ++ [range])); [done|done|done| |lia| |].
    + eapply Forall_impl; [exact Hbefore|]. intros g Hg. exact Hg.
    + rewrite !map_app, Hshown1. simpl. by destruct (isLink feature).
    + rewrite concat_app, Hcat1. simpl. rewrite app_nil_r.
      apply Buffer_slice_next; lia.
Qed.

(** X6: with facets that lie in the text, are not empty, do not overlap
    and have a feature each, [RichText] shows the whole text once: its
    children are the decodings of consecutive byte ranges that together
    make up the UTF-8 bytes of the text, whatever the order in which the
    facets are listed. *)
Theorem RichText_shows_the_text_once text facets :
  facets ≠ [] →
  Forall (inText (Z.of_nat (length (Buffer_from text)))) facets →
  ForallOrdPairs apart facets →
  Forall (λ facet, Facet.features facet ≠ []) facets →
  ∃ elements segments,
    (RichText text (Some facets)).2 = inr elements ∧
    map shown elements = map Buffer_toString segments ∧
    concat segments = Buffer_from text.
Proof.
  intros Hne Hin Hap Hfeat.
  destruct facets as [|facet rest]; [done|].
  unfold RichText. cbv zeta. cbn [snd].
  set (facets := facet :: rest) in *.
  set (utf8Text := Buffer_from text) in *.
  pose proof (Array_sort_Permutation byByteStart facets) as Hperm.
  destruct (Array_forEach_renderFacet_covers utf8Text
              (Array_sort byByteStart facets) 0 0 [] [])
    as (lastIndex & elements & segments & -> & Hrange & Hshown & Hcat).
  - by apply (Array_sort_before (Z.of_nat (length utf8Text))).
  - by rewrite Hperm.
  - by rewrite Hperm.
  - rewrite Hperm. eapply Forall_impl; [exact Hin|].
    intros f (? & _). done.
  - lia.
  - done.
  - done.
  - destruct (Z.ltb_spec lastIndex (Z.of_nat (length utf8Text))).
    + exists (elements ++
              [TextString (Buffer_toString
                 (Buffer_slice utf8Text lastIndex (Z.of_nat (length utf8Text))))]),
             (segments ++
              [Buffer_slice utf8Text lastIndex (Z.of_nat (length utf8Text))]).
      split; [done|]. rewrite !map_app, Hshown. split; [done|].
      rewrite concat_app, Hcat. simpl. rewrite app_nil_r.
      rewrite Buffer_slice_next by lia.
      apply take_ge. lia.
    + exists elements, segments. split; [done|]. split; [done|].
      rewrite Hcat. apply take_ge. lia.
Qed.

(** *** When rendering throws *)

Lemma Array_forEach_renderFacet_throws utf8Text facets :
  ∀ i lastIndex elements e,
    Array_forEach_renderFacet utf8Text facets i lastIndex elements = inl e ↔
    e = TypeError "Cannot read properties of undefined (reading '$type')" ∧
    Exists (λ facet, Facet.features facet = []) facets.
Proof.
  induction facets as [|facet facets IH]; intros i lastIndex elements e.
  - simpl. split; [done|]. intros [_ H]. by apply Exists_nil in H.
  - cbn [Array_forEach_renderFacet]. unfold renderFacet. cbv zeta.
    destruct (Facet.features facet) as [|feature others] eqn:Hf; cbn [head].
    + split.
      * intros [= <-]. split; [done|]. by left.
      * by intros [-> _].
    + rewrite IH, Exists_cons. split; [intros [-> H]; by auto|].
      intros [-> [H|H]]; [congruence|done].
Qed.

Lemma RichText_throws_iff text facets e :
  (RichText text facets).2 = inl e ↔
  e = TypeError "Cannot read properties of undefined (reading '$type')" ∧
  ∃ list, facets = Some list ∧ Exists (λ facet, Facet.features facet = []) list
          ∧ (RichText text facets).1 = Some (Array_sort byByteStart list).
Proof.
  destruct facets as [[|facet rest]|]; cbn [RichText snd fst].
  - split; [done|]. intros [_ (l & [= <-] & H & _)]. by apply Exists_nil in H.
  - cbv zeta.
    pose proof (Array_forEach_renderFacet_throws (Buffer_from text)
                  (Array_sort byByteStart (facet :: rest)) 0 0 [] e) as Hthrow.
    assert (Exists (λ facet, Facet.features facet = [])
                   (Array_sort byByteStart (facet :: rest)) ↔
            Exists (λ facet, Facet.features facet = []) (facet :: rest))
      as Hex by (by rewrite Array_sort_Permutation).
    destruct (Array_forEach_renderFacet _ _ _ _ _) as [e'|[lastIndex elements]].
    + split.
      * intros [= ->]. destruct (proj1 Hthrow eq_refl) as [-> H].
        split; [done|]. exists (facet :: rest). by rewrite <- Hex.
      * intros [-> (l & [= <-] & H & _)].
        destruct Hthrow as [_ Hthrow].
        assert (e' = TypeError "Cannot read properties of undefined (reading '$type')")
          as ->; [|done].
        assert (∀ a b : exn, inl a = (inl b : exn + Z * list ReactNode) → a = b)
          as Hinj by congruence.
        apply Hinj, Hthrow. split; [done|]. by rewrite Hex.
    + split; [done|]. intros [-> (l & [= <-] & H & _)].
      destruct Hthrow as [_ Hthrow].
      discriminate Hthrow. split; [done|]. by rewrite Hex.
  - split; [done|]. by intros [_ (l & [=] & _)].
Qed.

(** X7: rendering throws exactly when there are facets and one of them has
    no feature, wherever it stands in the list; what is thrown is a
    [TypeError], and the caller's array has been sorted all the same. *)
Theorem RichText_throws text facets :
  ((∃ e, (RichText text facets).2 = inl e) ↔
   ∃ list, facets = Some list ∧
           Exists (λ facet, Facet.features facet = []) list) ∧
  ∀ e, (RichText text facets).2 = inl e →
    (∃ message, e = TypeError message) ∧
    ∃ list, facets = Some list ∧
            (RichText text facets).1 = Some (Array_sort byByteStart list).
Proof.
  split; [split|].
  - intros [e (_ & list & Hlist & Hex & _)%RichText_throws_iff].
    by exists list.
  - intros (list & -> & Hex). eexists. apply RichText_throws_iff.
    split; [done|]. exists list. split; [done|]. split; [done|].
    by destruct list.
  - intros e (-> & list & -> & Hex & Hsorted)%RichText_throws_iff.
    split; [by eexists|]. by exists list.
Qed.

(** *** The order of the facets *)

(** X8: the order in which the facets are listed does not matter when no
    two of them start at the same byte: two lists with the same facets give
    the same children (or the same exception) and leave the same array. *)
Theorem RichText_order_of_facets text facets facets' :
  facets ≡ₚ facets' →
  NoDup (map (λ facet, ByteSlice.byteStart (Facet.index facet)) facets) →
  RichText text (Some facets) = RichText text (Some facets').
Proof.
  intros Hperm Hnd.
  assert (Array_sort byByteStart facets = Array_sort byByteStart facets')
    as Hsame.
  { apply (StronglySorted_unique_strong startsNoLater);
      [|apply Array_sort_byByteStart..|by rewrite !Array_sort_Permutation].
    intros a b Ha Hb Hab Hba.
    rewrite Array_sort_Permutation in Ha.
    rewrite Array_sort_Permutation, <- Hperm in Hb.
    unfold startsNoLater in Hab, Hba.
    apply list_elem_of_lookup in Ha as [i Hi].
    apply list_elem_of_lookup in Hb as [j Hj].
    assert (i = j) as ->; [|congruence].
    eapply NoDup_lookup; [exact Hnd| |].
    - rewrite list_lookup_fmap, Hi. done.
    - rewrite list_lookup_fmap, Hj. simpl. f_equal. lia. }
  destruct facets as [|a l], facets' as [|b l']; [done| | |].
  - by apply Permutation_nil_cons in Hperm.
  - symmetry in Hperm. by apply Permutation_nil_cons in Hperm.
  - unfold RichText. by rewrite Hsame.
Qed.

(** X9: rendering again changes nothing. The array a first call leaves
    behind is sorted, and a second call on it gives the children (or the
    exception) of the first and leaves the array as it found it. *)
Theorem RichText_again text facets :
  RichText text (RichText text facets).1 = RichText text facets.
Proof.
  destruct facets as [[|facet rest]|]; [done| |done].
  cbn [RichText fst]. cbv zeta.
  pose proof (Array_sort_Permutation byByteStart (facet :: rest)) as Hperm.
  pose proof (Array_sort_sorted_fixed _
                (Array_sort_byByteStart (facet :: rest))) as Hfixed.
  destruct (Array_sort byByteStart (facet :: rest)) as [|a l] eqn:Hsorted.
  - by apply Permutation_nil_cons in Hperm.
  - by rewrite Hfixed.
Qed.

End RichText.

(** ** The state of a page

    [App] and [TimelinePage] keep the same state cells, all but the handle
    the user types, which only [App] has and which its handlers only read.
    A handler reads a cell through the closure of the render that made it,
    and writes through the setter, to the cell as it is now. *)

Module User.
Record t := mk {
  handle : string;
  did : string
}.
End User.

Record Cells := mkCells {
  posts : list Post.t;
  loading : bool;
  error : option string;
  refreshing : bool;
  loadingMore : bool;
  cursorMap : option loc;
  viewingUser : option User.t
}.

(** The cells as they are now, the service's side of the world, and what
    the page has written with [console.error(e)]. *)
Record Page := mkPage {
  cells : Cells;
  service : State;
  console : list exn
}.

Definition setPosts (f : list Post.t → list Post.t) (w : Page) : Page :=
  let c := cells w in
  mkPage (mkCells (f (posts c)) (loading c) (error c) (refreshing c)
                  (loadingMore c) (cursorMap c) (viewingUser c))
         (service w) (console w).

Definition setLoading (b : bool) (w : Page) : Page :=
  let c := cells w in
  mkPage (mkCells (posts c) b (error c) (refreshing c)
                  (loadingMore c) (cursorMap c) (viewingUser c))
         (service w) (console w).

Definition setError (e : option string) (w : Page) : Page :=
  let c := cells w in
  mkPage (mkCells (posts c) (loading c) e (refreshing c)
                  (loadingMore c) (cursorMap c) (viewingUser c))
         (service w) (console w).

Definition setRefreshing (b : bool) (w : Page) : Page :=
  let c := cells w in
  mkPage (mkCells (posts c) (loading c) (error c) b
                  (loadingMore c) (cursorMap c) (viewingUser c))
         (service w) (console w).

Definition setLoadingMore (b : bool) (w : Page) : Page :=
  let c := cells w in
  mkPage (mkCells (posts c) (loading c) (error c) (refreshing c)
                  b (cursorMap c) (viewingUser c))
         (service w) (console w).

Definition setCursorMap (m : option loc) (w : Page) : Page :=
  let c := cells w in
  mkPage (mkCells (posts c) (loading c) (error c) (refreshing c)
                  (loadingMore c) m (viewingUser c))
         (service w) (console w).

Definition setViewingUser (u : option User.t) (w : Page) : Page :=
  let c := cells w in
  mkPage (mkCells (posts c) (loading c) (error c) (refreshing c)
                  (loadingMore c) (cursorMap c) u)
         (service w) (console w).

Definition console_error (e : exn) (w : Page) : Page :=
  mkPage (cells w) (service w) (console w ++ [e]).

(** [await] of a service call: the call runs on the service's side, the
    page goes on with its outcome. A handler is followed from its start to
    its end: no other handler runs while its call is in flight. *)
Definition await {A} (m : M A) (w : Page) : (exn + A) * Page :=
  let '(outcome, σ) := m (service w) in
  (outcome, mkPage (cells w) σ (console w)).

(** [a || b] on optional strings *)
Definition or_else (a b : option string) : option string :=
  if truthy a then a else b.

Module App.
Section App.

Variable agent : Agent.
Variable Date_getTime : string → option Z.

(** [handle] and [seen] are what the closure holds: the handle typed and
    the cells of the render the handler belongs to. *)
Definition fetchTimeline (handle : string) (seen : Cells)
    (isRefreshing isLoadMore : bool) (w : Page) : Page :=
  if negb (truthy (Some handle)) then w
  else if isLoadMore && loadingMore seen then w
  else
    let w :=
      if isLoadMore then setLoadingMore true w
      else if isRefreshing then setRefreshing true w
      else setLoading true w in
    let w := setError None w in
    let w := if negb isLoadMore then setViewingUser None w else w in
    let currentCursorMap := if isLoadMore then cursorMap seen else None in
    let '(outcome, w) :=
      await (getMergedTimeline agent Date_getTime handle currentCursorMap) w in
    let w :=
      match outcome with
      | inr result =>
          let w :=
            if isLoadMore
            then setPosts (λ prev, prev ++ TimelineResult.posts result) w
            else setPosts (λ _, TimelineResult.posts result) w in
          setCursorMap (Some (TimelineResult.cursorMap result)) w
      | inl e =>
          let w := console_error e w in
          setError (Some "タイムラインの取得に失敗しました。IDを確認してください。") w
      end in
    let w := setLoading false w in
    let w := setRefreshing false w in
    setLoadingMore false w.

Definition fetchUserTimeline (user : User.t) (w : Page) : Page :=
  let w := setLoading true w in
  let w := setError None w in
  let w := setViewingUser (Some user) w in
  let '(outcome, w) := await (getUserTimeline agent (User.did user)) w in
  let w :=
    match outcome with
    | inr timeline => setPosts (λ _, timeline) w
    | inl e =>
        let w := console_error e w in
        setError (Some "ユーザーの投稿取得に失敗しました。") w
    end in
  setLoading false w.

(** [onEndReached] of the list *)
Definition onEndReached (handle : string) (seen : Cells) (w : Page) : Page :=
  if negb (bool_decide (is_Some (viewingUser seen)))
     && bool_decide (0 < length (posts seen))%nat
  then fetchTimeline handle seen false true w
  else w.

End App.
End App.

Module TimelinePage.
Section TimelinePage.

Variable agent : Agent.
Variable Date_getTime : string → option Z.

(** [id] is the route parameter, [seen] the cells of the render the
    handler belongs to. *)
Definition fetchTimeline (id : option string) (seen : Cells)
    (isRefreshing isLoadMore : bool) (targetId : option string)
    (w : Page) : Page :=
  match or_else targetId id with
  | None => w
  | Some handleToFetch =>
      if negb (truthy (Some handleToFetch)) then w
      else if isLoadMore && loadingMore seen then w
      else
        let w :=
          if isLoadMore then setLoadingMore true w
          else if isRefreshing then setRefreshing true w
          else setLoading true w in
        let w := setError None w in
        let currentCursorMap := if isLoadMore then cursorMap seen else None in
        let '(outcome, w) :=
          await (getMergedTimeline agent Date_getTime handleToFetch
                   currentCursorMap) w in
        let w :=
          match outcome with
          | inr result =>
              let w :=
                if isLoadMore
                then setPosts (λ prev, prev ++ TimelineResult.posts result) w
                else setPosts (λ _, TimelineResult.posts result) w in
              setCursorMap (Some (TimelineResult.cursorMap result)) w
          | inl e =>
              let w := console_error e w in
              setError (Some "タイムラインの取得に失敗しました。IDを確認してください。") w
          end in
        let w := setLoading false w in
        let w := setRefreshing false w in
        setLoadingMore false w
  end.

(** [onEndReached] of the list *)
Definition onEndReached (id : option string) (seen : Cells) (w : Page) : Page :=
  if bool_decide (0 < length (posts seen))%nat
  then fetchTimeline id seen false true None w
  else w.

End TimelinePage.
End TimelinePage.

Section Pages.

Variable agent : Agent.
Variable Date_getTime : string → option Z.

(** *** The store under a call of the service *)

Lemma getMergedTimeline_store handle cm σ :
  cursorMapIn σ cm →
  let run := getMergedTimeline agent Date_getTime handle cm σ in
  (∀ l, is_Some (heap σ !! l) → heap run.2 !! l = heap σ !! l) ∧
  (∀ r, run.1 = inr r → is_Some (heap run.2 !! TimelineResult.cursorMap r)).
Proof.
  intros Hcm. cbv zeta.
  pose proof (getMergedTimeline_cases agent Date_getTime handle cm σ Hcm) as Hc.
  pose proof (resolveHandle_heap agent handle σ) as Hh.
  destruct (resolveHandle agent handle σ) as [[e|did] σ1]; simpl in Hh.
  { rewrite Hc. simpl. rewrite Hh. done. }
  destruct (getFollows_response agent (issued σ1) did 30) as [e|res].
  { rewrite Hc. done. }
  cbv zeta in Hc.
  destruct Hc as (k & out & σ' & -> & Hheap & _ & Hout). simpl.
  rewrite Hheap. split.
  - intros l Hl. apply lookup_insert_ne. intros <-.
    apply (is_fresh (dom (heap σ))). by apply elem_of_dom.
  - intros r ->. destruct Hout as (_ & -> & _).
    rewrite lookup_insert_eq. by eexists.
Qed.

Lemma cursorMapIn_store σ σ' cm :
  (∀ l, is_Some (heap σ !! l) → heap σ' !! l = heap σ !! l) →
  cursorMapIn σ cm → cursorMapIn σ' cm.
Proof. intros Hkeep Hcm l Hl. rewrite Hkeep; by apply Hcm. Qed.

(** The shape of a call that gets past the two guards. *)
Lemma fetchTimeline_run handle seen isRefreshing isLoadMore w :
  handle ≠ "" → isLoadMore && loadingMore seen = false →
  let cm := if isLoadMore then cursorMap seen else None in
  let run := getMergedTimeline agent Date_getTime handle cm (service w) in
  let w' := App.fetchTimeline agent Date_getTime handle seen
              isRefreshing isLoadMore w in
  service w' = run.2 ∧
  loading (cells w') = false ∧
  refreshing (cells w') = false ∧
  loadingMore (cells w') = false ∧
  viewingUser (cells w')
    = (if isLoadMore then viewingUser (cells w) else None) ∧
  match run.1 with
  | inr result =>
      posts (cells w')
        = (if isLoadMore then posts (cells w) else [])
          ++ TimelineResult.posts result ∧
      cursorMap (cells w') = Some (TimelineResult.cursorMap result) ∧
      error (cells w') = None ∧
      console w' = console w
  | inl e =>
      posts (cells w') = posts (cells w) ∧
      cursorMap (cells w') = cursorMap (cells w) ∧
      error (cells w')
        = Some "タイムラインの取得に失敗しました。IDを確認してください。" ∧
      console w' = console w ++ [e]
  end.
Proof.
  intros Hhandle Hguard. cbv zeta. unfold App.fetchTimeline.
  assert (truthy (Some handle) = true) as ->.
  { simpl. apply negb_true_iff, String.eqb_neq. done. }
  rewrite Hguard. cbn [negb]. unfold await.
  destruct isLoadMore, isRefreshing; cbn [negb];
    cbn [service setLoadingMore setRefreshing setLoading setError
         setViewingUser cells console];
    destruct (getMergedTimeline _ _ _ _ _) as [[e|result] σ']; done.
Qed.

(** X10: what a call of [fetchTimeline] leaves on the screen. A load-more
    never takes away a post that is shown. A call that gets past the guards
    (a handle was typed; no load-more is known to be running) ends with the
    three progress flags down, whether the service resolved or rejected; when
    it rejected, the posts and the cursor map stay as they were, the
    exception is logged and the error message is set. *)
Theorem fetchTimeline_settles handle seen (isRefreshing isLoadMore : bool) w :
  let cm := if isLoadMore then cursorMap seen else None in
  let outcome :=
    (getMergedTimeline agent Date_getTime handle cm (service w)).1 in
  let w' := App.fetchTimeline agent Date_getTime handle seen
              isRefreshing isLoadMore w in
  (isLoadMore = true → posts (cells w) `prefix_of` posts (cells w')) ∧
  (handle = "" ∨ isLoadMore && loadingMore seen = true → w' = w) ∧
  (handle ≠ "" → isLoadMore && loadingMore seen = false →
   loading (cells w') = false ∧
   refreshing (cells w') = false ∧
   loadingMore (cells w') = false ∧
   match outcome with
   | inr result =>
       posts (cells w')
         = (if isLoadMore then posts (cells w) else [])
           ++ TimelineResult.posts result ∧
       cursorMap (cells w') = Some (TimelineResult.cursorMap result) ∧
       error (cells w') = None
   | inl e =>
       posts (cells w') = posts (cells w) ∧
       cursorMap (cells w') = cursorMap (cells w) ∧
       error (cells w')
         = Some "タイムラインの取得に失敗しました。IDを確認してください。" ∧
       console w' = console w ++ [e]
   end).
Proof.
  cbv zeta.
  assert (handle = "" ∨ isLoadMore && loadingMore seen = true →
          App.fetchTimeline agent Date_getTime handle seen
            isRefreshing isLoadMore w = w) as Hnoop.
  { unfold App.fetchTimeline. intros [->| ->]; [done|].
    by destruct (negb (truthy (Some handle))). }
  split; [|split; [done|]].
  - intros ->.
    destruct (decide (handle = "")) as [Hh|Hh].
    { by rewrite Hnoop by auto. }
    destruct (true && loadingMore seen) eqn:Hg.
    { by rewrite Hnoop by auto. }
    destruct (fetchTimeline_run handle seen isRefreshing true w Hh Hg)
      as (_ & _ & _ & _ & _ & Hout).
    destruct (getMergedTimeline _ _ _ _ _).1 as [e|result].
    + destruct Hout as (-> & _). done.
    + destruct Hout as (-> & _). by apply prefix_app_r.
  - intros Hh Hg.
    destruct (fetchTimeline_run handle seen isRefreshing isLoadMore w Hh Hg)
      as (_ & -> & -> & -> & _ & Hout).
    do 3 (split; [done|]).
    destruct (getMergedTimeline _ _ _ _ _).1 as [e|result]; [done|].
    by destruct Hout as (-> & -> & -> & _).
Qed.

(** X11: the cursor map the page holds is always a map of the store. If
    that is so before a call of [fetchTimeline], for the cells as they are
    and for the cells the handler's closure has seen, it is so after it; and
    every map that was in the store is left as it was, so that the tokens a
    render holds do not change under it. *)
Theorem fetchTimeline_keeps_cursorMap_in_store
    handle seen isRefreshing isLoadMore w :
  cursorMapIn (service w) (cursorMap seen) →
  cursorMapIn (service w) (cursorMap (cells w)) →
  let w' := App.fetchTimeline agent Date_getTime handle seen
              isRefreshing isLoadMore w in
  cursorMapIn (service w') (cursorMap (cells w')) ∧
  cursorMapIn (service w') (cursorMap seen) ∧
  (∀ l, is_Some (heap (service w) !! l) →
        heap (service w') !! l = heap (service w) !! l).
Proof.
  intros Hseen Hnow. cbv zeta.
  destruct (decide (handle = "")) as [Hh|Hh].
  { unfold App.fetchTimeline. by rewrite Hh. }
  destruct (isLoadMore && loadingMore seen) eqn:Hg.
  { unfold App.fetchTimeline. rewrite Hg.
    by destruct (negb (truthy (Some handle))). }
  destruct (fetchTimeline_run handle seen isRefreshing isLoadMore w Hh Hg)
    as (Hservice & _ & _ & _ & _ & Hout).
  set (cm := if isLoadMore then cursorMap seen else None) in *.
  assert (cursorMapIn (service w) cm) as Hcm.
  { unfold cm. destruct isLoadMore; [done|]. by intros l. }
  destruct (getMergedTimeline_store handle cm (service w) Hcm)
    as [Hkeep Hnew].
  rewrite Hservice.
  split; [|split; [by apply (cursorMapIn_store (service w))|done]].
  destruct (getMergedTimeline _ _ _ _ _).1 as [e|result].
  - destruct Hout as (_ & -> & _). by apply (cursorMapIn_store (service w)).
  - destruct Hout as (_ & -> & _). intros l [= <-]. by apply Hnew.
Qed.

(** X12: which cursors the page sends. A first fetch or a refresh sends no
    cursor at all; a load-more sends, for each followed account, the token
    that the cursor map seen by the handler's closure holds for that account,
    and none when it holds none. A call stopped by a guard asks nothing. *)
Theorem fetchTimeline_cursors handle seen isRefreshing isLoadMore w :
  cursorMapIn (service w) (cursorMap seen) →
  let w' := App.fetchTimeline agent Date_getTime handle seen
              isRefreshing isLoadMore w in
  ∃ evs,
    trace (service w') = trace (service w) ++ evs ∧
    (handle = "" ∨ isLoadMore && loadingMore seen = true → evs = []) ∧
    ∀ n actor limit cursor,
      Request n (GetAuthorFeed actor limit cursor) ∈ evs →
      cursor = if isLoadMore
               then lookupMap (heap (service w)) (cursorMap seen) actor
               else None.
Proof.
  intros Hseen. cbv zeta.
  destruct (decide (handle = "")) as [Hh|Hh].
  { exists []. unfold App.fetchTimeline. rewrite Hh. simpl.
    rewrite app_nil_r. split; [done|]. split; [done|].
    intros n actor limit cursor H. by apply elem_of_nil in H. }
  destruct (isLoadMore && loadingMore seen) eqn:Hg.
  { exists []. unfold App.fetchTimeline. rewrite Hg.
    destruct (negb (truthy (Some handle))); rewrite app_nil_r;
      (split; [done|]; split; [done|]);
      intros n actor limit cursor H; by apply elem_of_nil in H. }
  destruct (fetchTimeline_run handle seen isRefreshing isLoadMore w Hh Hg)
    as (Hservice & _).
  set (cm := if isLoadMore then cursorMap seen else None) in *.
  assert (cursorMapIn (service w) cm) as Hcm.
  { unfold cm. destruct isLoadMore; [done|]. by intros l. }
  destruct (feed_request_cursors agent Date_getTime handle cm (service w) Hcm)
    as (evs & Htrace & Hcursor & _).
  exists evs. rewrite Hservice. split; [done|]. split.
  { intros [?|?]; congruence. }
  intros n actor limit cursor Hreq.
  rewrite (Hcursor _ _ _ _ Hreq). unfold cm. by destruct isLoadMore.
Qed.

(** X13: a user's page never loads more. [fetchUserTimeline] asks once for
    the user's feed and leaves the store and the cursor map alone; it ends
    with the user set as the one viewed, also when the request failed (the
    posts then stay as they were); and reaching the end of the list that is
    rendered next asks nothing and changes nothing. *)
Theorem fetchUserTimeline_then_end_reached user handle w :
  let w' := App.fetchUserTimeline agent user w in
  let σ := service w in
  viewingUser (cells w') = Some user ∧
  loading (cells w') = false ∧
  cursorMap (cells w') = cursorMap (cells w) ∧
  heap (service w') = heap σ ∧
  trace (service w')
    = trace σ ++ [Request (issued σ) (GetAuthorFeed (User.did user) 20 None);
                  Settled (issued σ)] ∧
  (∀ e, (getUserTimeline agent (User.did user) σ).1 = inl e →
        posts (cells w') = posts (cells w) ∧
        error (cells w') = Some "ユーザーの投稿取得に失敗しました。" ∧
        console w' = console w ++ [e]) ∧
  (∀ timeline, (getUserTimeline agent (User.did user) σ).1 = inr timeline →
        posts (cells w') = timeline ∧ error (cells w') = None) ∧
  App.onEndReached agent Date_getTime handle (cells w') w' = w'.
Proof.
  cbv zeta. unfold App.fetchUserTimeline, App.onEndReached, await.
  cbn [service setLoading setError setViewingUser cells console].
  rewrite getUserTimeline_run.
  destruct (match getAuthorFeed_response _ _ _ _ _ with
            | inl e => inl e
            | inr page => Array_map_toPost (FeedPage.feed page)
            end) as [e|timeline]; simpl.
  - do 5 (split; [done|]). split; [by intros e' [= <-]|].
    split; [done|]. done.
  - do 5 (split; [done|]). split; [done|].
    split; [by intros timeline' [= <-]|]. done.
Qed.

(** X14: the two pages fetch alike. [TimelinePage]'s [fetchTimeline], for
    the handle [targetId || id], does what [App]'s does for the handle
    typed, except that it leaves [viewingUser] alone; without a handle it
    does nothing. *)
Theorem TimelinePage_fetchTimeline_as_App
    id seen isRefreshing isLoadMore targetId w :
  TimelinePage.fetchTimeline agent Date_getTime id seen
    isRefreshing isLoadMore targetId w
  = match or_else targetId id with
    | Some handleToFetch =>
        setViewingUser (viewingUser (cells w))
          (App.fetchTimeline agent Date_getTime handleToFetch seen
             isRefreshing isLoadMore w)
    | None => w
    end.
Proof.
  unfold TimelinePage.fetchTimeline, App.fetchTimeline, await.
  destruct (or_else targetId id) as [handleToFetch|]; [|done].
  destruct w as [[] σ log].
  destruct (negb (truthy (Some handleToFetch))); [done|].
  destruct (isLoadMore && loadingMore seen); [done|].
  destruct isLoadMore, isRefreshing;
    cbn [negb service setLoadingMore setRefreshing setLoading setError
         setViewingUser cells console];
    destruct (getMergedTimeline _ _ _ _ _) as [[e|result] σ']; done.
Qed.

End Pages.

(** ** The keys of the list

    [keyExtractor={(item, index) => item.uri + item.indexedAt + index}]; the
    index is appended in decimal. *)

Definition keyExtractor (item : Post.t) (index : nat) : string :=
  (Post.uri item +:+ Post.indexedAt item) +:+ pretty index.

(** The keys of the items of [data], as the list asks for them. *)
Definition keysOf (data : list Post.t) : list string :=
  imap (λ index item, keyExtractor item index) data.

Definition isDigit (c : ascii) : bool :=
  bool_decide (c ∈ ["0"; "1"; "2"; "3"; "4"; "5"; "6"; "7"; "8"; "9"]%char).

Fixpoint allDigits (s : string) : Prop :=
  match s with
  | "" => True
  | String c s' => isDigit c = true ∧ allDigits s'
  end.

Fixpoint lastChar (s : string) : option ascii :=
  match s with
  | "" => None
  | String c "" => Some c
  | String _ s' => lastChar s'
  end.

(** A string that ends, and not in a digit: a timestamp such as
    "2024-01-01T00:00:00.000Z" does. *)
Definition endsOutsideDigits (s : string) : Prop :=
  ∃ c, lastChar s = Some c ∧ isDigit c = false.

Lemma lastChar_String c s :
  s ≠ "" → lastChar (String c s) = lastChar s.
Proof. by destruct s. Qed.

Lemma lastChar_app s1 s2 c :
  lastChar s2 = Some c → lastChar (s1 +:+ s2) = Some c.
Proof.
  intros Hc. induction s1 as [|a s1 IH]; [done|].
  change (String a s1 +:+ s2) with (String a (s1 +:+ s2)).
  rewrite lastChar_String; [done|]. intros Heq. by rewrite Heq in IH.
Qed.

Lemma allDigits_lastChar s1 s2 c :
  allDigits (s1 +:+ s2) → lastChar s1 = Some c → isDigit c = true.
Proof.
  induction s1 as [|a s1 IH]; [done|].
  change (String a s1 +:+ s2) with (String a (s1 +:+ s2)).
  intros [Ha Hrest]. destruct s1 as [|b s1].
  - by intros [= <-].
  - rewrite lastChar_String by done. by apply IH.
Qed.

Lemma isDigit_pretty_N_char x : isDigit (pretty_N_char x) = true.
Proof.
  unfold pretty_N_char. by repeat case_match.
Qed.

Lemma allDigits_pretty_N_go x s :
  allDigits s → allDigits (pretty_N_go x s).
Proof.
  revert s. induction (N.lt_wf_0 x) as [x _ IH]. intros s Hs.
  assert (x = 0 ∨ 0 < x)%N as [->|Hx] by lia.
  - by rewrite pretty_N_go_0.
  - rewrite pretty_N_go_step by done. apply IH.
    + by apply N.div_lt.
    + split; [apply isDigit_pretty_N_char|done].
Qed.

Lemma allDigits_pretty (index : nat) : allDigits (pretty index).
Proof.
  unfold pretty, pretty_nat, pretty, pretty_N.
  case_decide; [done|]. by apply allDigits_pretty_N_go.
Qed.

(** A string that ends outside the digits, followed by digits, can be read
    in one way only. *)
Lemma digits_suffix_unique s1 s2 d1 d2 :
  endsOutsideDigits s1 → endsOutsideDigits s2 →
  allDigits d1 → allDigits d2 →
  s1 +:+ d1 = s2 +:+ d2 → d1 = d2.
Proof.
  intros H1 H2 Hd1 Hd2. revert s2 H1 H2.
  induction s1 as [|a s1 IH]; intros s2 (c1 & Hc1 & Hn1) (c2 & Hc2 & Hn2) Heq;
    [done|].
  destruct s2 as [|b s2]; [done|].
  injection Heq as <- Heq.
  destruct s1 as [|a1 s1], s2 as [|b1 s2].
  - done.
  - change (d1 = String b1 s2 +:+ d2) in Heq. subst d1.
    rewrite lastChar_String in Hc2 by done.
    pose proof (allDigits_lastChar _ _ _ Hd1 Hc2). congruence.
  - change (String a1 s1 +:+ d1 = d2) in Heq. subst d2.
    rewrite lastChar_String in Hc1 by done.
    pose proof (allDigits_lastChar _ _ _ Hd2 Hc1). congruence.
  - rewrite lastChar_String in Hc1, Hc2 by done.
    apply (IH (String b1 s2)); [by exists c1|by exists c2|done].
Qed.

Lemma String_length_app s1 s2 :
  String.length (s1 +:+ s2) = (String.length s1 + String.length s2)%nat.
Proof.
  induction s1 as [|a s1 IH]; [done|].
  change (String a s1 +:+ s2) with (String a (s1 +:+ s2)).
  simpl. by rewrite IH.
Qed.

Lemma String_app_inj_r s1 s2 d :
  s1 +:+ d = s2 +:+ d → s1 = s2.
Proof.
  revert s2. induction s1 as [|a s1 IH]; intros [|b s2] Heq; [done|..].
  - exfalso. apply (f_equal String.length) in Heq.
    rewrite !String_length_app in Heq. simpl in Heq. lia.
  - exfalso. apply (f_equal String.length) in Heq.
    rewrite !String_length_app in Heq. simpl in Heq. lia.
  - injection Heq as <- Heq. f_equal. by apply IH.
Qed.

(** X15: the keys of the list are all different as long as every
    [indexedAt] ends in something that is not a digit, as a timestamp does:
    the same post shown twice, as after a load-more, still gets two keys. Two
    items with one key have one index, and then one [uri + indexedAt]. *)
Theorem keyExtractor_keys_distinct data :
  Forall (λ item, endsOutsideDigits (Post.indexedAt item)) data →
  NoDup (keysOf data) ∧
  ∀ i j a b,
    data !! i = Some a → data !! j = Some b →
    keyExtractor a i = keyExtractor b j →
    i = j ∧ Post.uri a +:+ Post.indexedAt a = Post.uri b +:+ Post.indexedAt b.
Proof.
  intros Hall.
  assert (∀ i j a b,
            data !! i = Some a → data !! j = Some b →
            keyExtractor a i = keyExtractor b j →
            i = j ∧ Post.uri a +:+ Post.indexedAt a
                    = Post.uri b +:+ Post.indexedAt b) as Hkeys.
  { intros i j a b Ha Hb Hkey. unfold keyExtractor in Hkey.
    destruct (proj1 (Forall_lookup _ _) Hall _ _ Ha) as (ca & Hca & Hna).
    destruct (proj1 (Forall_lookup _ _) Hall _ _ Hb) as (cb & Hcb & Hnb).
    assert (pretty i = pretty j) as Hij.
    { eapply digits_suffix_unique; [| | | |exact Hkey].
      - exists ca. split; [by apply lastChar_app|done].
      - exists cb. split; [by apply lastChar_app|done].
      - apply allDigits_pretty.
      - apply allDigits_pretty. }
    rewrite Hij in Hkey. apply String_app_inj_r in Hkey.
    split; [by apply (inj pretty)|done]. }
  split; [|done].
  apply NoDup_alt. intros i j key Hi Hj.
  unfold keysOf in Hi, Hj. rewrite list_lookup_imap in Hi, Hj.
  destruct (data !! i) as [a|] eqn:Ha; [|done].
  destruct (data !! j) as [b|] eqn:Hb; [|done].
  simpl in Hi, Hj. injection Hi as Hi. injection Hj as Hj.
  apply (Hkeys i j a b Ha Hb). congruence.
Qed.

(** ** More worked examples *)

Module Scenes.

(** An account whose only follow asks for an authenticated viewer. *)
Definition agentAlone : Agent := {|
  resolveHandle_response := resolveHandle_response Demo.agent;
  getFollows_response _ _ _ :=
    inr [ ProfileView.mk "did:plc:c" "c.test" None None
            (Some [Label.mk "!no-unauthenticated"]) ];
  getAuthorFeed_response := getAuthorFeed_response Demo.agent;
  latency := latency Demo.agent
|}.

(** The codec on texts of 7-bit characters, where UTF-8 has one byte for
    each character. *)
Definition Buffer_from : string → list Byte.byte :=
  String.list_byte_of_string.

Definition Buffer_toString : list Byte.byte → string :=
  String.string_of_list_byte.

(** A text of 19 bytes with a tag on "now" and a link on "example.com",
    listed in that order. *)
Definition text : string := "see example.com now".

Definition facets : list Facet.t :=
  [ Facet.mk (ByteSlice.mk 16 19)
      [Feature.mk (Some "app.bsky.richtext.facet#tag") None];
    Facet.mk (ByteSlice.mk 4 15)
      [Feature.mk (Some "app.bsky.richtext.facet#link")
                  (Some "https://example.com")] ].

(** The page of [App] after a first fetch: it holds the cursor map at
    location 1 of the example's store. *)
Definition page : Page :=
  mkPage (mkCells [] false None false false (Some 1%positive) None)
         Demo.state [].

End Scenes.

(** The text comes out in four pieces, the link second and pressable. *)
Example scene_RichText :
  RichText Scenes.Buffer_from Scenes.Buffer_toString
    Scenes.text (Some Scenes.facets)
  = (Some (reverse Scenes.facets),
     inr [ TextString "see ";
           TextLink 0 (Some "https://example.com") "example.com";
           TextString " ";
           TextString "now" ]).
Proof. by vm_compute. Qed.

(** Overlapping facets show a stretch of the text twice. *)
Example scene_RichText_overlap :
  let bold := Feature.mk (Some "app.bsky.richtext.facet#tag") None in
  (RichText Scenes.Buffer_from Scenes.Buffer_toString "abcdef"
     (Some [ Facet.mk (ByteSlice.mk 0 4) [bold];
             Facet.mk (ByteSlice.mk 2 6) [bold] ])).2
  = inr [TextString "abcd"; TextString "cdef"].
Proof. by vm_compute. Qed.

(** Without the hypothesis on [indexedAt] two items can share a key. *)
Example scene_keys_collide :
  let item uri indexedAt :=
    Post.mk uri "bafy" (Author.mk "did:plc:a" "a.test" None None)
      (PostRecord.mk "hello" indexedAt None) None indexedAt None in
  keyExtractor (item "at://a/" "1") 2 = keyExtractor (item "at://a/1" "") 2
  ∧ keyExtractor (item "at://a/" "1") 0 = keyExtractor (item "at://a/" "") 10.
Proof. by vm_compute. Qed.

Lemma scene_rejects :
  (getMergedTimeline Demo.agent Demo.getTime "nobody.test" None Demo.state).1
    = inl (XRPCError 400 "Unable to resolve handle").
Proof. by vm_compute. Defined.

Lemma getMergedTimeline_rejections_witness :
  (getMergedTimeline Demo.agent Demo.getTime "nobody.test" None Demo.state).1
    = inl (XRPCError 400 "Unable to resolve handle") ∧
  let handle := "nobody.test" in
  let e := XRPCError 400 "Unable to resolve handle" in
  let σ := Demo.state in
  let σ' := (getMergedTimeline Demo.agent Demo.getTime handle None σ).2 in
  (String.prefix "did:" handle = false ∧
   resolveHandle_response Demo.agent (issued σ) handle = inl e ∧
   heap σ' = heap σ ∧
   trace σ' = trace σ ++ [Request (issued σ) (ResolveHandle handle);
                          Settled (issued σ)]) ∨
  (∃ did σ1,
     resolveHandle Demo.agent handle σ = (inr did, σ1) ∧
     getFollows_response Demo.agent (issued σ1) did 30 = inl e ∧
     heap σ' = heap σ ∧
     trace σ' = trace σ1 ++ [Request (issued σ1) (GetFollows did 30);
                             Settled (issued σ1)]) ∨
  (∃ message entry,
     e = TypeError message ∧ answered Demo.agent entry ∧ toPost entry = inl e).
Proof.
  exact (conj scene_rejects
           (getMergedTimeline_rejections Demo.agent Demo.getTime _ _ _ _
              scene_rejects)).
Defined.

Lemma scene_alone_resolved :
  resolveHandle Scenes.agentAlone "root.test" Demo.state
    = (inr "did:plc:root", Demo.resolved).
Proof. by vm_compute. Defined.

Lemma scene_alone_follows :
  getFollows_response Scenes.agentAlone (issued Demo.resolved) "did:plc:root" 30
    = inr [ ProfileView.mk "did:plc:c" "c.test" None None
              (Some [Label.mk "!no-unauthenticated"]) ].
Proof. reflexivity. Defined.

Lemma scene_alone_requiresAuth :
  Forall requiresAuth
    [ ProfileView.mk "did:plc:c" "c.test" None None
        (Some [Label.mk "!no-unauthenticated"]) ].
Proof. repeat constructor. Defined.

Lemma getMergedTimeline_no_follows_witness :
  resolveHandle Scenes.agentAlone "root.test" Demo.state
    = (inr "did:plc:root", Demo.resolved) ∧
  getFollows_response Scenes.agentAlone (issued Demo.resolved) "did:plc:root" 30
    = inr [ ProfileView.mk "did:plc:c" "c.test" None None
              (Some [Label.mk "!no-unauthenticated"]) ] ∧
  Forall requiresAuth
    [ ProfileView.mk "did:plc:c" "c.test" None None
        (Some [Label.mk "!no-unauthenticated"]) ] ∧
  getMergedTimeline Scenes.agentAlone Demo.getTime "root.test"
    (Some 1%positive) Demo.state =
    (inr (TimelineResult.mk [] (fresh (dom (heap Demo.state)))),
     mkState (<[fresh (dom (heap Demo.state)) := ∅]> (heap Demo.state))
             (S (issued Demo.resolved))
             (trace Demo.resolved ++
              [Request (issued Demo.resolved) (GetFollows "did:plc:root" 30);
               Settled (issued Demo.resolved)])).
Proof.
  exact (conj scene_alone_resolved (conj scene_alone_follows
           (conj scene_alone_requiresAuth
              (getMergedTimeline_no_follows Scenes.agentAlone Demo.getTime
                 _ _ _ _ _ _ scene_alone_resolved scene_alone_follows
                 scene_alone_requiresAuth)))).
Defined.

Lemma getMergedTimeline_merge_is_stable_witness :
  cursorMapIn Demo.state (Some 1%positive) ∧
  getMergedTimeline Demo.agent Demo.getTime "root.test" (Some 1%positive)
    Demo.state = (inr Demo.result, Demo.run.2) ∧
  Forall (hasDate Demo.getTime) (TimelineResult.posts Demo.result) ∧
  ∃ did σ1 res allPosts,
    resolveHandle Demo.agent "root.test" Demo.state = (inr did, σ1) ∧
    getFollows_response Demo.agent (issued σ1) did 30 = inr res ∧
    Forall2 (λ f p, toPost f = inr p)
      (notBy did (concat (map resolvedFeed
         (pendings Demo.agent (heap Demo.state) (Some 1%positive)
            (S (issued σ1)) (keptFollows res)))))
      allPosts ∧
    TimelineResult.posts Demo.result ≡ₚ allPosts ∧
    (Forall (hasDate Demo.getTime) (TimelineResult.posts Demo.result) →
     ∀ t : Z,
       filter (λ p, Demo.getTime (Post.indexedAt p) = Some t)
              (TimelineResult.posts Demo.result)
       = filter (λ p, Demo.getTime (Post.indexedAt p) = Some t) allPosts).
Proof.
  exact (conj demo_cursorMapIn (conj demo_returns (conj demo_dates
           (getMergedTimeline_merge_is_stable Demo.agent Demo.getTime
              _ _ _ _ _ demo_cursorMapIn demo_returns)))).
Defined.

Lemma getMergedTimeline_latency_independent_witness :
  cursorMapIn Demo.state (Some 1%positive) ∧
  getMergedTimeline Demo.agent Demo.getTime "root.test" (Some 1%positive)
    Demo.state = (inr Demo.result, Demo.run.2) ∧
  ∃ σ'',
    getMergedTimeline (withLatency Demo.agent (λ n, n)) Demo.getTime
      "root.test" (Some 1%positive) Demo.state = (inr Demo.result, σ'') ∧
    feedRequests (trace σ'') = feedRequests (trace Demo.run.2) ∧
    ∀ did σ1 res,
      resolveHandle Demo.agent "root.test" Demo.state = (inr did, σ1) →
      getFollows_response Demo.agent (issued σ1) did 30 = inr res →
      NoDup (map ProfileView.did (keptFollows res)) →
      heap σ'' = heap Demo.run.2.
Proof.
  exact (conj demo_cursorMapIn (conj demo_returns
           (getMergedTimeline_latency_independent Demo.agent Demo.getTime
              (λ n, n) _ _ _ _ _ demo_cursorMapIn demo_returns))).
Defined.

Lemma scene_facets_some : Scenes.facets ≠ [].
Proof. discriminate. Defined.

Lemma scene_facets_inText :
  Forall (inText (Z.of_nat (length (Scenes.Buffer_from Scenes.text))))
         Scenes.facets.
Proof. repeat constructor; vm_compute; congruence. Defined.

Lemma scene_facets_apart : ForallOrdPairs apart Scenes.facets.
Proof.
  constructor; [|repeat constructor].
  constructor; [|constructor]. right. vm_compute. congruence.
Defined.

Lemma scene_facets_features :
  Forall (λ facet, Facet.features facet ≠ []) Scenes.facets.
Proof. repeat constructor; discriminate. Defined.

Lemma RichText_shows_the_text_once_witness :
  Scenes.facets ≠ [] ∧
  Forall (inText (Z.of_nat (length (Scenes.Buffer_from Scenes.text))))
         Scenes.facets ∧
  ForallOrdPairs apart Scenes.facets ∧
  Forall (λ facet, Facet.features facet ≠ []) Scenes.facets ∧
  ∃ elements segments,
    (RichText Scenes.Buffer_from Scenes.Buffer_toString
       Scenes.text (Some Scenes.facets)).2 = inr elements ∧
    map shown elements = map Scenes.Buffer_toString segments ∧
    concat segments = Scenes.Buffer_from Scenes.text.
Proof.
  exact (conj scene_facets_some (conj scene_facets_inText
           (conj scene_facets_apart (conj scene_facets_features
              (RichText_shows_the_text_once Scenes.Buffer_from
                 Scenes.Buffer_toString _ _ scene_facets_some
                 scene_facets_inText scene_facets_apart
                 scene_facets_features))))).
Defined.

Lemma scene_facets_reversed : Scenes.facets ≡ₚ reverse Scenes.facets.
Proof. apply perm_swap. Defined.

Lemma scene_facets_starts :
  NoDup (map (λ facet, ByteSlice.byteStart (Facet.index facet)) Scenes.facets).
Proof.
  apply NoDup_cons. split.
  - intros H%list_elem_of_singleton. discriminate H.
  - apply NoDup_singleton.
Defined.

Lemma RichText_order_of_facets_witness :
  Scenes.facets ≡ₚ reverse Scenes.facets ∧
  NoDup (map (λ facet, ByteSlice.byteStart (Facet.index facet)) Scenes.facets) ∧
  RichText Scenes.Buffer_from Scenes.Buffer_toString
    Scenes.text (Some Scenes.facets)
  = RichText Scenes.Buffer_from Scenes.Buffer_toString
      Scenes.text (Some (reverse Scenes.facets)).
Proof.
  exact (conj scene_facets_reversed (conj scene_facets_starts
           (RichText_order_of_facets Scenes.Buffer_from Scenes.Buffer_toString
              _ _ _ scene_facets_reversed scene_facets_starts))).
Defined.

Lemma fetchTimeline_keeps_cursorMap_in_store_witness :
  cursorMapIn (service Scenes.page) (cursorMap (cells Scenes.page)) ∧
  let w' := App.fetchTimeline Demo.agent Demo.getTime "root.test"
              (cells Scenes.page) false true Scenes.page in
  cursorMapIn (service w') (cursorMap (cells w')) ∧
  cursorMapIn (service w') (cursorMap (cells Scenes.page)) ∧
  (∀ l, is_Some (heap (service Scenes.page) !! l) →
        heap (service w') !! l = heap (service Scenes.page) !! l).
Proof.
  exact (conj demo_cursorMapIn
           (fetchTimeline_keeps_cursorMap_in_store Demo.agent Demo.getTime
              "root.test" (cells Scenes.page) false true Scenes.page
              demo_cursorMapIn demo_cursorMapIn)).
Defined.

Lemma fetchTimeline_cursors_witness :
  cursorMapIn (service Scenes.page) (cursorMap (cells Scenes.page)) ∧
  let w' := App.fetchTimeline Demo.agent Demo.getTime "root.test"
              (cells Scenes.page) false true Scenes.page in
  ∃ evs,
    trace (service w') = trace (service Scenes.page) ++ evs ∧
    ("root.test" = "" ∨ true && loadingMore (cells Scenes.page) = true →
     evs = []) ∧
    ∀ n actor limit cursor,
      Request n (GetAuthorFeed actor limit cursor) ∈ evs →
      cursor = if true
               then lookupMap (heap (service Scenes.page))
                      (cursorMap (cells Scenes.page)) actor
               else None.
Proof.
  exact (conj demo_cursorMapIn
           (fetchTimeline_cursors Demo.agent Demo.getTime "root.test"
              (cells Scenes.page) false true Scenes.page demo_cursorMapIn)).
Defined.

Lemma scene_timestamps :
  Forall (λ item, endsOutsideDigits (Post.indexedAt item))
         (TimelineResult.posts Demo.result).
Proof.
  vm_compute. repeat (constructor; [by eexists|]). constructor.
Defined.

Lemma keyExtractor_keys_distinct_witness :
  Forall (λ item, endsOutsideDigits (Post.indexedAt item))
         (TimelineResult.posts Demo.result) ∧
  NoDup (keysOf (TimelineResult.posts Demo.result)) ∧
  ∀ i j a b,
    TimelineResult.posts Demo.result !! i = Some a →
    TimelineResult.posts Demo.result !! j = Some b →
    keyExtractor a i = keyExtractor b j →
    i = j ∧ Post.uri a +:+ Post.indexedAt a = Post.uri b +:+ Post.indexedAt b.
Proof.
  exact (conj scene_timestamps
           (keyExtractor_keys_distinct _ scene_timestamps)).
Defined.
